(** * Snapjack server: a shallow embedding of [blackjack_server.js]

    The development follows the source file top to bottom:

    - [JsString]: the three string primitives the server relies on
      ([Number.prototype.toString(36)], [String.prototype.split('-')],
      [parseInt(s, 10)]);
    - [Cards]: cards, [createDeck] and [calculateScore];
    - [Server]: the process-wide stores ([games], [activePlayers],
      [completedGames], [paidRewards]), the [BlackjackGame] methods, the
      reward path ([processReward], [sendCardsReward]), the two cleanup
      jobs and the request handlers;
    - [Sample]: the concrete sessions and stores the examples use.

    The properties follow: the score, the reward path, the cleanup jobs,
    the registry, the deck, the sessions with their invariant, the
    request handlers, the count of transfers over every run of the
    server, and the session identifiers.

    JavaScript runs the server on one thread; a function body runs without
    interruption up to its first [await].  Each synchronous stretch is
    therefore one function on the stores here, and a suspended [async]
    call is a value of type [Task] waiting in the store until it resumes.
    Random draws, the clock and the answers of the network are inputs.
    Console output is left out. *)

From Stdlib Require Import ZArith Ascii String.
From stdpp Require Import gmap strings list fin_maps.

Local Open Scope Z_scope.

(** ** JavaScript string primitives *)
Module JsString.

(** ['0'..'9'] then ['a'..'z'], the digits of [toString(36)]. *)
Definition digitChar (d : Z) : ascii :=
  if d <? 10 then ascii_of_nat (Z.to_nat (48 + d))
  else ascii_of_nat (Z.to_nat (87 + d)).

Fixpoint toBase36 (fuel : nat) (n : Z) (acc : string) : string :=
  match fuel with
  | O => acc
  | S fuel' =>
      let acc' := String (digitChar (n mod 36)) acc in
      if n / 36 =? 0 then acc' else toBase36 fuel' (n / 36) acc'
  end.

(** [n.toString(36)] for an integer [n].  The fuel is the bit length of
    [n], more than the number of base-36 digits. *)
Definition toString36 (n : Z) : string :=
  if n <? 0 then String "-" (toBase36 (S (Z.to_nat (Z.log2 (- n)))) (- n) "")
  else toBase36 (S (Z.to_nat (Z.log2 n))) n "".

(** [s.split('-')], with the piece being read kept in [cur]. *)
Fixpoint splitDashFrom (cur : string) (s : string) : list string :=
  match s with
  | EmptyString => [cur]
  | String c s' =>
      if Ascii.eqb c "-" then cur :: splitDashFrom "" s'
      else splitDashFrom (cur +:+ String c "") s'
  end.

Definition splitDash (s : string) : list string := splitDashFrom "" s.

(** The ASCII members of the white space [parseInt] skips. *)
Definition isWhite (c : ascii) : bool :=
  let n := nat_of_ascii c in
  (Nat.eqb n 9 || Nat.eqb n 10 || Nat.eqb n 11 || Nat.eqb n 12
   || Nat.eqb n 13 || Nat.eqb n 32)%bool.

Fixpoint skipWhite (s : string) : string :=
  match s with
  | String c s' => if isWhite c then skipWhite s' else s
  | EmptyString => s
  end.

Definition decimalDigit (c : ascii) : option Z :=
  let n := Z.of_nat (nat_of_ascii c) in
  if (48 <=? n) && (n <=? 57) then Some (n - 48) else None.

(** The longest prefix of decimal digits, read left to right; [None]
    when there is no digit at all. *)
Fixpoint parseDigits (s : string) (acc : option Z) : option Z :=
  match s with
  | EmptyString => acc
  | String c s' =>
      match decimalDigit c with
      | Some d => parseDigits s' (Some (10 * default 0 acc + d))
      | None => acc
      end
  end.

(** [parseInt(s, 10)]; [None] stands for [NaN].  Values are exact
    integers: the server only parses numerals below [2^53]. *)
Definition parseInt10 (s : string) : option Z :=
  match skipWhite s with
  | String c s' =>
      if Ascii.eqb c "-" then Z.opp <$> parseDigits s' None
      else if Ascii.eqb c "+" then parseDigits s' None
      else parseDigits (String c s') None
  | EmptyString => None
  end.

(** No character of [s] is a dash. *)
Fixpoint noDash (s : string) : bool :=
  match s with
  | EmptyString => true
  | String c s' => negb (Ascii.eqb c "-") && noDash s'
  end.

End JsString.

(** ** Cards, deck and score *)
Module Cards.

Inductive Suit := hearts | diamonds | clubs | spades.

Inductive Rank :=
| RA | R2 | R3 | R4 | R5 | R6 | R7 | R8 | R9 | R10 | RJ | RQ | RK.

Record Card := mkCard { suit : Suit; rank : Rank; hidden : bool }.

Global Instance Suit_eq_dec : EqDecision Suit.
Proof. solve_decision. Defined.
Global Instance Rank_eq_dec : EqDecision Rank.
Proof. solve_decision. Defined.
Global Instance Card_eq_dec : EqDecision Card.
Proof. solve_decision. Defined.

(** The strings the source stores in [card.rank]. *)
Definition rankString (r : Rank) : string :=
  match r with
  | RA => "A" | R2 => "2" | R3 => "3" | R4 => "4" | R5 => "5"
  | R6 => "6" | R7 => "7" | R8 => "8" | R9 => "9" | R10 => "10"
  | RJ => "J" | RQ => "Q" | RK => "K"
  end.

Definition suits : list Suit := [hearts; diamonds; clubs; spades].
Definition ranks : list Rank :=
  [RA; R2; R3; R4; R5; R6; R7; R8; R9; R10; RJ; RQ; RK].

(** The value [calculateScore] adds for a card that is not hidden: 11
    for an Ace, 10 for K, Q and J, and [parseInt(card.rank, 10)] for the
    numerals (see [rankValue_parseInt]). *)
Definition rankValue (r : Rank) : Z :=
  match r with
  | RA => 11
  | RK | RQ | RJ => 10
  | R2 => 2 | R3 => 3 | R4 => 4 | R5 => 5 | R6 => 6
  | R7 => 7 | R8 => 8 | R9 => 9 | R10 => 10
  end.

(** One turn of the [for (const card of hand)] loop on the pair of
    accumulators [(score, aces)]. *)
Definition scoreStep (acc : Z * nat) (card : Card) : Z * nat :=
  if hidden card then acc
  else match rank card with
       | RA => (fst acc + 11, S (snd acc))
       | r => (fst acc + rankValue r, snd acc)
       end.

(** [while (score > 21 && aces > 0) { score -= 10; aces -= 1; }] *)
Fixpoint softenAces (score : Z) (aces : nat) : Z :=
  match aces with
  | O => score
  | S aces' => if 21 <? score then softenAces (score - 10) aces' else score
  end.

Definition calculateScore (hand : list Card) : Z :=
  let acc := fold_left scoreStep hand (0, O) in
  softenAces (fst acc) (snd acc).

(** The six packs in the order the nested loops push them. *)
Definition orderedDeck : list Card :=
  flat_map (fun _ : nat =>
    flat_map (fun s => map (fun r => mkCard s r false) ranks) suits)
    (seq 0 6).

(** [[deck[i], deck[j]] = [deck[j], deck[i]]] *)
Definition swap (deck : list Card) (i j : nat) : list Card :=
  match deck !! i, deck !! j with
  | Some a, Some b => <[j:=a]> (<[i:=b]> deck)
  | _, _ => deck
  end.

(** The Fisher-Yates loop [for (i = deck.length - 1; i > 0; i--)].
    [pick i] is the random draw of turn [i]; it is reduced into
    [0..i], the range of [Math.floor(Math.random() * (i + 1))]. *)
Fixpoint shuffleFrom (pick : nat -> nat) (i : nat) (deck : list Card)
  : list Card :=
  match i with
  | O => deck
  | S i' => shuffleFrom pick i' (swap deck i (pick i mod S i)%nat)
  end.

(** [createDeck()].  The result lists the array from its LAST element to
    its first, so that the head of the list is the card [deck.pop()]
    returns next. *)
Definition createDeck (pick : nat -> nat) : list Card :=
  rev (shuffleFrom pick (length orderedDeck - 1) orderedDeck).

(** *** Notions used to state the properties of the score *)

Definition visible (card : Card) : Prop := hidden card = false.

(** The total of the cards that are not hidden, every Ace counted as 11. *)
Fixpoint softTotal (hand : list Card) : Z :=
  match hand with
  | [] => 0
  | card :: hand' =>
      (if hidden card then 0 else rankValue (rank card)) + softTotal hand'
  end.

(** The value of a rank with the Ace counted as 1. *)
Definition hardValue (r : Rank) : Z :=
  match r with
  | RA => 1
  | r => rankValue r
  end.

(** The total of the cards that are not hidden, every Ace counted as 1. *)
Fixpoint hardTotal (hand : list Card) : Z :=
  match hand with
  | [] => 0
  | card :: hand' =>
      (if hidden card then 0 else hardValue (rank card)) + hardTotal hand'
  end.

(** The number of Aces that are not hidden. *)
Fixpoint acesIn (hand : list Card) : nat :=
  match hand with
  | [] => O
  | card :: hand' =>
      ((if hidden card then 0 else if decide (rank card = RA) then 1 else 0)
       + acesIn hand')%nat
  end.

(** The totals a hand can be counted as: each Ace that is not hidden is
    worth 1 or 11, [k] of them 11. *)
Definition achievable (hand : list Card) (total : Z) : Prop :=
  exists k : nat, (k <= acesIn hand)%nat /\ total = hardTotal hand + 10 * Z.of_nat k.

End Cards.

(** ** The server: stores, sessions, rewards, cleanup *)
Module Server.
Import JsString Cards.

Definition ENTRY_FEE : Z := 3.
Definition REWARD_AMOUNT : Z := 5.

Inductive GameState := WAITING_FOR_BET | PLAYER_TURN | DEALER_TURN | GAME_ENDED.

Global Instance GameState_eq_dec : EqDecision GameState.
Proof. solve_decision. Defined.

Definition VALID_GAME_STATES (s : GameState) : list GameState :=
  match s with
  | WAITING_FOR_BET => [PLAYER_TURN]
  | PLAYER_TURN => [DEALER_TURN; GAME_ENDED]
  | DEALER_TURN => [GAME_ENDED]
  | GAME_ENDED => []
  end.

Definition isValidStateTransition (currentState newState : GameState) : bool :=
  bool_decide (newState ∈ VALID_GAME_STATES currentState).

(** *** Data *)

(** The fields of a [BlackjackGame] object. *)
Record Game := mkGame {
  playerId : string;
  gameId : string;
  completed : bool;
  deck : list Card;
  playerHand : list Card;
  dealerHand : list Card;
  state : GameState;
  currentBet : Z;
  rewardPaid : bool;
  stateHistory : list GameState
}.

Definition set_completed (b : bool) (g : Game) : Game :=
  mkGame (playerId g) (gameId g) b (deck g) (playerHand g) (dealerHand g)
         (state g) (currentBet g) (rewardPaid g) (stateHistory g).
Definition set_deck (d : list Card) (g : Game) : Game :=
  mkGame (playerId g) (gameId g) (completed g) d (playerHand g) (dealerHand g)
         (state g) (currentBet g) (rewardPaid g) (stateHistory g).
Definition set_playerHand (h : list Card) (g : Game) : Game :=
  mkGame (playerId g) (gameId g) (completed g) (deck g) h (dealerHand g)
         (state g) (currentBet g) (rewardPaid g) (stateHistory g).
Definition set_dealerHand (h : list Card) (g : Game) : Game :=
  mkGame (playerId g) (gameId g) (completed g) (deck g) (playerHand g) h
         (state g) (currentBet g) (rewardPaid g) (stateHistory g).
Definition set_state (s : GameState) (g : Game) : Game :=
  mkGame (playerId g) (gameId g) (completed g) (deck g) (playerHand g)
         (dealerHand g) s (currentBet g) (rewardPaid g) (stateHistory g ++ [s]).
Definition set_rewardPaid (b : bool) (g : Game) : Game :=
  mkGame (playerId g) (gameId g) (completed g) (deck g) (playerHand g)
         (dealerHand g) (state g) (currentBet g) b (stateHistory g).

Inductive GameResult := win | loss.

(** A value of the [completedGames] map. *)
Record CompletedEntry := mkCompleted {
  entryPlayer : string;
  result : GameResult;
  timestamp : Z;
  processed : bool
}.

Definition set_processed (b : bool) (e : CompletedEntry) : CompletedEntry :=
  mkCompleted (entryPlayer e) (result e) (timestamp e) b.

(** A value of the [paidRewards] map: ['pending'], ['completed'], ['failed']. *)
Module RewardStatus.
Inductive t := pending | completed | failed.
End RewardStatus.
Abbreviation RewardStatus := RewardStatus.t.
Abbreviation pending := RewardStatus.pending.
Abbreviation failed := RewardStatus.failed.

Inductive RpcCall :=
| getAssociatedTokenAddress
| getAccountInfo
| getRecentBlockhash
| sendRawTransaction (receiver : string).

Inductive Error :=
| InvalidPlayerAccount
| ActiveGameInProgress
| InvalidStateTransition (currentState newState : GameState)
| CannotHit
| CannotStand
| GameAlreadyCompleted
| DeckExhausted
| InvalidSolanaAddress
| ReceiverNeedsTokenAccount
| RpcRejected (call : RpcCall).

Inductive Res (A : Type) :=
| Ok (a : A)
| Throw (e : Error).
Arguments Ok {A} a.
Arguments Throw {A} e.

(** Where [sendCardsReward] stands when control first returns to the
    event loop: it threw on the address, it returned [null] because the
    key was already in [paidRewards], or it wrote ['pending'] and is
    waiting for the network. *)
Inductive SendStage := SendThrown (e : Error) | SendSkipped | SendAwaiting.

(** A suspended computation.  [RewardTask] is [processReward] waiting on
    [await sendCardsReward(...)]; it holds the [gameCompletion] object
    it read.  [ReleasePlayer] is the five-second timer of
    [markGameAsCompleted]. *)
Inductive Task :=
| RewardTask (receiver game : string) (gameCompletion : CompletedEntry)
             (stage : SendStage)
| ReleasePlayer (player : string).

(** Writes to the two ledgers and calls to the network, in program order. *)
Inductive Event :=
| EvCompletedSet (game : string) (e : CompletedEntry)
| EvPaidSet (key : string) (s : RewardStatus)
| EvRpc (call : RpcCall).

Global Instance GameResult_eq_dec : EqDecision GameResult.
Proof. solve_decision. Defined.
Global Instance RewardStatus_eq_dec : EqDecision RewardStatus.
Proof. solve_decision. Defined.
Global Instance CompletedEntry_eq_dec : EqDecision CompletedEntry.
Proof. solve_decision. Defined.
Global Instance RpcCall_eq_dec : EqDecision RpcCall.
Proof. solve_decision. Defined.
Global Instance Event_eq_dec : EqDecision Event.
Proof. solve_decision. Defined.

(** The module-level variables of the server, the value [Date.now()]
    has during the current synchronous stretch, the suspended tasks,
    and the log of ledger writes and network calls. *)
Record World := mkWorld {
  games : gmap string Game;
  activePlayers : gset string;
  completedGames : gmap string CompletedEntry;
  paidRewards : gmap string RewardStatus;
  now : Z;
  tasks : list Task;
  trace : list Event
}.

Definition set_games (m : gmap string Game) (w : World) : World :=
  mkWorld m (activePlayers w) (completedGames w) (paidRewards w) (now w)
          (tasks w) (trace w).
Definition set_activePlayers (s : gset string) (w : World) : World :=
  mkWorld (games w) s (completedGames w) (paidRewards w) (now w)
          (tasks w) (trace w).
Definition set_tasks (l : list Task) (w : World) : World :=
  mkWorld (games w) (activePlayers w) (completedGames w) (paidRewards w)
          (now w) l (trace w).
Definition set_now (t : Z) (w : World) : World :=
  mkWorld (games w) (activePlayers w) (completedGames w) (paidRewards w)
          t (tasks w) (trace w).
Definition log (evs : list Event) (w : World) : World :=
  mkWorld (games w) (activePlayers w) (completedGames w) (paidRewards w)
          (now w) (tasks w) (trace w ++ evs).

(** [completedGames.set(gameId, e)] *)
Definition completedSet (game : string) (e : CompletedEntry) (w : World) : World :=
  mkWorld (games w) (activePlayers w) (<[game := e]> (completedGames w))
          (paidRewards w) (now w) (tasks w) (trace w ++ [EvCompletedSet game e]).

(** [paidRewards.set(key, s)] *)
Definition paidSet (key : string) (s : RewardStatus) (w : World) : World :=
  mkWorld (games w) (activePlayers w) (completedGames w)
          (<[key := s]> (paidRewards w)) (now w) (tasks w)
          (trace w ++ [EvPaidSet key s]).

(** A cleanup job replaces a ledger without logging. *)
Definition set_completedGames (m : gmap string CompletedEntry) (w : World) : World :=
  mkWorld (games w) (activePlayers w) m (paidRewards w) (now w)
          (tasks w) (trace w).
Definition set_paidRewards (m : gmap string RewardStatus) (w : World) : World :=
  mkWorld (games w) (activePlayers w) (completedGames w) m (now w)
          (tasks w) (trace w).

Definition emptyWorld (t : Z) : World := mkWorld ∅ ∅ ∅ ∅ t [] [].

(** *** Cleanup jobs *)

(** The body of [for (const [gameId, gameData] of completedGames.entries())]. *)
Definition sweepCompleted (cutoff : Z) (m : gmap string CompletedEntry)
           (kv : string * CompletedEntry) : gmap string CompletedEntry :=
  if timestamp kv.2 <? cutoff then delete kv.1 m else m.

Definition cleanupOldCompletedGames (w : World) : World :=
  let twentyFourHoursAgo := now w - 24 * 60 * 60 * 1000 in
  set_completedGames
    (foldl (sweepCompleted twentyFourHoursAgo) (completedGames w)
           (map_to_list (completedGames w))) w.

(** The test the paid-rewards loop applies to one key. *)
Definition paidKeyExpired (cutoff : Z) (key : string) : bool :=
  let parts := splitDash key in
  if (2 <=? length parts)%nat then
    match parts !! 1%nat with
    | Some timestampPart =>
        match parseInt10 timestampPart with
        | Some timestamp => timestamp <? cutoff
        | None => false
        end
    | None => false
    end
  else false.

Definition sweepPaid (cutoff : Z) (m : gmap string RewardStatus)
           (kv : string * RewardStatus) : gmap string RewardStatus :=
  if paidKeyExpired cutoff kv.1 then delete kv.1 m else m.

Definition cleanupOldPaidRewards (w : World) : World :=
  let sevenDaysAgo := now w - 7 * 24 * 60 * 60 * 1000 in
  set_paidRewards
    (foldl (sweepPaid sevenDaysAgo) (paidRewards w)
           (map_to_list (paidRewards w))) w.

(** *** Session identifiers *)

Definition chars : string :=
  "ABCDEFGHIJKLMNOPQRSTUVWXYZabcdefghijklmnopqrstuvwxyz0123456789".

Definition charAt (s : string) (n : nat) : string :=
  match String.get n s with
  | Some c => String c ""
  | None => ""
  end.

(** The loop of [generateSecureId] from turn [i], [count] turns left.
    [draw i] holds the two random integers of turn [i]: the integer
    part of [Math.random() * chars.length] and
    [Math.floor(Math.random() * 16)]; both are reduced into range. *)
Fixpoint idSuffix (draw : nat -> nat * nat) (i count : nat) : string :=
  match count with
  | O => ""
  | S count' =>
      let randomIndex :=
        (Nat.lxor ((draw i).1 mod 62)
                  (Nat.shiftl ((draw i).2 mod 16) (i mod 4)) mod 62)%nat in
      charAt chars randomIndex +:+ idSuffix draw (S i) count'
  end.

Definition generateSecureId (t : Z) (draw : nat -> nat * nat) : string :=
  toString36 t +:+ "-" +:+ idSuffix draw 0 16.


(** *** Reward path *)

(** What the network answers to one run of [sendCardsReward] once
    ['pending'] is written: the first call that fails, or the signature
    [sendRawTransaction] returns. *)
Inductive ExternalOutcome :=
| TokenAddressFails
| AccountInfoFails
| AccountMissing
| BlockhashFails
| SendFails
| SendOk (signature : string).

(** The calls made before the outcome is known. *)
Definition rpcCalls (receiver : string) (o : ExternalOutcome) : list RpcCall :=
  match o with
  | TokenAddressFails => [getAssociatedTokenAddress]
  | AccountInfoFails | AccountMissing =>
      [getAssociatedTokenAddress; getAssociatedTokenAddress; getAccountInfo]
  | BlockhashFails =>
      [getAssociatedTokenAddress; getAssociatedTokenAddress; getAccountInfo;
       getRecentBlockhash]
  | SendFails | SendOk _ =>
      [getAssociatedTokenAddress; getAssociatedTokenAddress; getAccountInfo;
       getRecentBlockhash; sendRawTransaction receiver]
  end.

Definition rpcResult (receiver : string) (o : ExternalOutcome) : Res string :=
  match o with
  | TokenAddressFails => Throw (RpcRejected getAssociatedTokenAddress)
  | AccountInfoFails => Throw (RpcRejected getAccountInfo)
  | AccountMissing => Throw ReceiverNeedsTokenAccount
  | BlockhashFails => Throw (RpcRejected getRecentBlockhash)
  | SendFails => Throw (RpcRejected (sendRawTransaction receiver))
  | SendOk signature => Ok signature
  end.

Definition transactionKey (receiverAddress game : string) : string :=
  receiverAddress +:+ "-" +:+ game.

(** [this.rewardPaid = true] on the session object [game] of [player].
    The object is reachable from the program only while it sits in
    [games]; written to after it was replaced there, nothing can read
    it.  The object is recognised by its [gameId]. *)
Definition markRewardPaid (player game : string) (w : World) : World :=
  match games w !! player with
  | Some g =>
      if String.eqb (gameId g) game
      then set_games (<[player := set_rewardPaid true g]> (games w)) w
      else w
  | None => w
  end.

Section WithPublicKey.

(** [new PublicKey(s)] of [@solana/web3.js] succeeds exactly on the
    strings for which [validPublicKey] holds. *)
Variable validPublicKey : string -> bool.

(** [sendCardsReward] up to its first [await]. *)
Definition sendCardsReward_begin (receiverAddress game : string) (w : World)
  : World * SendStage :=
  if negb (validPublicKey receiverAddress) then (w, SendThrown InvalidSolanaAddress)
  else
    let key := transactionKey receiverAddress game in
    match paidRewards w !! key with
    | Some _ => (w, SendSkipped)
    | None => (paidSet key pending w, SendAwaiting)
    end.

(** [sendCardsReward] from its first [await] to its end, under the
    outcome [o] of the network. *)
Definition sendCardsReward_resume (o : ExternalOutcome)
           (receiverAddress game : string) (w : World)
  : World * Res (option string) :=
  let key := transactionKey receiverAddress game in
  let w1 := log (EvRpc <$> rpcCalls receiverAddress o) w in
  match rpcResult receiverAddress o with
  | Ok signature => (paidSet key RewardStatus.completed w1, Ok (Some signature))
  | Throw e => (paidSet key failed w1, Throw e)
  end.

(** What a call that stood at [stage] does from there on. *)
Definition sendCardsReward_finish (o : ExternalOutcome)
           (receiverAddress game : string) (stage : SendStage) (w : World)
  : World * Res (option string) :=
  match stage with
  | SendThrown e => (w, Throw e)
  | SendSkipped => (w, Ok None)
  | SendAwaiting => sendCardsReward_resume o receiverAddress game w
  end.

(** [sendCardsReward] with nothing else running in between. *)
Definition sendCardsReward (o : ExternalOutcome) (receiverAddress game : string)
           (w : World) : World * Res (option string) :=
  let '(w1, stage) := sendCardsReward_begin receiverAddress game w in
  sendCardsReward_finish o receiverAddress game stage w1.

(** [processReward] up to [await sendCardsReward(...)]: [None] when it
    returned at once, the suspended task otherwise. *)
Definition processReward_begin (player game : string) (w : World)
  : World * option Task :=
  match completedGames w !! game with
  | None => (w, None)
  | Some gameCompletion =>
      if processed gameCompletion then (w, None)
      else
        let gameCompletion' := set_processed true gameCompletion in
        let w1 := completedSet game gameCompletion' w in
        let '(w2, stage) := sendCardsReward_begin player game w1 in
        (w2, Some (RewardTask player game gameCompletion' stage))
  end.

(** The rest of [processReward], run when [sendCardsReward] settles;
    [gameCompletion] is the object it read before the [await]. *)
Definition processReward_resume (o : ExternalOutcome) (player game : string)
           (gameCompletion : CompletedEntry) (stage : SendStage) (w : World)
  : World :=
  let '(w1, r) := sendCardsReward_finish o player game stage w in
  match r with
  | Ok _ => markRewardPaid player game w1
  | Throw _ => completedSet game (set_processed false gameCompletion) w1
  end.

(** The timer callback of [markGameAsCompleted]. *)
Definition releasePlayer (player : string) (w : World) : World :=
  set_activePlayers (activePlayers w ∖ {[player]}) w.

(** Runs a suspended task to its end; [o] is what the network answers
    if the task asks. *)
Definition resumeTask (o : ExternalOutcome) (t : Task) (w : World) : World :=
  match t with
  | RewardTask player game gameCompletion stage =>
      processReward_resume o player game gameCompletion stage w
  | ReleasePlayer player => releasePlayer player w
  end.

(** [processReward] with nothing else running in between. *)
Definition processReward (o : ExternalOutcome) (player game : string) (w : World)
  : World :=
  let '(w1, t) := processReward_begin player game w in
  match t with
  | Some t => resumeTask o t w1
  | None => w1
  end.

(** *** Session methods

    A method runs on the stores and on [this].  A [throw] keeps every
    write made before it. *)
Definition M (A : Type) : Type := World * Game -> (World * Game) * Res A.

#[global] Instance M_ret : MRet M := fun A a s => (s, Ok a).
#[global] Instance M_bind : MBind M := fun A B f m s =>
  match m s with
  | (s', Ok a) => f a s'
  | (s', Throw e) => (s', Throw e)
  end.

Definition getThis : M Game := fun s => (s, Ok s.2).
Definition getWorld : M World := fun s => (s, Ok s.1).
Definition modifyThis (f : Game -> Game) : M unit := fun s => ((s.1, f s.2), Ok tt).
Definition modifyWorld (f : World -> World) : M unit := fun s => ((f s.1, s.2), Ok tt).
Definition throw {A} (e : Error) : M A := fun s => (s, Throw e).

(** A call to an [async] method that is not awaited: what it throws
    rejects a promise nobody reads. *)
Definition detached (m : M unit) : M unit := fun s => ((m s).1, Ok tt).

(** [this.deck.pop()].  On an empty deck the source gets [undefined] and
    the next [calculateScore] over the hand throws a [TypeError]; the
    throw is raised here, at the [pop]. *)
Definition pop : M Card :=
  g ← getThis;
  match deck g with
  | [] => throw DeckExhausted
  | card :: rest => modifyThis (set_deck rest);; mret card
  end.

Definition transitionState (newState : GameState) : M GameState :=
  g ← getThis;
  if isValidStateTransition (state g) newState
  then modifyThis (set_state newState);; mret newState
  else throw (InvalidStateTransition (state g) newState).

Definition markGameAsCompleted (playerWon : bool) : M unit :=
  g ← getThis;
  if completed g then mret tt
  else
    modifyThis (set_completed true);;
    w ← getWorld;
    modifyWorld (completedSet (gameId g)
      (mkCompleted (playerId g) (if playerWon then win else loss) (now w) false));;
    (if playerWon
     then modifyWorld (fun w =>
            let '(w', t) := processReward_begin (playerId g) (gameId g) w in
            set_tasks (tasks w' ++ option_list t) w')
     else mret tt);;
    modifyWorld (fun w => set_tasks (tasks w ++ [ReleasePlayer (playerId g)]) w).

(** [{ ...card, hidden: true }] *)
Definition hide (card : Card) : Card := mkCard (suit card) (rank card) true.

Definition dealInitialCards : M unit :=
  p1 ← pop; p2 ← pop;
  modifyThis (set_playerHand [p1; p2]);;
  d1 ← pop; d2 ← pop;
  modifyThis (set_dealerHand [d1; hide d2]);;
  g ← getThis;
  let playerScore := calculateScore (playerHand g) in
  if playerScore =? 21
  then transitionState GAME_ENDED;; markGameAsCompleted true
  else mret tt.

(** The random draws one session consumes. *)
Record Entropy := mkEntropy {
  shufflePick : nat -> nat;
  constructorIdDraw : nat -> nat * nat;
  resetIdDraw : nat -> nat * nat
}.

Definition reset (ent : Entropy) : M unit :=
  g ← getThis;
  w ← getWorld;
  modifyThis (fun _ =>
    mkGame (playerId g) (generateSecureId (now w) (resetIdDraw ent)) false
           (createDeck (shufflePick ent)) [] [] PLAYER_TURN ENTRY_FEE false
           [PLAYER_TURN]);;
  detached dealInitialCards.

(** *** The view sent to the client *)

(** An element of the [dealerHand] array of the response: the card
    object itself, or the object [{ hidden: true }]. *)
Inductive CardView := Shown (card : Card) | HiddenCard.

Record GameView := mkView {
  v_playerHand : list Card;
  v_dealerHand : list CardView;
  v_state : GameState;
  v_currentBet : Z;
  v_playerScore : Z;
  v_dealerScore : Z;
  v_message : string;
  v_gameId : string;
  v_rewardPaid : bool;
  v_completed : bool
}.

Definition getMessage (g : Game) : string :=
  let playerScore := calculateScore (playerHand g) in
  let dealerScore := calculateScore (dealerHand g) in
  match state g with
  | WAITING_FOR_BET => "Place your bet to start the game"
  | PLAYER_TURN => "Your turn! Hit or Stand?"
  | DEALER_TURN => "Dealer's turn..."
  | GAME_ENDED =>
      if 21 <? playerScore then "Bust! You lost!"
      else if playerScore =? 21 then "Perfect 21! You win!"
      else if 21 <? dealerScore then "Dealer busts! You win!"
      else if dealerScore <? playerScore then "You win!"
      else "You lost!"
  end.

Definition filterCard (card : Card) : CardView :=
  if hidden card then HiddenCard else Shown card.

Definition getGameState (g : Game) : GameView :=
  let filteredDealerHand := map filterCard (dealerHand g) in
  mkView (playerHand g) filteredDealerHand (state g) (currentBet g)
         (calculateScore (playerHand g))
         (calculateScore (filter (fun card => hidden card = false) (dealerHand g)))
         (getMessage g) (gameId g) (rewardPaid g) (completed g).

(** *** Player actions *)

Definition hit : M GameView :=
  g ← getThis;
  if negb (bool_decide (state g = PLAYER_TURN)) then throw CannotHit
  else
    card ← pop;
    modifyThis (fun g => set_playerHand (playerHand g ++ [card]) g);;
    g ← getThis;
    let playerScore := calculateScore (playerHand g) in
    (if 21 <? playerScore
     then transitionState GAME_ENDED;; markGameAsCompleted false
     else if playerScore =? 21
     then transitionState GAME_ENDED;; markGameAsCompleted true
     else mret tt);;
    g ← getThis;
    mret (getGameState g).

(** [while (dealerScore < 17) { push(pop()); dealerScore = ... }].  Each
    turn pops one card, so [fuel = deck.length] turns are all the deck
    allows; the result is the final [dealerScore]. *)
Fixpoint dealerDraw (fuel : nat) : M Z :=
  g ← getThis;
  let dealerScore := calculateScore (dealerHand g) in
  if dealerScore <? 17
  then match fuel with
       | O => throw DeckExhausted
       | S fuel' =>
           card ← pop;
           modifyThis (fun g => set_dealerHand (dealerHand g ++ [card]) g);;
           dealerDraw fuel'
       end
  else mret dealerScore.

(** [{ ...card, hidden: false }] *)
Definition reveal (card : Card) : Card := mkCard (suit card) (rank card) false.

(** The winner rule of [stand]. *)
Definition playerWins (playerScore dealerScore : Z) : bool :=
  if 21 <? playerScore then false
  else if (21 <? dealerScore) || (dealerScore <? playerScore) then true
  else false.

Definition stand : M GameView :=
  g ← getThis;
  if negb (bool_decide (state g = PLAYER_TURN)) then throw CannotStand
  else if completed g then throw GameAlreadyCompleted
  else
    transitionState DEALER_TURN;;
    modifyThis (fun g => set_dealerHand (map reveal (dealerHand g)) g);;
    g ← getThis;
    dealerScore ← dealerDraw (length (deck g));
    transitionState GAME_ENDED;;
    g ← getThis;
    let playerScore := calculateScore (playerHand g) in
    markGameAsCompleted (playerWins playerScore dealerScore);;
    g ← getThis;
    mret (getGameState g).

(** *** Bets *)

Definition set_currentBet (amount : Z) (g : Game) : Game :=
  mkGame (playerId g) (gameId g) (completed g) (deck g) (playerHand g)
         (dealerHand g) (state g) amount (rewardPaid g) (stateHistory g).

(** How a call of [placeBet] ends: one of its own two errors (by its
    message), an error of [transitionState], or the view. *)
Inductive BetOutcome :=
| BetRefused (message : string)
| BetInternal (e : Error)
| BetPlaced (view : GameView).

(** [placeBet(amount)].  No code assigns [this.playerBalance], so the
    test [amount > this.playerBalance] compares with [undefined], is
    false, and 'Insufficient funds' is never thrown. *)
Definition placeBet (amount : Z) (s : World * Game) : (World * Game) * BetOutcome :=
  if negb (bool_decide (state s.2 = WAITING_FOR_BET))
  then (s, BetRefused "Cannot place bet at this time")
  else
    match transitionState PLAYER_TURN (s.1, set_currentBet amount s.2) with
    | (s', Ok _) => (s', BetPlaced (getGameState s'.2))
    | (s', Throw e) => (s', BetInternal e)
    end.

(** *** The constructor and the registry *)

(** [new BlackjackGame(playerId)].  Before [reset] runs only [playerId],
    [gameId] and [completed] are assigned; [reset] assigns every other
    field, so the values they get here are never read. *)
Definition newBlackjackGame (ent : Entropy) (player : string) (w : World)
  : World * Res Game :=
  if negb (validPublicKey player) then (w, Throw InvalidPlayerAccount)
  else if bool_decide (player ∈ activePlayers w) then (w, Throw ActiveGameInProgress)
  else
    let w1 := set_activePlayers ({[player]} ∪ activePlayers w) w in
    let this := mkGame player (generateSecureId (now w) (constructorIdDraw ent))
                       false [] [] [] PLAYER_TURN 0 false [] in
    match reset ent (w1, this) with
    | ((w2, g), Ok _) => (w2, Ok g)
    | ((w2, _), Throw e) => (w2, Throw e)
    end.

Inductive Response :=
| Json (body : GameView)
| Failure (status : Z) (error : string) (details : option Error).

(** The [try { new BlackjackGame; games.set; res.json } catch { 500 }]
    block of the create handler. *)
Definition createAndRegister (ent : Entropy) (player : string) (w : World)
  : World * Response :=
  match newBlackjackGame ent player w with
  | (w', Ok game) => (set_games (<[player := game]> (games w')) w', Json (getGameState game))
  | (w', Throw e) => (w', Failure 500 "Failed to create game" (Some e))
  end.

(** [POST /api/game/create].  [player] is [req.body.playerId]: [None]
    when missing; [entryFeePaid] is the truth value of
    [req.body.entryFeePaid]. *)
Definition apiGameCreate (ent : Entropy) (player : option string)
           (entryFeePaid : bool) (w : World) : World * Response :=
  match player with
  | None | Some "" => (w, Failure 400 "Player ID is required" None)
  | Some player =>
      if negb (validPublicKey player)
      then (w, Failure 400 "Invalid player ID format. Must be a valid Solana address." None)
      else if negb entryFeePaid
      then (w, Failure 400 "Entry fee must be paid before creating a game" None)
      else if bool_decide (player ∈ activePlayers w)
      then match games w !! player with
           | Some game => (w, Json (getGameState game))
           | None => createAndRegister ent player
                       (set_activePlayers (activePlayers w ∖ {[player]}) w)
           end
      else createAndRegister ent player w
  end.

(** Runs a method on the session object stored for [player]; the object,
    as the method left it, is the one [games] holds afterwards.  What the
    method throws is answered with status 400 and the error's message. *)
Definition onGame (player : string) (game : Game) (m : M GameView) (w : World)
  : World * Response :=
  match m (w, game) with
  | ((w', game'), Ok view) =>
      (set_games (<[player := game']> (games w')) w', Json view)
  | ((w', game'), Throw e) =>
      (set_games (<[player := game']> (games w')) w', Failure 400 "" (Some e))
  end.

(** [POST /api/game/hit] and [POST /api/game/stand]. *)
Definition apiGameAction (m : M GameView) (player : string) (w : World)
  : World * Response :=
  match games w !! player with
  | None => (w, Failure 404 "Game not found" None)
  | Some game =>
      if completed game then (w, Failure 400 "Game is already completed" None)
      else onGame player game m w
  end.

Definition apiGameHit := apiGameAction hit.
Definition apiGameStand := apiGameAction stand.

(** [POST /api/game/reset] *)
Definition apiGameReset (ent : Entropy) (player : option string) (w : World)
  : World * Response :=
  match player with
  | None | Some "" => (w, Failure 400 "Player ID is required" None)
  | Some player =>
      if negb (validPublicKey player)
      then (w, Failure 400 "Invalid player ID format. Must be a valid Solana address." None)
      else
        let w1 := set_activePlayers (activePlayers w ∖ {[player]}) w in
        let w2 := set_games (delete player (games w1)) w1 in
        match newBlackjackGame ent player w2 with
        | (w', Ok game) =>
            (set_games (<[player := game]> (games w')) w', Json (getGameState game))
        | (w', Throw e) => (w', Failure 500 "Failed to reset game" (Some e))
        end
  end.

(** *** The other handlers *)

(** [GET /api/game/state/:playerId] *)
Definition apiGameState (player : string) (w : World) : Response :=
  if negb (validPublicKey player)
  then Failure 400 "Invalid player ID format. Must be a valid Solana address." None
  else match games w !! player with
       | None => Failure 404 "Game not found" None
       | Some game => Json (getGameState game)
       end.

(** [POST /api/game/bet].  [amount] is [req.body.amount]: [None] when it
    is not a number; amounts are integers here. *)
Definition apiGameBet (player : string) (amount : option Z) (w : World)
  : World * Response :=
  match games w !! player with
  | None => (w, Failure 404 "Game not found" None)
  | Some game =>
      match amount with
      | None => (w, Failure 400 "Invalid bet amount" None)
      | Some amount =>
          if amount <=? 0 then (w, Failure 400 "Invalid bet amount" None)
          else
            match placeBet amount (w, game) with
            | ((w', game'), BetPlaced view) =>
                (set_games (<[player := game']> (games w')) w', Json view)
            | ((w', game'), BetRefused message) =>
                (set_games (<[player := game']> (games w')) w',
                 Failure 400 message None)
            | ((w', game'), BetInternal e) =>
                (set_games (<[player := game']> (games w')) w',
                 Failure 400 "" (Some e))
            end
      end
  end.

(** The winner test of the force-win handler. *)
Definition forcedWin (playerScore dealerScore : Z) : bool :=
  (21 <? dealerScore) || ((playerScore <=? 21) && (dealerScore <? playerScore)).

(** [POST /api/game/test/force-win].  [production] is
    [process.env.NODE_ENV === 'production']; [playerCards] and
    [dealerCards] are the arrays of the request body, [None] when
    missing. *)
Definition apiForceWin (production : bool) (ent : Entropy) (player : option string)
           (playerCards dealerCards : option (list Card)) (w : World)
  : World * Response :=
  if production then (w, Failure 404 "Endpoint not found" None)
  else
    match player with
    | None | Some "" => (w, Failure 400 "Player ID is required" None)
    | Some player =>
        let '(w1, found) :=
          match games w !! player with
          | Some game => (w, Ok game)
          | None =>
              match newBlackjackGame ent player
                      (set_activePlayers (activePlayers w ∖ {[player]}) w) with
              | (w', Ok game) => (set_games (<[player := game]> (games w')) w', Ok game)
              | (w', Throw e) => (w', Throw e)
              end
          end in
        match found with
        | Throw e => (w1, Failure 500 "Failed to force win" (Some e))
        | Ok game =>
            let game1 := match playerCards with
                         | Some cards => set_playerHand cards game
                         | None => game
                         end in
            let game2 := match dealerCards with
                         | Some cards => set_dealerHand cards game1
                         | None => game1
                         end in
            let game3 := set_state GAME_ENDED game2 in
            let playerWins := forcedWin (calculateScore (playerHand game3))
                                        (calculateScore (dealerHand game3)) in
            let '((w2, game4), _) := markGameAsCompleted playerWins (w1, game3) in
            (set_games (<[player := game4]> (games w2)) w2, Json (getGameState game4))
        end
    end.

(** *** Notions used to state the properties of the server *)

(** The sessions of the game proper: built by the constructor, then
    acted on by [reset], [hit] and [stand] (whatever they return) and by
    the reward path, in any state of the stores.  The force-win route,
    which writes hands and state into a stored session and is closed in
    production, is not one of these operations; [turn] has it. *)
Inductive evolves : Game -> Prop :=
| ev_new ent player w w' g :
    newBlackjackGame ent player w = (w', Ok g) -> evolves g
| ev_reset ent w g s r :
    evolves g -> reset ent (w, g) = (s, r) -> evolves s.2
| ev_hit w g s r :
    evolves g -> hit (w, g) = (s, r) -> evolves s.2
| ev_stand w g s r :
    evolves g -> stand (w, g) = (s, r) -> evolves s.2
| ev_rewardPaid g :
    evolves g -> evolves (set_rewardPaid true g).

(** One turn of the event loop of a server whose force-win route is
    closed: a create, hit, stand or reset request is served, a suspended
    task runs to its end under some answer of the network, a cleanup job
    runs, or time passes.  Bets and the force-win route are in [turn]. *)
Inductive step : World -> World -> Prop :=
| step_create ent player entryFeePaid w :
    step w (apiGameCreate ent player entryFeePaid w).1
| step_hit player w :
    step w (apiGameHit player w).1
| step_stand player w :
    step w (apiGameStand player w).1
| step_reset ent player w :
    step w (apiGameReset ent player w).1
| step_task o t before after w :
    tasks w = before ++ t :: after ->
    step w (resumeTask o t (set_tasks (before ++ after) w))
| step_cleanupCompleted w :
    step w (cleanupOldCompletedGames w)
| step_cleanupPaid w :
    step w (cleanupOldPaidRewards w)
| step_clock t w :
    now w <= t -> step w (set_now t w).

(** One turn of the event loop with every route of the server open:
    a turn of [step], a bet, or a forced result. *)
Inductive turn : World -> World -> Prop :=
| turn_step w w' :
    step w w' -> turn w w'
| turn_bet player amount w :
    turn w (apiGameBet player amount w).1
| turn_forceWin production ent player playerCards dealerCards w :
    turn w (apiForceWin production ent player playerCards dealerCards w).1.

(** The states of the stores reached by turns of [step], started at
    time [t] with empty stores. *)
Definition reachable (w : World) : Prop :=
  exists t, rtc step (emptyWorld t) w.

(** Every session held in [games] is one of the game proper. *)
Definition registryEvolves (w : World) : Prop :=
  forall player g, games w !! player = Some g -> evolves g.

End WithPublicKey.

(** A method that leaves the [games] map as it found it. *)
Definition keepsGames {A} (m : M A) : Prop :=
  forall w g, games (m (w, g)).1.1 = games w.

(** The session [dealInitialCards] leaves when the cards on top of the
    deck are [p1], [p2], [d1], [d2] and the player's two do not make 21. *)
Definition dealt (p1 p2 d1 d2 : Card) (rest : list Card) (g : Game) : Game :=
  set_dealerHand [d1; hide d2] (set_playerHand [p1; p2] (set_deck rest g)).

(** What holds of every session of the game proper. *)
Record sessionInv (g : Game) : Prop := mkSessionInv {
  inv_completed : completed g = true <-> state g = GAME_ENDED;
  inv_deck : Forall visible (deck g);
  inv_player : Forall visible (playerHand g);
  inv_turn : state g = PLAYER_TURN ->
             (length (deck g) + length (playerHand g) = 310)%nat
             /\ calculateScore (playerHand g) < 21
             /\ length (dealerHand g) = 2%nat
}.

(** The events a run from [w] to [w'] added to the log. *)
Definition eventsOf (w w' : World) : list Event :=
  drop (length (trace w)) (trace w').

Definition isRpc (e : Event) : bool :=
  match e with
  | EvRpc _ => true
  | _ => false
  end.

Definition isTransfer (e : Event) : bool :=
  match e with
  | EvRpc (sendRawTransaction _) => true
  | _ => false
  end.

Definition isPendingInsert (key : string) (e : Event) : bool :=
  match e with
  | EvPaidSet k pending => String.eqb k key
  | _ => false
  end.

Definition isMarkProcessed (game : string) (e : Event) : bool :=
  match e with
  | EvCompletedSet k entry => String.eqb k game && processed entry
  | _ => false
  end.

(** The position of the first event of [tr] that satisfies [p]. *)
Fixpoint firstIndex (p : Event -> bool) (tr : list Event) : option nat :=
  match tr with
  | [] => None
  | e :: tr' => if p e then Some O else S <$> firstIndex p tr'
  end.

(** Both kinds of event occur in [tr], a [p] first. *)
Definition precedes (p q : Event -> bool) (tr : list Event) : Prop :=
  match firstIndex p tr, firstIndex q tr with
  | Some i, Some j => (i < j)%nat
  | _, _ => False
  end.

(** Two cards a client cannot tell apart: both hidden, or the same card. *)
Definition sameVisible (c1 c2 : Card) : Prop :=
  hidden c1 = hidden c2 /\ (hidden c1 = false -> c1 = c2).

(** Two sessions that differ at most in the rank and suit of hidden
    dealer cards and in the cards still in the deck. *)
Record holeEquivalent (g1 g2 : Game) : Prop := mkHoleEquivalent {
  he_playerId : playerId g1 = playerId g2;
  he_gameId : gameId g1 = gameId g2;
  he_completed : completed g1 = completed g2;
  he_playerHand : playerHand g1 = playerHand g2;
  he_dealerHand : Forall2 sameVisible (dealerHand g1) (dealerHand g2);
  he_state : state g1 = state g2;
  he_currentBet : currentBet g1 = currentBet g2;
  he_rewardPaid : rewardPaid g1 = rewardPaid g2;
  he_stateHistory : stateHistory g1 = stateHistory g2
}.

(** A reward task that wrote ['pending'] and has not heard from the
    network yet. *)
Definition awaiting (t : Task) : bool :=
  match t with
  | RewardTask _ _ _ SendAwaiting => true
  | _ => false
  end.

(** A write of ['pending'] into [paidRewards], for whatever key. *)
Definition isPending (e : Event) : bool :=
  match e with
  | EvPaidSet _ pending => true
  | _ => false
  end.

Definition count {A} (p : A -> bool) (l : list A) : Z :=
  Z.of_nat (length (List.filter p l)).

(** A method that leaves the measure [f] of the stores as it found it. *)
Definition keepsMeasure {A} (f : World -> Z) (m : M A) : Prop :=
  forall w g, f (m (w, g)).1.1 = f w.

(** A method that leaves no session waiting for a bet that did not wait
    for one before. *)
Definition keepsPlaying {A} (m : M A) : Prop :=
  forall w g, state g <> WAITING_FOR_BET -> state (m (w, g)).1.2 <> WAITING_FOR_BET.

(** No session stored in [games] waits for a bet. *)
Definition noneWaiting (w : World) : Prop :=
  forall player g, games w !! player = Some g -> state g <> WAITING_FOR_BET.

(** The ['pending'] writes that no transaction and no waiting task
    accounts for yet. *)
Definition slack (w : World) : Z :=
  count isPending (trace w) - count isTransfer (trace w) - count awaiting (tasks w).

End Server.

(** ** Sample data *)
Module Sample.
Import JsString Cards Server.

Definition base58 (c : ascii) : bool :=
  let n := nat_of_ascii c in
  ((Nat.leb 49 n && Nat.leb n 57)
   || (Nat.leb 65 n && Nat.leb n 90 && negb (Nat.eqb n 73) && negb (Nat.eqb n 79))
   || (Nat.leb 97 n && Nat.leb n 122 && negb (Nat.eqb n 108)))%bool.

(** A stand-in for [new PublicKey(s)]: base-58 text of 32 to 44 characters. *)
Definition base58Address (s : string) : bool :=
  (Nat.leb 32 (String.length s) && Nat.leb (String.length s) 44
   && forallb base58 (list_ascii_of_string s))%bool.

(** The default of [TREASURY_ACCOUNT], used as a player's address. *)
Definition player : string := "8VPZGxMMcyFykMPAApeyhsNwVtrgXZYpu28Rm2iLknbq".

(** 14 November 2023, in milliseconds. *)
Definition t0 : Z := 1700000000000.

(** Random draws that leave the deck in the order it was built
    ([pick i = i] swaps every card with itself): the player is dealt
    K and Q of spades, the dealer J and 10 of spades. *)
Definition plainDraws : Entropy :=
  mkEntropy (fun i => i) (fun i => (i, 7%nat)) (fun i => ((3 * i)%nat, 5%nat)).

(** Random draws that put the Ace of hearts and the King of spades on
    top ([pick i = 0]): the player is dealt a natural 21. *)
Definition naturalDraws : Entropy :=
  mkEntropy (fun _ => O) (fun _ => (O, O)) (fun _ => (O, O)).

(** The identifier of the session built at [t0] from [plainDraws]. *)
Definition game : string := generateSecureId t0 (resetIdDraw plainDraws).

(** The stores just after a won game wrote its entry. *)
Definition wonWorld : World :=
  completedSet game (mkCompleted player win t0 false) (emptyWorld t0).

(** The stores with a ['failed'] record for the key and nothing else. *)
Definition failedWorld : World :=
  paidSet (transactionKey player game) failed (emptyWorld t0).

(** Eight days after [t0], with a ['completed'] record of the payout of
    [game] and the entry of a game finished at [t0]. *)
Definition weekLaterWorld : World :=
  set_now (t0 + 8 * 24 * 60 * 60 * 1000)
    (paidSet (transactionKey player game) RewardStatus.completed
       (completedSet game (mkCompleted player win t0 true) (emptyWorld t0))).

(** The stores after [player] created a session from [plainDraws]. *)
Definition liveWorld : World :=
  (apiGameCreate base58Address plainDraws (Some player) true (emptyWorld t0)).1.

(** The session that request built: K and Q of spades against the J and
    the hidden 10 of spades. *)
Definition tableA : Game :=
  mkGame player game false (drop 4 (createDeck (shufflePick plainDraws)))
         [mkCard spades RK false; mkCard spades RQ false]
         [mkCard spades RJ false; mkCard spades R10 true]
         PLAYER_TURN ENTRY_FEE false [PLAYER_TURN].

(** The same session with the Ace of hearts as the hidden card. *)
Definition tableB : Game :=
  set_dealerHand [mkCard spades RJ false; mkCard hearts RA true] tableA.

(** The stores after [player] created a session from [naturalDraws]: the
    dealt 21 ended the game at once, ['pending'] is written and the
    reward task waits for the network. *)
Definition naturalWorld : World :=
  (apiGameCreate base58Address naturalDraws (Some player) true (emptyWorld t0)).1.

(** The identifier of that session. *)
Definition naturalGame : string := generateSecureId t0 (resetIdDraw naturalDraws).

(** [naturalWorld] once the network has accepted the transaction. *)
Definition settledWorld : World :=
  resumeTask (SendOk "sig")
    (RewardTask player naturalGame (mkCompleted player win t0 true) SendAwaiting)
    (set_tasks ([] ++ [ReleasePlayer player]) naturalWorld).


(** A won game of a player whose name is no address. *)
Definition strangerWorld : World :=
  completedSet game (mkCompleted "nobody" win t0 false) (emptyWorld t0).

(** [tableA] with a third card that takes the player above 21. *)
Definition bustTable : Game :=
  set_playerHand [mkCard spades RK false; mkCard spades RQ false;
                  mkCard hearts R9 false] tableA.

(** [tableA] with a dealer who holds 5 and a hidden 8 and must draw;
    the 9 of spades is on top of the deck. *)
Definition lowTable : Game :=
  set_dealerHand [mkCard spades R5 false; mkCard hearts R8 true] tableA.

End Sample.

(** * Properties *)

Import JsString Cards Server.

(** ** The score *)
Section Score.

Lemma rankValue_parseInt (r : Rank) :
  r <> RA -> r <> RK -> r <> RQ -> r <> RJ ->
  parseInt10 (rankString r) = Some (rankValue r).
Proof. destruct r; intros; try congruence; reflexivity. Qed.

Lemma softTotal_hardTotal (hand : list Card) :
  softTotal hand = hardTotal hand + 10 * Z.of_nat (acesIn hand).
Proof.
  induction hand as [|c hand IH]; [reflexivity|].
  cbn [softTotal hardTotal acesIn]. rewrite IH.
  destruct (hidden c); [lia|].
  destruct (rank c); cbn [hardValue rankValue];
    destruct (decide _); try congruence; lia.
Qed.

Lemma scoreStep_fold (hand : list Card) (score : Z) (aces : nat) :
  fold_left scoreStep hand (score, aces)
  = (score + softTotal hand, (aces + acesIn hand)%nat).
Proof.
  revert score aces.
  induction hand as [|c hand IH]; intros score aces; cbn [fold_left softTotal acesIn].
  - f_equal; lia.
  - unfold scoreStep at 2. destruct (hidden c) eqn:Hh.
    + rewrite IH. f_equal; lia.
    + destruct (rank c) eqn:Hr; cbn [fst snd]; rewrite IH;
        cbn [rankValue]; destruct (decide _); try congruence; f_equal; lia.
Qed.

Lemma calculateScore_unfold (hand : list Card) :
  calculateScore hand = softenAces (softTotal hand) (acesIn hand).
Proof.
  unfold calculateScore. rewrite scoreStep_fold. cbn [fst snd].
  f_equal.
Qed.

(** The loop stops after [k] turns: the first [k] totals were above 21,
    and the total it stops on is at most 21 unless the Aces ran out. *)
Lemma softenAces_spec (score : Z) (aces : nat) :
  exists k : nat,
    (k <= aces)%nat
    /\ softenAces score aces = score - 10 * Z.of_nat k
    /\ ((k < aces)%nat -> score - 10 * Z.of_nat k <= 21)
    /\ (forall j : nat, (j < k)%nat -> 21 < score - 10 * Z.of_nat j).
Proof.
  revert score. induction aces as [|a IH]; intros score.
  - exists O. cbn. split_and!; intros; lia.
  - cbn [softenAces]. destruct (Z.ltb_spec 21 score) as [Hgt|Hle].
    + destruct (IH (score - 10)) as (k & Hk & Heq & Hstop & Hrun).
      exists (S k). split_and!.
      * lia.
      * rewrite Heq. lia.
      * intros Hlt. specialize (Hstop ltac:(lia)). lia.
      * intros [|j] Hj; [lia|]. specialize (Hrun j ltac:(lia)). lia.
    + exists O. split_and!; intros; lia.
Qed.

Lemma hardTotal_nonneg (hand : list Card) : 0 <= hardTotal hand.
Proof.
  induction hand as [|c hand IH]; cbn [hardTotal]; [lia|].
  destruct (hidden c); [lia|]. destruct (rank c); cbn; lia.
Qed.

Lemma calculateScore_achievable (hand : list Card) :
  achievable hand (calculateScore hand).
Proof.
  rewrite calculateScore_unfold, softTotal_hardTotal.
  destruct (softenAces_spec (hardTotal hand + 10 * Z.of_nat (acesIn hand)) (acesIn hand))
    as (k & Hk & Heq & _ & _).
  exists (acesIn hand - k)%nat. split; [lia|]. rewrite Heq. lia.
Qed.

Lemma calculateScore_ge_hard (hand : list Card) :
  hardTotal hand <= calculateScore hand.
Proof.
  destruct (calculateScore_achievable hand) as (k & _ & ->). lia.
Qed.

Lemma calculateScore_within (hand : list Card) :
  hardTotal hand <= 21 ->
  calculateScore hand <= 21
  /\ forall t, achievable hand t -> t <= 21 -> t <= calculateScore hand.
Proof.
  intros Hhard. rewrite calculateScore_unfold, softTotal_hardTotal.
  destruct (softenAces_spec (hardTotal hand + 10 * Z.of_nat (acesIn hand)) (acesIn hand))
    as (k & Hk & Heq & Hstop & Hrun).
  rewrite Heq. split.
  - destruct (decide (k < acesIn hand)%nat) as [Hlt|Hge]; [auto|].
    assert (k = acesIn hand) by lia. subst k. lia.
  - intros t (j & Hj & ->) Ht.
    destruct (decide (acesIn hand - j < k)%nat) as [Hlt|Hge]; [|lia].
    specialize (Hrun _ Hlt). lia.
Qed.

Lemma calculateScore_bust (hand : list Card) :
  21 < hardTotal hand ->
  calculateScore hand = hardTotal hand
  /\ forall t, achievable hand t -> calculateScore hand <= t.
Proof.
  intros Hhard. rewrite calculateScore_unfold, softTotal_hardTotal.
  destruct (softenAces_spec (hardTotal hand + 10 * Z.of_nat (acesIn hand)) (acesIn hand))
    as (k & Hk & Heq & Hstop & Hrun).
  rewrite Heq.
  assert (k = acesIn hand) as ->.
  { destruct (decide (k < acesIn hand)%nat) as [Hlt|Hge]; [|lia].
    specialize (Hstop Hlt). lia. }
  split; [lia|]. intros t (j & Hj & ->). lia.
Qed.

End Score.

(** C7 (amended).  [calculateScore] adds the rank values of the cards that
    are not hidden (Ace 11, K/Q/J 10, numerals their number), then takes
    10 off per Ace while the total is above 21 and an Ace counted as 11
    is left.  The result is a total the hand can be counted as; it is the
    LARGEST such total that is at most 21 when there is one, and the
    smallest total of all (every Ace as 1) when there is none. *)
Theorem calculateScore_best_total (hand : list Card) :
  calculateScore hand = softenAces (softTotal hand) (acesIn hand)
  /\ achievable hand (calculateScore hand)
  /\ ((exists t, achievable hand t /\ t <= 21) ->
      calculateScore hand <= 21
      /\ forall t, achievable hand t -> t <= 21 -> t <= calculateScore hand)
  /\ (~ (exists t, achievable hand t /\ t <= 21) ->
      21 < calculateScore hand
      /\ forall t, achievable hand t -> calculateScore hand <= t).
Proof.
  split_and!.
  - apply calculateScore_unfold.
  - apply calculateScore_achievable.
  - intros (t & (k & _ & ->) & Ht).
    apply calculateScore_within. lia.
  - intros Hnone.
    assert (21 < hardTotal hand) as Hbust.
    { destruct (Z.lt_ge_cases 21 (hardTotal hand)) as [|Hle]; [done|].
      exfalso. apply Hnone. exists (hardTotal hand). split; [|lia].
      exists O. split; lia. }
    destruct (calculateScore_bust hand Hbust) as [Heq Hmin].
    split; [lia | exact Hmin].
Qed.

(** C7 as written fails: an Ace and a five can be counted as 6, which is
    at most 21 and below the score 16. *)
Lemma calculateScore_not_minimal_total :
  ~ (forall t,
       achievable [mkCard spades RA false; mkCard hearts R5 false] t ->
       t <= 21 ->
       calculateScore [mkCard spades RA false; mkCard hearts R5 false] <= t).
Proof.
  intros Hmin. specialize (Hmin 6).
  assert (calculateScore [mkCard spades RA false; mkCard hearts R5 false] <= 6) as Hle.
  { apply Hmin; [|lia]. exists O. split; [cbn; lia | reflexivity]. }
  vm_compute in Hle. apply Hle. reflexivity.
Qed.

(** ** The reward path *)
Section Reward.
Variable validPublicKey : string -> bool.

Lemma eventsOf_app (w w' : World) (evs : list Event) :
  trace w' = trace w ++ evs -> eventsOf w w' = evs.
Proof. intros H. unfold eventsOf. rewrite H. apply drop_app_length. Qed.

Lemma eventsOf_refl (w : World) : eventsOf w w = [].
Proof. apply eventsOf_app. by rewrite app_nil_r. Qed.

Lemma markRewardPaid_ledgers player game w :
  trace (markRewardPaid player game w) = trace w
  /\ completedGames (markRewardPaid player game w) = completedGames w
  /\ paidRewards (markRewardPaid player game w) = paidRewards w
  /\ tasks (markRewardPaid player game w) = tasks w.
Proof.
  unfold markRewardPaid. destruct (games w !! player) as [g|]; [|done].
  destruct (String.eqb _ _); done.
Qed.

Lemma processReward_absent o player game w :
  completedGames w !! game = None ->
  processReward validPublicKey o player game w = w.
Proof. intros H. unfold processReward, processReward_begin. by rewrite H. Qed.

Lemma processReward_processed o player game w e :
  completedGames w !! game = Some e -> processed e = true ->
  processReward validPublicKey o player game w = w.
Proof. intros H Hp. unfold processReward, processReward_begin. by rewrite H, Hp. Qed.

Lemma processReward_invalid o player game w e :
  completedGames w !! game = Some e -> processed e = false ->
  validPublicKey player = false ->
  processReward validPublicKey o player game w
  = completedSet game (set_processed false (set_processed true e))
      (completedSet game (set_processed true e) w).
Proof.
  intros H Hp Hv. unfold processReward, processReward_begin.
  rewrite H, Hp. unfold sendCardsReward_begin. by rewrite Hv.
Qed.

Lemma processReward_skipped o player game w e s :
  completedGames w !! game = Some e -> processed e = false ->
  validPublicKey player = true ->
  paidRewards w !! transactionKey player game = Some s ->
  processReward validPublicKey o player game w
  = markRewardPaid player game (completedSet game (set_processed true e) w).
Proof.
  intros H Hp Hv Hk. unfold processReward, processReward_begin.
  rewrite H, Hp. unfold sendCardsReward_begin. rewrite Hv. cbn [negb paidRewards completedSet].
  by rewrite Hk.
Qed.

Lemma processReward_fresh o player game w e :
  completedGames w !! game = Some e -> processed e = false ->
  validPublicKey player = true ->
  paidRewards w !! transactionKey player game = None ->
  let key := transactionKey player game in
  let w1 := log (EvRpc <$> rpcCalls player o)
              (paidSet key pending (completedSet game (set_processed true e) w)) in
  processReward validPublicKey o player game w
  = match rpcResult player o with
    | Ok _ => markRewardPaid player game (paidSet key RewardStatus.completed w1)
    | Throw _ =>
        completedSet game (set_processed false (set_processed true e))
                     (paidSet key failed w1)
    end.
Proof.
  intros H Hp Hv Hk. unfold processReward, processReward_begin.
  rewrite H, Hp. unfold sendCardsReward_begin. rewrite Hv. cbn [negb paidRewards completedSet].
  rewrite Hk. cbn [resumeTask]. unfold processReward_resume.
  cbn [sendCardsReward_finish]. unfold sendCardsReward_resume.
  by destruct (rpcResult player o).
Qed.

(** One run of [processReward] only appends to the log, and at most one
    [sendRawTransaction]. *)
Lemma processReward_trace o player game w :
  exists evs,
    trace (processReward validPublicKey o player game w) = trace w ++ evs
    /\ (length (List.filter isTransfer evs) <= 1)%nat.
Proof.
  destruct (completedGames w !! game) as [e|] eqn:He.
  2:{ rewrite processReward_absent by done. exists []. split; [by rewrite app_nil_r | cbn; lia]. }
  destruct (processed e) eqn:Hp.
  { rewrite (processReward_processed _ _ _ _ e) by done.
    exists []. split; [by rewrite app_nil_r | cbn; lia]. }
  destruct (validPublicKey player) eqn:Hv.
  2:{ rewrite (processReward_invalid o _ _ _ e) by done.
      eexists. split; [cbn; rewrite <- !app_assoc; reflexivity|]. cbn. lia. }
  destruct (paidRewards w !! transactionKey player game) as [s|] eqn:Hk.
  { rewrite (processReward_skipped o _ _ _ e s) by done.
    match goal with |- context [markRewardPaid ?p ?g ?w] =>
      destruct (markRewardPaid_ledgers p g w) as (-> & _) end.
    eexists. split; [cbn; reflexivity|]. cbn. lia. }
  rewrite (processReward_fresh o _ _ _ e) by done.
  destruct o; cbn [rpcResult rpcCalls];
    try match goal with |- context [markRewardPaid ?p ?g ?w] =>
      destruct (markRewardPaid_ledgers p g w) as (-> & _) end;
    (eexists; split; [cbn; rewrite <- !app_assoc; reflexivity|]; cbn; lia).
Qed.

Lemma processReward_second_no_rpc player game o1 o2 w :
  List.filter isRpc (eventsOf (processReward validPublicKey o1 player game w)
                  (processReward validPublicKey o2 player game
                     (processReward validPublicKey o1 player game w))) = [].
Proof.
  destruct (completedGames w !! game) as [e|] eqn:He.
  2:{ rewrite !processReward_absent by done. by rewrite eventsOf_refl. }
  destruct (processed e) eqn:Hp.
  { rewrite !(processReward_processed _ _ _ _ e) by done. by rewrite eventsOf_refl. }
  destruct (validPublicKey player) eqn:Hv.
  2:{ rewrite (processReward_invalid o1 _ _ _ e) by done.
      erewrite (processReward_invalid o2); [| cbn; apply lookup_insert_eq | done | done].
      erewrite eventsOf_app; [|cbn; rewrite <- !app_assoc; reflexivity]. done. }
  destruct (paidRewards w !! transactionKey player game) as [s|] eqn:Hk.
  { rewrite (processReward_skipped o1 _ _ _ e s) by done.
    erewrite (processReward_processed o2); [by rewrite eventsOf_refl | |].
    - destruct (markRewardPaid_ledgers player game (completedSet game (set_processed true e) w))
        as (_ & -> & _). cbn. apply lookup_insert_eq.
    - done. }
  rewrite (processReward_fresh o1 _ _ _ e) by done.
  destruct (rpcResult player o1) as [sig|err].
  - erewrite (processReward_processed o2); [by rewrite eventsOf_refl | |].
    + match goal with |- completedGames (markRewardPaid ?p ?g ?w) !! _ = _ =>
        destruct (markRewardPaid_ledgers p g w) as (_ & -> & _) end.
      cbn. apply lookup_insert_eq.
    + done.
  - erewrite (processReward_skipped o2); [| cbn; apply lookup_insert_eq | done | done | cbn; apply lookup_insert_eq].
    erewrite eventsOf_app.
    2:{ match goal with |- trace (markRewardPaid ?p ?g ?w) = _ =>
        destruct (markRewardPaid_ledgers p g w) as (-> & _) end.
        cbn. reflexivity. }
    done.
Qed.

Lemma processReward_begin_twice player game w :
  processReward_begin validPublicKey player game
    (processReward_begin validPublicKey player game w).1
  = ((processReward_begin validPublicKey player game w).1, None).
Proof.
  unfold processReward_begin at 2 3.
  destruct (completedGames w !! game) as [e|] eqn:He.
  2:{ cbn. unfold processReward_begin. by rewrite He. }
  destruct (processed e) eqn:Hp.
  { cbn. unfold processReward_begin. by rewrite He, Hp. }
  destruct (sendCardsReward_begin validPublicKey player game
              (completedSet game (set_processed true e) w)) as [w2 stage] eqn:Hs.
  cbn [fst]. unfold processReward_begin.
  assert (completedGames w2 !! game = Some (set_processed true e)) as ->; [|done].
  revert Hs. unfold sendCardsReward_begin.
  destruct (negb _); [intros [= <- _]; cbn; apply lookup_insert_eq|].
  destruct (paidRewards _ !! _); intros [= <- _]; cbn; apply lookup_insert_eq.
Qed.

(** C1.  When [paidRewards] already holds the key of (player, game),
    whatever the status, [sendCardsReward] returns without touching the
    stores or the network, and so does the whole of [processReward] as
    far as the network and the record go.  Hence of two invocations of
    the payout path for one key the second makes no network call, the
    two together send at most one transaction, and a second invocation
    that starts while the first is suspended returns at once. *)
Theorem payout_skips_existing_record
        (player game : string) (s : RewardStatus) (o : ExternalOutcome) (w : World) :
  paidRewards w !! transactionKey player game = Some s ->
  (sendCardsReward validPublicKey o player game w = (w, Ok None)
   \/ sendCardsReward validPublicKey o player game w = (w, Throw InvalidSolanaAddress))
  /\ List.filter isRpc (eventsOf w (processReward validPublicKey o player game w)) = []
  /\ paidRewards (processReward validPublicKey o player game w) = paidRewards w
  /\ (forall o1 o2 w0,
        let w1 := processReward validPublicKey o1 player game w0 in
        let w2 := processReward validPublicKey o2 player game w1 in
        List.filter isRpc (eventsOf w1 w2) = []
        /\ (length (List.filter isTransfer (eventsOf w0 w2)) <= 1)%nat)
  /\ (forall w0,
        let w1 := (processReward_begin validPublicKey player game w0).1 in
        processReward_begin validPublicKey player game w1 = (w1, None)).
Proof.
  intros Hk. split_and!.
  - unfold sendCardsReward, sendCardsReward_begin.
    destruct (validPublicKey player); cbn; [left; by rewrite Hk | by right].
  - destruct (completedGames w !! game) as [e|] eqn:He.
    2:{ rewrite processReward_absent by done. by rewrite eventsOf_refl. }
    destruct (processed e) eqn:Hp.
    { rewrite (processReward_processed _ _ _ _ e) by done. by rewrite eventsOf_refl. }
    destruct (validPublicKey player) eqn:Hv.
    + rewrite (processReward_skipped o _ _ _ e s) by done.
      erewrite eventsOf_app.
      2:{ match goal with |- context [markRewardPaid ?p ?g ?w] =>
            destruct (markRewardPaid_ledgers p g w) as (-> & _) end.
          reflexivity. }
      done.
    + rewrite (processReward_invalid o _ _ _ e) by done.
      erewrite eventsOf_app; [|cbn; rewrite <- !app_assoc; reflexivity]. done.
  - destruct (completedGames w !! game) as [e|] eqn:He.
    2:{ by rewrite processReward_absent. }
    destruct (processed e) eqn:Hp.
    { by rewrite (processReward_processed _ _ _ _ e). }
    destruct (validPublicKey player) eqn:Hv.
    + rewrite (processReward_skipped o _ _ _ e s) by done.
      match goal with |- context [markRewardPaid ?p ?g ?w] =>
        destruct (markRewardPaid_ledgers p g w) as (_ & _ & -> & _) end.
      reflexivity.
    + by rewrite (processReward_invalid o _ _ _ e).
  - intros o1 o2 w0 w1 w2. subst w1 w2.
    pose proof (processReward_second_no_rpc player game o1 o2 w0) as Hsecond.
    split; [exact Hsecond|].
    destruct (processReward_trace o1 player game w0) as (evs1 & Ht1 & Hn1).
    destruct (processReward_trace o2 player game
                (processReward validPublicKey o1 player game w0))
      as (evs2 & Ht2 & _).
    rewrite (eventsOf_app _ _ _ Ht2) in Hsecond.
    erewrite eventsOf_app; [|rewrite Ht2, Ht1, <- app_assoc; reflexivity].
    rewrite List.filter_app, length_app.
    assert (List.filter isTransfer evs2 = []) as ->; [|cbn; lia].
    clear -Hsecond. induction evs2 as [|ev evs2 IH]; [done|].
    destruct ev as [| |[]]; cbn in *; try done; auto.
  - intros w0 w1. subst w1. apply processReward_begin_twice.
Qed.


(** C3 (amended).  On the first payout for a won game the writes come in
    this order: [processed = true] on the entry, then the ['pending']
    record, then the network calls, then the final status.  So the entry
    is marked processed BEFORE the record is inserted, and the record is
    inserted before the transaction is sent, whenever one is sent. *)
Theorem payout_marks_processed_then_pending
        (player game : string) (e : CompletedEntry) (o : ExternalOutcome) (w : World) :
  completedGames w !! game = Some e ->
  processed e = false ->
  validPublicKey player = true ->
  paidRewards w !! transactionKey player game = None ->
  let key := transactionKey player game in
  let evs := eventsOf w (processReward validPublicKey o player game w) in
  (exists rest,
      evs = [EvCompletedSet game (set_processed true e); EvPaidSet key pending]
              ++ (EvRpc <$> rpcCalls player o) ++ rest)
  /\ precedes (isMarkProcessed game) (isPendingInsert key) evs
  /\ (In (sendRawTransaction player) (rpcCalls player o) ->
      precedes (isPendingInsert key) isTransfer evs
      /\ precedes (isMarkProcessed game) isTransfer evs).
Proof.
  intros He Hp Hv Hk key evs.
  assert (exists rest,
      evs = [EvCompletedSet game (set_processed true e); EvPaidSet key pending]
              ++ (EvRpc <$> rpcCalls player o) ++ rest) as Hevs.
  { subst evs. rewrite (processReward_fresh o _ _ _ e) by done.
    destruct (rpcResult player o).
    - match goal with |- context [markRewardPaid ?p ?g ?w] =>
        destruct (markRewardPaid_ledgers p g w) as (Htr & _) end.
      eexists. apply eventsOf_app. rewrite Htr. cbn.
      rewrite <- !app_assoc. reflexivity.
    - eexists. apply eventsOf_app. cbn. rewrite <- !app_assoc. reflexivity. }
  split; [exact Hevs|]. destruct Hevs as (rest & ->).
  assert (String.eqb game game = true) as Hgame by apply String.eqb_refl.
  assert (String.eqb key key = true) as Hkey by apply String.eqb_refl.
  split.
  - unfold precedes. cbn. rewrite Hgame, Hkey. cbn. lia.
  - intros Hin. unfold precedes.
    destruct o; cbn in Hin; try (exfalso; intuition discriminate);
      cbn; rewrite Hgame, Hkey; cbn; lia.
Qed.

End Reward.

Lemma payout_skips_existing_record_witness :
  paidRewards Sample.failedWorld !! transactionKey Sample.player Sample.game
  = Some failed
  /\ List.filter isRpc
       (eventsOf Sample.failedWorld
          (processReward Sample.base58Address (SendOk "sig") Sample.player
             Sample.game Sample.failedWorld)) = [].
Proof.
  assert (paidRewards Sample.failedWorld !! transactionKey Sample.player Sample.game
          = Some failed) as Hk by (vm_compute; reflexivity).
  split; [exact Hk|].
  exact (proj1 (proj2 (payout_skips_existing_record Sample.base58Address
                         Sample.player Sample.game failed (SendOk "sig")
                         Sample.failedWorld Hk))).
Defined.


Lemma payout_marks_processed_then_pending_witness :
  precedes (isMarkProcessed Sample.game)
           (isPendingInsert (transactionKey Sample.player Sample.game))
           (eventsOf Sample.wonWorld
              (processReward Sample.base58Address (SendOk "sig") Sample.player
                 Sample.game Sample.wonWorld)).
Proof.
  refine (proj1 (proj2 (payout_marks_processed_then_pending Sample.base58Address
                   Sample.player Sample.game
                   (mkCompleted Sample.player win Sample.t0 false) (SendOk "sig")
                   Sample.wonWorld _ _ _ _))); vm_compute; reflexivity.
Defined.

(** C3 as written fails: in the first payout of a won game the ['pending']
    record is not inserted before the entry is marked processed. *)
Lemma pending_insert_not_before_processed :
  ~ (precedes (isPendingInsert (transactionKey Sample.player Sample.game))
              (isMarkProcessed Sample.game)
              (eventsOf Sample.wonWorld
                 (processReward Sample.base58Address (SendOk "sig") Sample.player
                    Sample.game Sample.wonWorld))
     /\ precedes (isMarkProcessed Sample.game) isTransfer
                 (eventsOf Sample.wonWorld
                    (processReward Sample.base58Address (SendOk "sig") Sample.player
                       Sample.game Sample.wonWorld))).
Proof. intros [Hfirst _]. vm_compute in Hfirst. lia. Qed.

(** ** The cleanup jobs *)
Section Sweep.

Context {V : Type}.
Variable expired : string -> V -> bool.
Variable f : gmap string V -> string * V -> gmap string V.
Hypothesis f_def : forall acc kv,
  f acc kv = if expired kv.1 kv.2 then delete kv.1 acc else acc.

Lemma sweep_absent (l : list (string * V)) (m : gmap string V) (k : string) :
  m !! k = None -> foldl f m l !! k = None.
Proof.
  revert m. induction l as [|kv l IH]; intros m Hm; [done|].
  cbn [foldl]. apply IH. rewrite f_def.
  destruct (expired kv.1 kv.2); [|done].
  destruct (decide (kv.1 = k)) as [->|Hne];
    [apply lookup_delete_eq | by rewrite lookup_delete_ne].
Qed.

Lemma sweep_removed (l : list (string * V)) (m : gmap string V) (k : string) (v : V) :
  (k, v) ∈ l -> expired k v = true -> foldl f m l !! k = None.
Proof.
  revert m. induction l as [|kv l IH]; intros m Hin Hexp.
  - by apply elem_of_nil in Hin.
  - apply elem_of_cons in Hin as [<-|Hin]; [|by apply IH].
    cbn [foldl]. apply sweep_absent. rewrite f_def. cbn [fst snd].
    rewrite Hexp. apply lookup_delete_eq.
Qed.

Lemma sweep_kept (l : list (string * V)) (m : gmap string V) (k : string) :
  (forall v, (k, v) ∈ l -> expired k v = false) ->
  foldl f m l !! k = m !! k.
Proof.
  revert m. induction l as [|kv l IH]; intros m Hall; [done|].
  cbn [foldl]. rewrite IH.
  - rewrite f_def. destruct (expired kv.1 kv.2) eqn:Hexp; [|done].
    destruct (decide (kv.1 = k)) as [<-|Hne]; [|by rewrite lookup_delete_ne].
    rewrite Hall in Hexp; [done|]. destruct kv. apply elem_of_cons. by left.
  - intros v Hin. apply Hall. apply elem_of_cons. by right.
Qed.

(** Deleting while iterating visits every entry once: what is left is
    the entries that are not expired. *)
Lemma sweep_lookup (m : gmap string V) (k : string) :
  foldl f m (map_to_list m) !! k
  = match m !! k with
    | Some v => if expired k v then None else Some v
    | None => None
    end.
Proof.
  destruct (m !! k) as [v|] eqn:Hk.
  - destruct (expired k v) eqn:Hexp.
    + apply (sweep_removed _ _ _ v); [by apply elem_of_map_to_list | done].
    + rewrite sweep_kept; [done|].
      intros v' Hin. apply elem_of_map_to_list in Hin.
      rewrite Hk in Hin. by injection Hin as <-.
  - by apply sweep_absent.
Qed.

End Sweep.

(** A run of the first job removes an entry exactly when its
    [timestamp] is more than 24 hours before [Date.now()]. *)
Lemma cleanupOldCompletedGames_lookup (w : World) (k : string) :
  completedGames (cleanupOldCompletedGames w) !! k
  = match completedGames w !! k with
    | Some e => if timestamp e <? now w - 24 * 60 * 60 * 1000 then None else Some e
    | None => None
    end.
Proof.
  unfold cleanupOldCompletedGames. cbn [completedGames set_completedGames].
  apply (sweep_lookup (fun _ e => timestamp e <? now w - 24 * 60 * 60 * 1000)).
  reflexivity.
Qed.

(** A run of the second job removes a record exactly when the text
    between the first two dashes of its key, read as a DECIMAL numeral,
    is a number more than 7 days before [Date.now()]. *)
Lemma cleanupOldPaidRewards_lookup (w : World) (key : string) :
  paidRewards (cleanupOldPaidRewards w) !! key
  = match paidRewards w !! key with
    | Some s =>
        if paidKeyExpired (now w - 7 * 24 * 60 * 60 * 1000) key then None else Some s
    | None => None
    end.
Proof.
  unfold cleanupOldPaidRewards. cbn [paidRewards set_paidRewards].
  apply (sweep_lookup (fun key _ => paidKeyExpired (now w - 7 * 24 * 60 * 60 * 1000) key)).
  reflexivity.
Qed.

(** C4 (the code misses it).  The record of a payout for a session
    created at [t0] is still there after a run of the paid-rewards job
    eight days later, and after a run at any later time: the session
    identifier holds its creation time in base 36 (here [loyw3v28]) and
    the job reads it with [parseInt(_, 10)], which gives [NaN].  The
    entry of the same age in [completedGames] is removed by its job. *)
Theorem cleanupOldPaidRewards_keeps_old_record :
  Sample.t0 < now Sample.weekLaterWorld - 7 * 24 * 60 * 60 * 1000
  /\ paidRewards Sample.weekLaterWorld
       !! transactionKey Sample.player Sample.game = Some RewardStatus.completed
  /\ paidRewards (cleanupOldPaidRewards Sample.weekLaterWorld)
       !! transactionKey Sample.player Sample.game = Some RewardStatus.completed
  /\ (forall w,
        paidRewards (cleanupOldPaidRewards w)
          !! transactionKey Sample.player Sample.game
        = paidRewards w !! transactionKey Sample.player Sample.game)
  /\ completedGames (cleanupOldCompletedGames Sample.weekLaterWorld)
       !! Sample.game = None.
Proof.
  assert (forall w,
        paidRewards (cleanupOldPaidRewards w)
          !! transactionKey Sample.player Sample.game
        = paidRewards w !! transactionKey Sample.player Sample.game) as Hkept.
  { intros w. rewrite cleanupOldPaidRewards_lookup.
    assert (forall cutoff,
              paidKeyExpired cutoff (transactionKey Sample.player Sample.game) = false)
      as -> by (intros cutoff; vm_compute; reflexivity).
    by destruct (paidRewards w !! _). }
  split_and!.
  - vm_compute. reflexivity.
  - vm_compute. reflexivity.
  - rewrite Hkept. vm_compute. reflexivity.
  - exact Hkept.
  - rewrite cleanupOldCompletedGames_lookup. vm_compute. reflexivity.
Qed.

(** ** The registry *)
Section Registry.

Variable validPublicKey : string -> bool.

(** C9 (amended).  When [player] is marked active and [games] holds a
    session for it, the constructor throws the already-active error and
    changes nothing, and a create request changes nothing either: no
    second session is made.  With the fee paid the request SUCCEEDS: it
    is answered with the view of the session that exists. *)
Theorem create_with_live_session_returns_it
        (ent : Entropy) (player : string) (fee : bool) (game : Game) (w : World) :
  validPublicKey player = true ->
  player <> "" ->
  player ∈ activePlayers w ->
  games w !! player = Some game ->
  newBlackjackGame validPublicKey ent player w = (w, Throw ActiveGameInProgress)
  /\ apiGameCreate validPublicKey ent (Some player) true w
     = (w, Json (getGameState game))
  /\ (apiGameCreate validPublicKey ent (Some player) fee w).1 = w.
Proof.
  intros Hv Hne Hactive Hgame.
  unfold newBlackjackGame, apiGameCreate.
  destruct player as [|c rest]; [done|].
  rewrite Hv, (bool_decide_eq_true_2 _ Hactive), Hgame. cbn [negb].
  split_and!; [done | done |]. by destruct fee.
Qed.

End Registry.

Lemma create_with_live_session_returns_it_witness :
  exists game,
    games Sample.liveWorld !! Sample.player = Some game
    /\ apiGameCreate Sample.base58Address Sample.naturalDraws (Some Sample.player)
                     true Sample.liveWorld
       = (Sample.liveWorld, Json (getGameState game)).
Proof.
  destruct (games Sample.liveWorld !! Sample.player) as [game|] eqn:Hgame;
    [|vm_compute in Hgame; discriminate].
  exists game. split; [reflexivity|].
  refine (proj1 (proj2 (create_with_live_session_returns_it Sample.base58Address
            Sample.naturalDraws Sample.player true game Sample.liveWorld _ _ _ Hgame))).
  - vm_compute. reflexivity.
  - discriminate.
  - apply (bool_decide_unpack _). vm_compute. exact I.
Defined.

(** C9 as written fails: with a live session registered for the player
    (marked active, held in [games], still in the player's turn), a
    create request is not answered with an error. *)
Lemma create_with_live_session_does_not_fail :
  Sample.player ∈ activePlayers Sample.liveWorld
  /\ state <$> games Sample.liveWorld !! Sample.player = Some PLAYER_TURN
  /\ ~ exists status error details,
         (apiGameCreate Sample.base58Address Sample.naturalDraws
                        (Some Sample.player) true Sample.liveWorld).2
         = Failure status error details.
Proof.
  split_and!.
  - apply (bool_decide_unpack _). vm_compute. exact I.
  - vm_compute. reflexivity.
  - intros (status & error & details & Hresp). vm_compute in Hresp. discriminate.
Qed.

(** ** The deck and the score, further *)
Section Deck.

Lemma insert_Permutation (l : list Card) (i : nat) (x y : Card) :
  l !! i = Some x -> <[i:=y]> l ≡ₚ y :: delete i l.
Proof.
  intros Hi. rewrite insert_take_drop by (by eapply lookup_lt_Some).
  by rewrite <- Permutation_middle, delete_take_drop.
Qed.

Lemma swap_Permutation (deck : list Card) (i j : nat) : swap deck i j ≡ₚ deck.
Proof.
  unfold swap.
  destruct (deck !! i) as [a|] eqn:Ha; [|done].
  destruct (deck !! j) as [b|] eqn:Hb; [|done].
  assert (<[i:=b]> deck !! j = Some b) as Hj.
  { destruct (decide (i = j)) as [->|Hne].
    - apply list_lookup_insert_eq. by eapply lookup_lt_Some.
    - by rewrite list_lookup_insert_ne. }
  pose proof (insert_Permutation deck i a b Ha) as H1.
  pose proof (delete_Permutation deck i a Ha) as H2.
  pose proof (insert_Permutation _ j b a Hj) as H3.
  pose proof (delete_Permutation _ j b Hj) as H4.
  etransitivity; [exact H3|]. etransitivity; [|symmetry; exact H2].
  f_equiv. apply (inj (b ::.)).
  etransitivity; [symmetry; exact H4 | exact H1].
Qed.

Lemma shuffleFrom_Permutation (pick : nat -> nat) (i : nat) (deck : list Card) :
  shuffleFrom pick i deck ≡ₚ deck.
Proof.
  revert deck. induction i as [|i IH]; intros deck; [done|].
  cbn [shuffleFrom]. by rewrite IH, swap_Permutation.
Qed.

(** X1.  Whatever the random draws, [createDeck] returns the 312 cards
    of six packs, each card as often as the loops pushed it, none
    hidden: the shuffle only reorders. *)
Theorem createDeck_is_six_packs (pick : nat -> nat) :
  createDeck pick ≡ₚ orderedDeck
  /\ length (createDeck pick) = 312%nat
  /\ Forall visible (createDeck pick)
  /\ forall s r, count_occ Card_eq_dec (createDeck pick) (mkCard s r false) = 6%nat.
Proof.
  assert (createDeck pick ≡ₚ orderedDeck) as Hperm.
  { unfold createDeck. rewrite <- Permutation_rev. apply shuffleFrom_Permutation. }
  split; [exact Hperm|]. split.
  { rewrite Hperm. reflexivity. }
  split.
  { rewrite Hperm. apply Forall_forall. intros card Hin.
    apply list_elem_of_In in Hin. unfold orderedDeck in Hin.
    apply in_flat_map in Hin as (_ & _ & Hin).
    apply in_flat_map in Hin as (s & _ & Hin).
    apply in_map_iff in Hin as (r & <- & _). reflexivity. }
  intros s r. rewrite (Permutation_count_occ Card_eq_dec) in Hperm.
  rewrite Hperm. destruct s, r; vm_compute; reflexivity.
Qed.

Lemma softTotal_Permutation (h1 h2 : list Card) :
  h1 ≡ₚ h2 -> softTotal h1 = softTotal h2.
Proof. induction 1; cbn [softTotal]; lia. Qed.

Lemma acesIn_Permutation (h1 h2 : list Card) :
  h1 ≡ₚ h2 -> acesIn h1 = acesIn h2.
Proof. induction 1; cbn [acesIn]; lia. Qed.

Lemma softTotal_shown (hand : list Card) :
  softTotal (filter (fun card => hidden card = false) hand) = softTotal hand.
Proof.
  induction hand as [|c hand IH]; [done|]. rewrite filter_cons.
  destruct (decide (hidden c = false)) as [Hc|Hc]; cbn [softTotal]; rewrite IH.
  - done.
  - destruct (hidden c); [lia | done].
Qed.

Lemma acesIn_shown (hand : list Card) :
  acesIn (filter (fun card => hidden card = false) hand) = acesIn hand.
Proof.
  induction hand as [|c hand IH]; [done|]. rewrite filter_cons.
  destruct (decide (hidden c = false)) as [Hc|Hc]; cbn [acesIn]; rewrite IH.
  - done.
  - destruct (hidden c); [lia | done].
Qed.

(** X2.  The score of a hand does not depend on the order of its cards,
    and hidden cards count for nothing: the score is that of the cards
    that are not hidden. *)
Theorem calculateScore_order_and_hidden (h1 h2 : list Card) :
  h1 ≡ₚ h2 ->
  calculateScore h1 = calculateScore h2
  /\ calculateScore (filter (fun card => hidden card = false) h1) = calculateScore h1.
Proof.
  intros Hperm. rewrite !calculateScore_unfold. split.
  - by rewrite (softTotal_Permutation _ _ Hperm), (acesIn_Permutation _ _ Hperm).
  - by rewrite softTotal_shown, acesIn_shown.
Qed.

(** X3.  The score is never negative and never below the total with
    every Ace as 1; one more card on a hand that scores at most 21 gives
    a score of at most 31. *)
Theorem calculateScore_bounds (hand : list Card) (card : Card) :
  calculateScore hand <= 21 ->
  0 <= hardTotal hand <= calculateScore hand
  /\ calculateScore (hand ++ [card]) <= 31.
Proof.
  intros Hfit. pose proof (hardTotal_nonneg hand).
  pose proof (calculateScore_ge_hard hand) as Hge. split; [lia|].
  assert (hardTotal (hand ++ [card]) <= hardTotal hand + 10) as Hhard.
  { assert (forall h1 h2, hardTotal (h1 ++ h2) = hardTotal h1 + hardTotal h2) as ->.
    { intros h1 h2. induction h1 as [|c h1 IH]; cbn [app hardTotal]; lia. }
    cbn [hardTotal]. destruct (hidden card); [lia|].
    destruct (rank card); cbn; lia. }
  destruct (Z.le_gt_cases (hardTotal (hand ++ [card])) 21) as [Hle|Hgt].
  - destruct (calculateScore_within _ Hle) as [Hs _]. lia.
  - destruct (calculateScore_bust _ Hgt) as [-> _]. lia.
Qed.

End Deck.

Lemma calculateScore_order_and_hidden_witness :
  calculateScore [mkCard spades RA false; mkCard hearts R5 true; mkCard clubs RK false]
  = calculateScore [mkCard clubs RK false; mkCard spades RA false; mkCard hearts R5 true].
Proof.
  refine (proj1 (calculateScore_order_and_hidden _ _ _)).
  change ([mkCard spades RA false; mkCard hearts R5 true; mkCard clubs RK false])
    with ([mkCard spades RA false; mkCard hearts R5 true] ++ [mkCard clubs RK false]).
  apply Permutation_app_comm.
Defined.

Lemma calculateScore_bounds_witness :
  calculateScore ([mkCard spades RK false; mkCard hearts RA false]
                    ++ [mkCard clubs RK false]) <= 31.
Proof.
  refine (proj2 (calculateScore_bounds _ _ _)). vm_compute. discriminate.
Defined.

(** ** Sessions *)
Section Session.
Variable validPublicKey : string -> bool.

(** Unfolds the monadic plumbing of a method applied to a state. *)
Ltac run :=
  unfold mbind, mret, M_bind, M_ret, getThis, getWorld, modifyThis, modifyWorld,
    throw, detached; cbn [fst snd].

Lemma sendCardsReward_begin_completed player game w :
  completedGames (sendCardsReward_begin validPublicKey player game w).1
  = completedGames w.
Proof.
  unfold sendCardsReward_begin. destruct (negb _); [done|].
  by destruct (paidRewards w !! _).
Qed.

Lemma processReward_begin_result player game w k :
  result <$> completedGames (processReward_begin validPublicKey player game w).1 !! k
  = result <$> completedGames w !! k.
Proof.
  unfold processReward_begin.
  destruct (completedGames w !! game) as [e|] eqn:He; [|done].
  destruct (processed e); [done|].
  pose proof (sendCardsReward_begin_completed player game
                (completedSet game (set_processed true e) w)) as Hc.
  destruct (sendCardsReward_begin _ _ _ _) as [w2 stage]. cbn [fst] in *.
  rewrite Hc. cbn [completedGames completedSet].
  destruct (decide (game = k)) as [->|Hne].
  - by rewrite lookup_insert_eq, He.
  - by rewrite lookup_insert_ne.
Qed.

Lemma markGameAsCompleted_done (playerWon : bool) (w : World) (g : Game) :
  completed g = true ->
  markGameAsCompleted validPublicKey playerWon (w, g) = ((w, g), Ok tt).
Proof. intros Hc. unfold markGameAsCompleted. run. by rewrite Hc. Qed.

Lemma processReward_begin_registry player game w :
  activePlayers (processReward_begin validPublicKey player game w).1 = activePlayers w
  /\ games (processReward_begin validPublicKey player game w).1 = games w.
Proof.
  unfold processReward_begin.
  destruct (completedGames w !! game) as [e|]; [|done].
  destruct (processed e); [done|].
  unfold sendCardsReward_begin. destruct (negb _); [done|].
  by destruct (paidRewards _ !! _).
Qed.

Lemma markGameAsCompleted_spec (playerWon : bool) (w : World) (g : Game) :
  completed g = false ->
  exists w',
    markGameAsCompleted validPublicKey playerWon (w, g)
    = ((w', set_completed true g), Ok tt)
    /\ result <$> completedGames w' !! gameId g
       = Some (if playerWon then win else loss)
    /\ activePlayers w' = activePlayers w.
Proof.
  intros Hc. unfold markGameAsCompleted. run. rewrite Hc.
  destruct playerWon.
  - eexists. split; [reflexivity|].
    pose proof (processReward_begin_result (playerId g) (gameId g)
      (completedSet (gameId g) (mkCompleted (playerId g) win (now w) false) w)
      (gameId g)) as Hr.
    pose proof (processReward_begin_registry (playerId g) (gameId g)
      (completedSet (gameId g) (mkCompleted (playerId g) win (now w) false) w))
      as [Hact _].
    destruct (processReward_begin _ _ _ _) as [w2 t]. cbn [fst] in Hr, Hact.
    cbn. rewrite Hr, Hact. cbn. by rewrite lookup_insert_eq.
  - eexists. split; [reflexivity|]. cbn. by rewrite lookup_insert_eq.
Qed.

Lemma transitionState_ok (newState : GameState) (w : World) (g : Game) :
  isValidStateTransition (state g) newState = true ->
  transitionState newState (w, g) = ((w, set_state newState g), Ok newState).
Proof. intros Hv. unfold transitionState. run. by rewrite Hv. Qed.


Lemma swap_length (deck : list Card) (i j : nat) :
  length (swap deck i j) = length deck.
Proof.
  unfold swap. destruct (deck !! i); [|done]. destruct (deck !! j); [|done].
  by rewrite !length_insert.
Qed.

Lemma swap_visible (deck : list Card) (i j : nat) :
  Forall visible deck -> Forall visible (swap deck i j).
Proof.
  intros Hall. unfold swap.
  destruct (deck !! i) as [a|] eqn:Ha; [|done].
  destruct (deck !! j) as [b|] eqn:Hb; [|done].
  apply Forall_insert; [apply Forall_insert; [done|]|];
    eapply Forall_lookup_1; eauto.
Qed.

Lemma shuffleFrom_length (pick : nat -> nat) (i : nat) (deck : list Card) :
  length (shuffleFrom pick i deck) = length deck.
Proof.
  revert deck. induction i as [|i IH]; intros deck; [done|].
  cbn [shuffleFrom]. by rewrite IH, swap_length.
Qed.

Lemma shuffleFrom_visible (pick : nat -> nat) (i : nat) (deck : list Card) :
  Forall visible deck -> Forall visible (shuffleFrom pick i deck).
Proof.
  revert deck. induction i as [|i IH]; intros deck Hall; [done|].
  cbn [shuffleFrom]. by apply IH, swap_visible.
Qed.

Lemma orderedDeck_visible : Forall visible orderedDeck.
Proof.
  apply Forall_forall. intros card Hin. apply list_elem_of_In in Hin.
  unfold orderedDeck in Hin.
  apply in_flat_map in Hin as (_ & _ & Hin).
  apply in_flat_map in Hin as (s & _ & Hin).
  apply in_map_iff in Hin as (r & <- & _). reflexivity.
Qed.

Lemma createDeck_length (pick : nat -> nat) : length (createDeck pick) = 312%nat.
Proof. unfold createDeck. by rewrite length_rev, shuffleFrom_length. Qed.

Lemma createDeck_visible (pick : nat -> nat) : Forall visible (createDeck pick).
Proof.
  unfold createDeck. apply Forall_rev, shuffleFrom_visible, orderedDeck_visible.
Qed.

Lemma createDeck_top (pick : nat -> nat) :
  exists p1 p2 d1 d2 rest,
    createDeck pick = p1 :: p2 :: d1 :: d2 :: rest /\ length rest = 308%nat.
Proof.
  pose proof (createDeck_length pick) as Hlen.
  destruct (createDeck pick) as [|p1 [|p2 [|d1 [|d2 rest]]]]; try discriminate.
  exists p1, p2, d1, d2, rest. split; [done|]. cbn in Hlen. lia.
Qed.

Lemma dealInitialCards_spec (w : World) (g : Game) (p1 p2 d1 d2 : Card) (rest : list Card) :
  deck g = p1 :: p2 :: d1 :: d2 :: rest ->
  state g = PLAYER_TURN ->
  completed g = false ->
  if calculateScore [p1; p2] =? 21
  then exists w',
      dealInitialCards validPublicKey (w, g)
      = ((w', set_completed true (set_state GAME_ENDED (dealt p1 p2 d1 d2 rest g))), Ok tt)
      /\ result <$> completedGames w' !! gameId g = Some win
      /\ activePlayers w' = activePlayers w
  else dealInitialCards validPublicKey (w, g) = ((w, dealt p1 p2 d1 d2 rest g), Ok tt).
Proof.
  intros Hdeck Hstate Hc.
  unfold dealInitialCards, pop. run. rewrite Hdeck. cbn.
  destruct (calculateScore [p1; p2] =? 21) eqn:Hscore.
  - rewrite transitionState_ok by (cbn; by rewrite Hstate).
    destruct (markGameAsCompleted_spec true w
                (set_state GAME_ENDED (dealt p1 p2 d1 d2 rest g)) Hc)
      as (w' & Hmark & Hres & Hact).
    exists w'. split_and!; [exact Hmark | exact Hres | exact Hact].
  - reflexivity.
Qed.

(** What [reset] leaves, by cases on the player's first two cards. *)
Lemma reset_spec (ent : Entropy) (w : World) (g : Game) :
  exists p1 p2 d1 d2 rest,
    createDeck (shufflePick ent) = p1 :: p2 :: d1 :: d2 :: rest
    /\ let id := generateSecureId (now w) (resetIdDraw ent) in
       if calculateScore [p1; p2] =? 21
       then exists w',
           reset validPublicKey ent (w, g)
           = ((w', mkGame (playerId g) id true rest [p1; p2] [d1; hide d2]
                          GAME_ENDED ENTRY_FEE false [PLAYER_TURN; GAME_ENDED]),
              Ok tt)
           /\ result <$> completedGames w' !! id = Some win
           /\ activePlayers w' = activePlayers w
       else reset validPublicKey ent (w, g)
            = ((w, mkGame (playerId g) id false rest [p1; p2] [d1; hide d2]
                          PLAYER_TURN ENTRY_FEE false [PLAYER_TURN]),
               Ok tt).
Proof.
  destruct (createDeck_top (shufflePick ent)) as (p1 & p2 & d1 & d2 & rest & Hdeck & _).
  exists p1, p2, d1, d2, rest. split; [exact Hdeck|]. intros id.
  pose proof (dealInitialCards_spec w
                (mkGame (playerId g) id false (createDeck (shufflePick ent)) [] []
                        PLAYER_TURN ENTRY_FEE false [PLAYER_TURN])
                p1 p2 d1 d2 rest Hdeck eq_refl eq_refl) as Hdeal.
  unfold reset. run. fold id.
  destruct (calculateScore [p1; p2] =? 21).
  - destruct Hdeal as (w' & -> & Hres & Hact). exists w'.
    split; [reflexivity|]. split; [exact Hres | exact Hact].
  - rewrite Hdeal. reflexivity.
Qed.

(** C5.  A session built for a valid player that is not marked active
    holds the four cards on top of the shuffled deck: the first two, face
    up, for the player; the next two for the dealer, the first face up
    and the second, with the suit and the rank it had in the deck,
    hidden.  If the player's two cards score 21 the session is at once in
    [GAME_ENDED], completed and recorded as a win, whatever the dealer's
    cards are: the dealer's hand is still the two cards dealt, the second
    still hidden, and the state never passed through [DEALER_TURN].
    Otherwise the session waits for the player. *)
Theorem fresh_session_deal (ent : Entropy) (player : string) (w : World) :
  validPublicKey player = true ->
  player ∉ activePlayers w ->
  exists w' g p1 p2 d1 d2,
    newBlackjackGame validPublicKey ent player w = (w', Ok g)
    /\ createDeck (shufflePick ent) = p1 :: p2 :: d1 :: d2 :: deck g
    /\ playerHand g = [p1; p2]
    /\ dealerHand g = [d1; mkCard (suit d2) (rank d2) true]
    /\ hidden p1 = false
    /\ hidden p2 = false
    /\ hidden d1 = false
    /\ (calculateScore (playerHand g) = 21 ->
        state g = GAME_ENDED
        /\ completed g = true
        /\ stateHistory g = [PLAYER_TURN; GAME_ENDED]
        /\ result <$> completedGames w' !! gameId g = Some win)
    /\ (calculateScore (playerHand g) <> 21 ->
        state g = PLAYER_TURN /\ completed g = false).
Proof.
  intros Hv Hfree. unfold newBlackjackGame.
  rewrite Hv, (bool_decide_eq_false_2 _ Hfree). cbn [negb].
  match goal with |- context [reset _ _ (?w1, ?this)] =>
    destruct (reset_spec ent w1 this) as (p1 & p2 & d1 & d2 & rest & Hdeck & Hreset)
  end.
  pose proof (createDeck_visible (shufflePick ent)) as Hvis.
  rewrite Hdeck in Hvis.
  apply Forall_cons in Hvis as [Hp1 Hvis]. apply Forall_cons in Hvis as [Hp2 Hvis].
  apply Forall_cons in Hvis as [Hd1 _].
  cbn zeta in Hreset.
  destruct (calculateScore [p1; p2] =? 21) eqn:Hscore.
  - destruct Hreset as (w' & -> & Hres & _).
    apply Z.eqb_eq in Hscore.
    eexists w', _, p1, p2, d1, d2.
    split; [reflexivity|]. split; [exact Hdeck|].
    split; [reflexivity|]. split; [reflexivity|].
    split; [exact Hp1|]. split; [exact Hp2|]. split; [exact Hd1|]. split.
    + intros _. split_and!; [reflexivity | reflexivity | reflexivity | exact Hres].
    + cbn [playerHand]. intros Hne. congruence.
  - rewrite Hreset. apply Z.eqb_neq in Hscore.
    eexists _, _, p1, p2, d1, d2.
    split; [reflexivity|]. split; [exact Hdeck|].
    split; [reflexivity|]. split; [reflexivity|].
    split; [exact Hp1|]. split; [exact Hp2|]. split; [exact Hd1|]. split.
    + cbn [playerHand]. intros Heq. congruence.
    + intros _. split; reflexivity.
Qed.

Lemma two_cards_score (p1 p2 : Card) : calculateScore [p1; p2] <= 21.
Proof.
  destruct p1 as [s1 r1 h1], p2 as [s2 r2 h2].
  apply Z.leb_le. destruct h1, h2, r1, r2; reflexivity.
Qed.

Lemma hit_not_turn (w : World) (g : Game) :
  state g <> PLAYER_TURN ->
  hit validPublicKey (w, g) = ((w, g), Throw CannotHit).
Proof.
  intros Hs. unfold hit. run. by rewrite (bool_decide_eq_false_2 _ Hs).
Qed.

Lemma hit_empty (w : World) (g : Game) :
  state g = PLAYER_TURN -> deck g = [] ->
  hit validPublicKey (w, g) = ((w, g), Throw DeckExhausted).
Proof.
  intros Hs Hd. unfold hit, pop. run.
  rewrite (bool_decide_eq_true_2 _ Hs). cbn [negb fst snd]. by rewrite Hd.
Qed.

(** [hit] with a card to draw: the three outcomes of the new score. *)
Lemma hit_draw (w : World) (g : Game) (card : Card) (rest : list Card) :
  state g = PLAYER_TURN ->
  completed g = false ->
  deck g = card :: rest ->
  let hand := playerHand g ++ [card] in
  let drawn := mkGame (playerId g) (gameId g) false rest hand (dealerHand g)
                      PLAYER_TURN (currentBet g) (rewardPaid g) (stateHistory g) in
  let ended := mkGame (playerId g) (gameId g) true rest hand (dealerHand g)
                      GAME_ENDED (currentBet g) (rewardPaid g)
                      (stateHistory g ++ [GAME_ENDED]) in
  if 21 <? calculateScore hand
  then exists w',
      hit validPublicKey (w, g) = ((w', ended), Ok (getGameState ended))
      /\ result <$> completedGames w' !! gameId g = Some loss
  else if calculateScore hand =? 21
  then exists w',
      hit validPublicKey (w, g) = ((w', ended), Ok (getGameState ended))
      /\ result <$> completedGames w' !! gameId g = Some win
  else hit validPublicKey (w, g) = ((w, drawn), Ok (getGameState drawn)).
Proof.
  intros Hs Hc Hd hand drawn ended.
  assert (forall playerWon, exists w',
    markGameAsCompleted validPublicKey playerWon
      (w, set_state GAME_ENDED (set_playerHand hand (set_deck rest g)))
    = ((w', ended), Ok tt)
    /\ result <$> completedGames w' !! gameId g
       = Some (if playerWon then win else loss)) as Hmark.
  { intros playerWon.
    destruct (markGameAsCompleted_spec playerWon w
                (set_state GAME_ENDED (set_playerHand hand (set_deck rest g))) Hc)
      as (w' & Hmark & Hres & _).
    exists w'. split; [|exact Hres]. rewrite Hmark. subst ended.
    reflexivity. }
  unfold hit, pop. run.
  rewrite (bool_decide_eq_true_2 _ Hs). cbn [negb fst snd]. rewrite Hd.
  cbn. fold hand.
  destruct (21 <? calculateScore hand).
  - rewrite transitionState_ok by (cbn; by rewrite Hs).
    destruct (Hmark false) as (w' & Hm & Hres). exists w'.
    split; [|exact Hres]. cbn in Hm |- *. by rewrite Hm.
  - destruct (calculateScore hand =? 21).
    + rewrite transitionState_ok by (cbn; by rewrite Hs).
      destruct (Hmark true) as (w' & Hm & Hres). exists w'.
      split; [|exact Hres]. cbn in Hm |- *. by rewrite Hm.
    + subst drawn. unfold set_playerHand, set_deck. cbn.
      by rewrite Hs, Hc.
Qed.

Lemma dealerDraw_unfold (fuel : nat) (w : World) (g : Game) :
  dealerDraw fuel (w, g)
  = if calculateScore (dealerHand g) <? 17
    then match fuel, deck g with
         | O, _ | _, [] => ((w, g), Throw DeckExhausted)
         | S fuel', card :: rest =>
             dealerDraw fuel'
               (w, set_dealerHand (dealerHand g ++ [card]) (set_deck rest g))
         end
    else ((w, g), Ok (calculateScore (dealerHand g))).
Proof.
  destruct fuel; cbn [dealerDraw]; unfold pop; run;
    destruct (calculateScore (dealerHand g) <? 17); try reflexivity.
  cbn [fst snd]. destruct (deck g); reflexivity.
Qed.

(** The dealer's loop: it takes [drawn] off the top of the deck, one card
    at a time while the score is below 17, and stops at 17 or more, or
    with the deck used up. *)
Lemma dealerDraw_spec (fuel : nat) (w : World) (g : Game) :
  (length (deck g) <= fuel)%nat ->
  exists drawn rest,
    deck g = drawn ++ rest
    /\ (forall p q, drawn = p ++ q -> q <> [] ->
        calculateScore (dealerHand g ++ p) < 17)
    /\ let hand := dealerHand g ++ drawn in
       let g' := mkGame (playerId g) (gameId g) (completed g) rest (playerHand g)
                        hand (state g) (currentBet g) (rewardPaid g)
                        (stateHistory g) in
       (17 <= calculateScore hand
        /\ dealerDraw fuel (w, g) = ((w, g'), Ok (calculateScore hand)))
       \/ (calculateScore hand < 17 /\ rest = []
           /\ dealerDraw fuel (w, g) = ((w, g'), Throw DeckExhausted)).
Proof.
  revert g. induction fuel as [|fuel IH]; intros g Hfuel;
    rewrite dealerDraw_unfold;
    destruct (Z.ltb_spec (calculateScore (dealerHand g)) 17) as [Hlow|Hhigh].
  - exists [], []. destruct g as [? ? ? d ? ? ? ? ? ?]; cbn in *.
    destruct d; [|cbn in Hfuel; lia]. rewrite !app_nil_r.
    split; [done|]. split; [intros p q Hpq; by destruct p, q|].
    right. by split_and!.
  - exists [], (deck g). destruct g; cbn in *. rewrite !app_nil_r.
    split; [done|]. split; [intros p q Hpq; by destruct p, q|].
    left. by split.
  - destruct g as [pid gid c d ph dh st bet paid hist]; cbn in *.
    destruct d as [|card d].
    + exists [], []. rewrite !app_nil_r.
      split; [done|]. split; [intros p q Hpq; by destruct p, q|].
      right. by split_and!.
    + destruct (IH (mkGame pid gid c d ph (dh ++ [card]) st bet paid hist))
        as (drawn & rest & Hdeck & Hprefix & Hrun); [cbn in Hfuel |- *; lia|].
      cbn in Hdeck, Hprefix, Hrun.
      exists (card :: drawn), rest.
      split; [cbn; by rewrite Hdeck|]. split.
      * intros [|p0 p] q Hpq Hq; [by rewrite app_nil_r|].
        injection Hpq as <- Hpq.
        specialize (Hprefix p q Hpq Hq).
        by rewrite <- app_assoc in Hprefix.
      * rewrite <- app_assoc in Hrun. exact Hrun.
  - exists [], (deck g). destruct g; cbn in *. rewrite !app_nil_r.
    split; [done|]. split; [intros p q Hpq; by destruct p, q|].
    left. by split.
Qed.

Lemma hardTotal_app (h1 h2 : list Card) :
  hardTotal (h1 ++ h2) = hardTotal h1 + hardTotal h2.
Proof. induction h1 as [|c h1 IH]; cbn [app hardTotal]; lia. Qed.

Lemma hardTotal_visible (hand : list Card) :
  Forall visible hand -> Z.of_nat (length hand) <= hardTotal hand.
Proof.
  induction 1 as [|c hand Hc _ IH]; cbn [length hardTotal]; [lia|].
  rewrite Hc. destruct (rank c); cbn; lia.
Qed.

Lemma stand_not_turn (w : World) (g : Game) :
  state g <> PLAYER_TURN ->
  stand validPublicKey (w, g) = ((w, g), Throw CannotStand).
Proof.
  intros Hs. unfold stand. run. by rewrite (bool_decide_eq_false_2 _ Hs).
Qed.

Lemma stand_completed (w : World) (g : Game) :
  state g = PLAYER_TURN -> completed g = true ->
  stand validPublicKey (w, g) = ((w, g), Throw GameAlreadyCompleted).
Proof.
  intros Hs Hc. unfold stand. run.
  rewrite (bool_decide_eq_true_2 _ Hs). cbn [negb]. by rewrite Hc.
Qed.

(** [stand] on a session that waits for the player: the dealer's cards
    are revealed, [drawn] is taken off the deck while the score is below
    17, and the game ends with the result of the winner rule, unless the
    deck runs out. *)
Lemma stand_spec (w : World) (g : Game) :
  state g = PLAYER_TURN ->
  completed g = false ->
  exists drawn rest,
    deck g = drawn ++ rest
    /\ (forall p q, drawn = p ++ q -> q <> [] ->
        calculateScore (map reveal (dealerHand g) ++ p) < 17)
    /\ let hand := map reveal (dealerHand g) ++ drawn in
       (17 <= calculateScore hand
        /\ exists w',
            let g' := mkGame (playerId g) (gameId g) true rest (playerHand g) hand
                             GAME_ENDED (currentBet g) (rewardPaid g)
                             ((stateHistory g ++ [DEALER_TURN]) ++ [GAME_ENDED]) in
            stand validPublicKey (w, g) = ((w', g'), Ok (getGameState g'))
            /\ result <$> completedGames w' !! gameId g
               = Some (if playerWins (calculateScore (playerHand g))
                                     (calculateScore hand)
                       then win else loss))
       \/ (calculateScore hand < 17 /\ rest = []
           /\ stand validPublicKey (w, g)
              = ((w, mkGame (playerId g) (gameId g) false rest (playerHand g) hand
                            DEALER_TURN (currentBet g) (rewardPaid g)
                            (stateHistory g ++ [DEALER_TURN])),
                 Throw DeckExhausted)).
Proof.
  intros Hs Hc.
  destruct g as [pid gid c d ph dh st bet paid hist]; cbn in Hs, Hc; subst st c.
  pose (g1 := mkGame pid gid false d ph (map reveal dh) DEALER_TURN bet paid
                     (hist ++ [DEALER_TURN])).
  destruct (dealerDraw_spec (length d) w g1 (le_n _))
    as (drawn & rest & Hdeck & Hprefix & Hrun).
  exists drawn, rest. cbn in Hdeck, Hprefix, Hrun |- *.
  split; [exact Hdeck|]. split; [exact Hprefix|].
  unfold stand. run. cbn [state completed].
  rewrite (bool_decide_eq_true_2 (PLAYER_TURN = PLAYER_TURN) eq_refl).
  cbn [negb]. rewrite transitionState_ok by reflexivity.
  cbn. change (set_dealerHand _ (set_state DEALER_TURN _)) with g1.
  destruct Hrun as [(Hhigh & ->)|(Hlow & Hrest & ->)].
  - left. split; [exact Hhigh|].
    rewrite transitionState_ok by reflexivity. cbn.
    match goal with |- context [markGameAsCompleted _ ?b (_, ?g2)] =>
      destruct (markGameAsCompleted_spec b w g2 eq_refl) as (w' & -> & Hres & _)
    end.
    exists w'. split; [reflexivity|]. exact Hres.
  - right. split; [exact Hlow|]. split; [exact Hrest|]. reflexivity.
Qed.

Lemma reset_inv (ent : Entropy) (w : World) (g : Game) :
  sessionInv (reset validPublicKey ent (w, g)).1.2.
Proof.
  destruct (reset_spec ent w g) as (p1 & p2 & d1 & d2 & rest & Hdeck & Hreset).
  pose proof (createDeck_visible (shufflePick ent)) as Hvis.
  pose proof (createDeck_length (shufflePick ent)) as Hlen.
  rewrite Hdeck in Hvis, Hlen. cbn [length] in Hlen.
  apply Forall_cons in Hvis as [Hp1 Hvis]. apply Forall_cons in Hvis as [Hp2 Hvis].
  apply Forall_cons in Hvis as [_ Hvis]. apply Forall_cons in Hvis as [_ Hvis].
  cbn zeta in Hreset.
  destruct (calculateScore [p1; p2] =? 21) eqn:Hscore.
  - destruct Hreset as (w' & -> & _). cbn [fst snd].
    split; cbn; [done | done | by repeat constructor | done].
  - rewrite Hreset. cbn [fst snd]. apply Z.eqb_neq in Hscore.
    pose proof (two_cards_score p1 p2).
    split; cbn; [done | done | by repeat constructor |].
    intros _. split_and!; [lia | lia | done].
Qed.

Lemma newBlackjackGame_inv (ent : Entropy) (player : string) (w w' : World) (g : Game) :
  newBlackjackGame validPublicKey ent player w = (w', Ok g) -> sessionInv g.
Proof.
  unfold newBlackjackGame.
  destruct (negb _); [discriminate|]. destruct (bool_decide _); [discriminate|].
  match goal with |- context [reset _ _ ?s] =>
    pose proof (reset_inv ent s.1 s.2) as Hinv; cbn [fst snd] in Hinv;
    destruct (reset validPublicKey ent s) as [[w2 g2] [[]|e]]
  end; [|discriminate].
  intros [= _ <-]. exact Hinv.
Qed.

Lemma sessionInv_not_completed (g : Game) :
  sessionInv g -> state g = PLAYER_TURN -> completed g = false.
Proof.
  intros [Hc _ _ _] Hs. destruct (completed g); [|done].
  destruct Hc as [Hc _]. specialize (Hc eq_refl). congruence.
Qed.

Lemma hit_inv (w : World) (g : Game) (s : World * Game) (r : Res GameView) :
  sessionInv g -> hit validPublicKey (w, g) = (s, r) -> sessionInv s.2.
Proof.
  intros Hinv Hhit.
  destruct (decide (state g = PLAYER_TURN)) as [Hs|Hs].
  2:{ rewrite hit_not_turn in Hhit by done. by injection Hhit as <- _. }
  pose proof (sessionInv_not_completed g Hinv Hs) as Hc.
  destruct (deck g) as [|card rest] eqn:Hd.
  { rewrite hit_empty in Hhit by done. by injection Hhit as <- _. }
  pose proof (hit_draw w g card rest Hs Hc Hd) as Hdraw. cbn zeta in Hdraw.
  destruct Hinv as [Hcompleted Hdeck Hplayer Hturn].
  destruct (Hturn Hs) as (Hcards & Hscore & Hdealer).
  rewrite Hd in Hdeck, Hcards. apply Forall_cons in Hdeck as [Hcard Hrest].
  assert (Forall visible (playerHand g ++ [card])) as Hhand.
  { apply Forall_app. split; [done | by constructor]. }
  destruct (Z.ltb_spec 21 (calculateScore (playerHand g ++ [card]))) as [Hbust|Hfit].
  { destruct Hdraw as (w' & Heq & _). rewrite Heq in Hhit.
    injection Hhit as <- _. split; cbn; done. }
  destruct (Z.eqb_spec (calculateScore (playerHand g ++ [card])) 21) as [H21|Hless].
  { destruct Hdraw as (w' & Heq & _). rewrite Heq in Hhit.
    injection Hhit as <- _. split; cbn; done. }
  rewrite Hdraw in Hhit. injection Hhit as <- _.
  split; cbn; [done | done | done |].
  intros _. rewrite length_app. cbn [length] in Hcards |- *.
  split_and!; [lia | lia | done].
Qed.

Lemma stand_inv (w : World) (g : Game) (s : World * Game) (r : Res GameView) :
  sessionInv g -> stand validPublicKey (w, g) = (s, r) -> sessionInv s.2.
Proof.
  intros Hinv Hstand.
  destruct (decide (state g = PLAYER_TURN)) as [Hs|Hs].
  2:{ rewrite stand_not_turn in Hstand by done. by injection Hstand as <- _. }
  pose proof (sessionInv_not_completed g Hinv Hs) as Hc.
  destruct (stand_spec w g Hs Hc) as (drawn & rest & Hd & _ & Hrun).
  destruct Hinv as [_ Hdeck Hplayer _].
  rewrite Hd in Hdeck. apply Forall_app in Hdeck as [_ Hrest].
  cbn zeta in Hrun.
  destruct Hrun as [(_ & w' & Heq & _)|(_ & _ & Heq)];
    rewrite Heq in Hstand; injection Hstand as <- _; split; cbn; done.
Qed.

Lemma rewardPaid_inv (g : Game) : sessionInv g -> sessionInv (set_rewardPaid true g).
Proof. intros [? ? ? ?]. by split. Qed.

(** Every session of the game proper satisfies the invariant. *)
Lemma evolves_inv (g : Game) : evolves validPublicKey g -> sessionInv g.
Proof.
  induction 1 as [ent player w w' g Hnew | ent w g s r _ IH Hreset
                  | w g s r _ IH Hhit | w g s r _ IH Hstand | g _ IH].
  - by eapply newBlackjackGame_inv.
  - pose proof (reset_inv ent w g) as Hinv. by rewrite Hreset in Hinv.
  - by eapply hit_inv.
  - by eapply stand_inv.
  - by apply rewardPaid_inv.
Qed.

(** C10.  In every session the program can hold, [completed] is true
    exactly when the state is [GAME_ENDED]; this still holds after a
    [hit] or a [stand], whatever they return; marking a completed
    session again changes nothing; and [reset] leaves either
    [completed = false] with [PLAYER_TURN], or, when it dealt the player
    21, [completed = true] with [GAME_ENDED]. *)
Theorem completed_iff_game_ended (g : Game) :
  evolves validPublicKey g ->
  (completed g = true <-> state g = GAME_ENDED)
  /\ (forall w s r,
        hit validPublicKey (w, g) = (s, r) \/ stand validPublicKey (w, g) = (s, r) ->
        (completed s.2 = true <-> state s.2 = GAME_ENDED))
  /\ (forall playerWon w,
        completed g = true ->
        markGameAsCompleted validPublicKey playerWon (w, g) = ((w, g), Ok tt))
  /\ (forall ent w,
        let g' := (reset validPublicKey ent (w, g)).1.2 in
        (completed g' = false /\ state g' = PLAYER_TURN)
        \/ (completed g' = true /\ state g' = GAME_ENDED
            /\ calculateScore (playerHand g') = 21)).
Proof.
  intros Hev. split_and!.
  - apply evolves_inv, Hev.
  - intros w s r [Hhit|Hstand].
    + apply (inv_completed s.2), (hit_inv w g s r); [by apply evolves_inv | done].
    + apply (inv_completed s.2), (stand_inv w g s r); [by apply evolves_inv | done].
  - intros playerWon w Hc. by apply markGameAsCompleted_done.
  - intros ent w g'. subst g'.
    destruct (reset_spec ent w g) as (p1 & p2 & d1 & d2 & rest & _ & Hreset).
    cbn zeta in Hreset.
    destruct (Z.eqb_spec (calculateScore [p1; p2]) 21) as [H21|_].
    + destruct Hreset as (w' & -> & _). right. by split_and!.
    + rewrite Hreset. left. by split.
Qed.

(** C6.  On a session that waits for the player, is not completed and
    has at least 17 cards, all face up, in its deck, [stand] succeeds;
    every session built by the constructor and acted on by [reset],
    [hit], [stand] and the reward path that waits for the player is such
    a session.  [stand] turns the dealer's cards face up, each with its
    own suit and rank, moves [drawn] from the top of the deck to the
    dealer's hand, each card drawn at a score below 17, and stops at a
    score of 17 or more; the session ends in [GAME_ENDED], completed, and
    the entry recorded for it is a loss when the player is above 21, else
    a win when the dealer is above 21 or below the player, else (ties
    included) a loss. *)
Theorem stand_plays_dealer_and_settles (w : World) (g : Game) :
  state g = PLAYER_TURN ->
  (evolves validPublicKey g ->
   completed g = false /\ Forall visible (deck g) /\ (17 <= length (deck g))%nat)
  /\ (completed g = false ->
      Forall visible (deck g) ->
      (17 <= length (deck g))%nat ->
      let shown := map (fun card => mkCard (suit card) (rank card) false)
                       (dealerHand g) in
      exists w' g' drawn entry,
        stand validPublicKey (w, g) = ((w', g'), Ok (getGameState g'))
        /\ state g' = GAME_ENDED
        /\ completed g' = true
        /\ stateHistory g' = stateHistory g ++ [DEALER_TURN; GAME_ENDED]
        /\ playerHand g' = playerHand g
        /\ deck g = drawn ++ deck g'
        /\ dealerHand g' = shown ++ drawn
        /\ Forall visible (dealerHand g')
        /\ (forall p q, drawn = p ++ q -> q <> [] ->
            calculateScore (shown ++ p) < 17)
        /\ 17 <= calculateScore (dealerHand g')
        /\ completedGames w' !! gameId g' = Some entry
        /\ (21 < calculateScore (playerHand g') -> result entry = loss)
        /\ (calculateScore (playerHand g') <= 21 ->
            21 < calculateScore (dealerHand g')
            \/ calculateScore (dealerHand g') < calculateScore (playerHand g') ->
            result entry = win)
        /\ (calculateScore (playerHand g') <= 21 ->
            calculateScore (dealerHand g') <= 21 ->
            calculateScore (playerHand g') <= calculateScore (dealerHand g') ->
            result entry = loss)).
Proof.
  intros Hs. split.
  { intros Hev. pose proof (evolves_inv g Hev) as Hinv.
    split; [by apply sessionInv_not_completed|].
    destruct Hinv as [_ Hdeck Hplayer Hturn]. split; [exact Hdeck|].
    destruct (Hturn Hs) as (Hcards & Hscore & _).
    pose proof (hardTotal_visible _ Hplayer).
    pose proof (calculateScore_ge_hard (playerHand g)).
    lia. }
  intros Hc Hdeck Hlen shown.
  change shown with (map reveal (dealerHand g)). clear shown.
  destruct (stand_spec w g Hs Hc) as (drawn & rest & Hd & Hprefix & Hrun).
  cbn zeta in Hrun. rewrite Hd in Hdeck, Hlen.
  apply Forall_app in Hdeck as [Hdrawn _].
  destruct Hrun as [(Hhigh & w' & Heq & Hres)|(Hlow & -> & _)].
  2:{ exfalso. rewrite app_nil_r in Hlen.
      pose proof (calculateScore_ge_hard (map reveal (dealerHand g) ++ drawn)) as Hge.
      rewrite hardTotal_app in Hge.
      pose proof (hardTotal_nonneg (map reveal (dealerHand g))).
      pose proof (hardTotal_visible _ Hdrawn).
      lia. }
  destruct (completedGames w' !! gameId g) as [entry|] eqn:Hentry; [|discriminate].
  injection Hres as Hres.
  eexists w', _, drawn, entry.
  split; [exact Heq|].
  cbn [state completed playerHand deck dealerHand gameId stateHistory].
  split_and!; try done.
  - by rewrite <- app_assoc.
  - apply Forall_app. split; [|done].
    apply Forall_forall. intros card Hin. apply list_elem_of_fmap in Hin.
    by destruct Hin as (card' & -> & _).
  - intros Hbust. rewrite Hres. unfold playerWins.
    destruct (Z.ltb_spec 21 (calculateScore (playerHand g))); [done | lia].
  - intros Hfit Hbeat. rewrite Hres. unfold playerWins.
    destruct (Z.ltb_spec 21 (calculateScore (playerHand g))); [lia|].
    destruct (Z.ltb_spec 21 (calculateScore (map reveal (dealerHand g) ++ drawn)));
      destruct (Z.ltb_spec (calculateScore (map reveal (dealerHand g) ++ drawn))
                           (calculateScore (playerHand g))); cbn; try done; lia.
  - intros Hfit Hdfit Hle. rewrite Hres. unfold playerWins.
    destruct (Z.ltb_spec 21 (calculateScore (playerHand g))); [done|].
    destruct (Z.ltb_spec 21 (calculateScore (map reveal (dealerHand g) ++ drawn)));
      destruct (Z.ltb_spec (calculateScore (map reveal (dealerHand g) ++ drawn))
                           (calculateScore (playerHand g))); cbn; try done; lia.
Qed.

Lemma scoreStep_sameVisible (acc : Z * nat) (c1 c2 : Card) :
  sameVisible c1 c2 -> scoreStep acc c1 = scoreStep acc c2.
Proof.
  intros [Hh Heq]. unfold scoreStep. rewrite <- Hh.
  destruct (hidden c1); [done|]. by rewrite (Heq eq_refl).
Qed.

Lemma calculateScore_sameVisible (h1 h2 : list Card) :
  Forall2 sameVisible h1 h2 -> calculateScore h1 = calculateScore h2.
Proof.
  intros Hsame. unfold calculateScore.
  assert (forall acc, fold_left scoreStep h1 acc = fold_left scoreStep h2 acc) as ->;
    [|done].
  induction Hsame as [|c1 c2 h1 h2 Hc _ IH]; intros acc; [done|].
  cbn [fold_left]. by rewrite (scoreStep_sameVisible acc c1 c2 Hc), IH.
Qed.

Lemma filterCard_sameVisible (h1 h2 : list Card) :
  Forall2 sameVisible h1 h2 -> map filterCard h1 = map filterCard h2.
Proof.
  induction 1 as [|c1 c2 h1 h2 [Hh Heq] _ IH]; [done|].
  cbn [map]. rewrite IH. f_equal. unfold filterCard. rewrite <- Hh.
  destruct (hidden c1); [done|]. by rewrite (Heq eq_refl).
Qed.

Lemma shown_sameVisible (h1 h2 : list Card) :
  Forall2 sameVisible h1 h2 ->
  filter (fun card => hidden card = false) h1
  = filter (fun card => hidden card = false) h2.
Proof.
  induction 1 as [|c1 c2 h1 h2 [Hh Heq] _ IH]; [done|].
  rewrite !filter_cons, IH, <- Hh.
  destruct (decide (hidden c1 = false)) as [Hvis|]; [|done].
  by rewrite (Heq Hvis).
Qed.

(** C8.  The view of a session shows every hidden dealer card as the
    object [{ hidden: true }] and nothing else of it: two sessions that
    differ only in the rank and suit of hidden dealer cards (and in the
    cards left in the deck) have the same view, scores and message
    included.  Hidden cards occur nowhere else: in a session the program
    can hold, no card of the player's hand is hidden. *)
Theorem snapshot_hides_hole_card (g1 g2 : Game) :
  holeEquivalent g1 g2 ->
  getGameState g1 = getGameState g2
  /\ (forall i card,
        dealerHand g1 !! i = Some card -> hidden card = true ->
        v_dealerHand (getGameState g1) !! i = Some HiddenCard)
  /\ (evolves validPublicKey g1 -> Forall visible (playerHand g1)).
Proof.
  intros [Hpid Hgid Hc Hph Hdh Hst Hbet Hpaid Hhist]. split_and!.
  - unfold getGameState, getMessage.
    rewrite Hgid, Hc, Hph, Hst, Hbet, Hpaid.
    rewrite (filterCard_sameVisible _ _ Hdh), (shown_sameVisible _ _ Hdh),
      (calculateScore_sameVisible _ _ Hdh).
    reflexivity.
  - intros i card Hi Hhidden. cbn [getGameState v_dealerHand].
    rewrite list_lookup_fmap, Hi. cbn. unfold filterCard. by rewrite Hhidden.
  - intros Hev. apply evolves_inv in Hev. apply Hev.
Qed.

(** *** The sessions held in the registry *)

Lemma keepsGames_bind {A B} (m : M A) (f : A -> M B) :
  keepsGames m -> (forall a, keepsGames (f a)) -> keepsGames (m ≫= f).
Proof.
  intros Hm Hf w g. unfold mbind, M_bind.
  specialize (Hm w g). destruct (m (w, g)) as [[w1 g1] [a|e]]; cbn [fst] in *.
  - by rewrite Hf.
  - done.
Qed.

Lemma keepsGames_ret {A} (a : A) : keepsGames (mret a).
Proof. by intros w g. Qed.

Lemma keepsGames_throw {A} (e : Error) : keepsGames (@throw A e).
Proof. by intros w g. Qed.

Lemma keepsGames_getThis : keepsGames getThis.
Proof. by intros w g. Qed.

Lemma keepsGames_getWorld : keepsGames getWorld.
Proof. by intros w g. Qed.

Lemma keepsGames_modifyThis (f : Game -> Game) : keepsGames (modifyThis f).
Proof. by intros w g. Qed.

Lemma keepsGames_modifyWorld (f : World -> World) :
  (forall w, games (f w) = games w) -> keepsGames (modifyWorld f).
Proof. intros Hf w g. apply Hf. Qed.

Lemma keepsGames_detached (m : M unit) : keepsGames m -> keepsGames (detached m).
Proof. intros Hm w g. apply Hm. Qed.

(** Splits a method into its steps; [known] closes the calls to methods
    already dealt with. *)
Ltac keepsBy known :=
  repeat first
    [ known
    | apply keepsGames_ret | apply keepsGames_throw | apply keepsGames_getThis
    | apply keepsGames_getWorld | apply keepsGames_modifyThis
    | apply keepsGames_bind; [|intros ?]
    | match goal with
      | |- keepsGames (if ?b then _ else _) => destruct b
      | |- keepsGames (match ?l with [] => _ | _ :: _ => _ end) => destruct l
      end ].

Ltac keeps := keepsBy fail.

Lemma keepsGames_pop : keepsGames pop.
Proof. unfold pop. keeps. Qed.

Lemma keepsGames_transitionState (newState : GameState) :
  keepsGames (transitionState newState).
Proof. unfold transitionState. keeps. Qed.

Lemma keepsGames_markGameAsCompleted (playerWon : bool) :
  keepsGames (markGameAsCompleted validPublicKey playerWon).
Proof.
  unfold markGameAsCompleted. keeps; apply keepsGames_modifyWorld; intros w; try done.
  match goal with |- context [processReward_begin _ ?p ?k w] =>
    pose proof (processReward_begin_registry p k w) as [_ Hg];
    destruct (processReward_begin validPublicKey p k w)
  end.
  exact Hg.
Qed.

Lemma keepsGames_dealInitialCards : keepsGames (dealInitialCards validPublicKey).
Proof.
  unfold dealInitialCards.
  keepsBy ltac:(first [apply keepsGames_pop | apply keepsGames_transitionState
                      | apply keepsGames_markGameAsCompleted]).
Qed.

Lemma keepsGames_reset (ent : Entropy) : keepsGames (reset validPublicKey ent).
Proof.
  unfold reset.
  keepsBy ltac:(apply keepsGames_detached, keepsGames_dealInitialCards).
Qed.

Lemma keepsGames_hit : keepsGames (hit validPublicKey).
Proof.
  unfold hit.
  keepsBy ltac:(first [apply keepsGames_pop | apply keepsGames_transitionState
                      | apply keepsGames_markGameAsCompleted]).
Qed.

Lemma keepsGames_dealerDraw (fuel : nat) : keepsGames (dealerDraw fuel).
Proof.
  induction fuel as [|fuel IH]; cbn [dealerDraw];
    keepsBy ltac:(first [apply keepsGames_pop | exact IH]).
Qed.

Lemma keepsGames_stand : keepsGames (stand validPublicKey).
Proof.
  unfold stand.
  keepsBy ltac:(first [apply keepsGames_dealerDraw | apply keepsGames_transitionState
                      | apply keepsGames_markGameAsCompleted]).
Qed.

Lemma newBlackjackGame_games (ent : Entropy) (player : string) (w : World) :
  games (newBlackjackGame validPublicKey ent player w).1 = games w.
Proof.
  unfold newBlackjackGame.
  destruct (negb _); [done|]. destruct (bool_decide _); [done|].
  match goal with |- context [reset _ _ (?w1, ?this)] =>
    pose proof (keepsGames_reset ent w1 this) as Hkeep;
    destruct (reset validPublicKey ent (w1, this)) as [[w2 g2] [[]|e]]
  end; exact Hkeep.
Qed.

Lemma registryEvolves_insert (player : string) (g : Game) (w w' : World) :
  registryEvolves validPublicKey w ->
  evolves validPublicKey g ->
  games w' = <[player := g]> (games w) ->
  registryEvolves validPublicKey w'.
Proof.
  intros Hreg Hg Hgames p g' Hlookup. rewrite Hgames in Hlookup.
  destruct (decide (player = p)) as [->|Hne].
  - rewrite lookup_insert_eq in Hlookup. by injection Hlookup as <-.
  - rewrite lookup_insert_ne in Hlookup by done. by eapply Hreg.
Qed.

Lemma registryEvolves_same (w w' : World) :
  registryEvolves validPublicKey w -> games w' = games w ->
  registryEvolves validPublicKey w'.
Proof. intros Hreg Hgames p g Hlookup. rewrite Hgames in Hlookup. by eapply Hreg. Qed.

Lemma createAndRegister_evolves (ent : Entropy) (player : string) (w : World) :
  registryEvolves validPublicKey w ->
  registryEvolves validPublicKey (createAndRegister validPublicKey ent player w).1.
Proof.
  intros Hreg. unfold createAndRegister.
  pose proof (newBlackjackGame_games ent player w) as Hgames.
  destruct (newBlackjackGame validPublicKey ent player w) as [w' [g|e]] eqn:Hnew;
    cbn [fst] in *.
  - eapply (registryEvolves_insert player g w); [done | by eapply ev_new |].
    cbn. by rewrite Hgames.
  - by eapply registryEvolves_same.
Qed.

Lemma apiGameAction_evolves (m : M GameView) (player : string) (w : World) :
  keepsGames m ->
  (forall w g s r, evolves validPublicKey g -> m (w, g) = (s, r) ->
                   evolves validPublicKey s.2) ->
  registryEvolves validPublicKey w ->
  registryEvolves validPublicKey (apiGameAction m player w).1.
Proof.
  intros Hkeep Hm Hreg. unfold apiGameAction.
  destruct (games w !! player) as [g|] eqn:Hg; [|done].
  destruct (completed g); [done|]. unfold onGame.
  specialize (Hkeep w g). specialize (Hm w g).
  destruct (m (w, g)) as [[w' g'] r]. cbn [fst snd] in *.
  assert (evolves validPublicKey g') as Hg'
    by (apply (Hm (w', g') r); [by eapply Hreg | done]).
  destruct r; cbn [fst];
    (eapply (registryEvolves_insert player g' w); [done | done |]);
    cbn; by rewrite Hkeep.
Qed.

(** A turn of the event loop keeps in [games] only sessions the program
    can hold. *)
Lemma step_registryEvolves (w w' : World) :
  step validPublicKey w w' ->
  registryEvolves validPublicKey w -> registryEvolves validPublicKey w'.
Proof.
  intros Hstep Hreg.
  destruct Hstep as [ent player fee w | player w | player w | ent player w
                    | o t before after w Htasks | w | w | t w Ht].
  - unfold apiGameCreate. destruct player as [[|c player]|]; try done.
    destruct (negb _); [done|]. destruct (negb fee); [done|].
    destruct (bool_decide _); [|by apply createAndRegister_evolves].
    destruct (games w !! _); [done|].
    apply createAndRegister_evolves. by eapply registryEvolves_same.
  - apply apiGameAction_evolves; [apply keepsGames_hit | | done].
    intros w0 g s r Hg Hhit. by eapply ev_hit.
  - apply apiGameAction_evolves; [apply keepsGames_stand | | done].
    intros w0 g s r Hg Hstand. by eapply ev_stand.
  - unfold apiGameReset. destruct player as [[|c player]|]; try done.
    destruct (negb _); [done|].
    match goal with |- context [newBlackjackGame _ _ ?p ?w2] =>
      pose proof (newBlackjackGame_games ent p w2) as Hgames;
      destruct (newBlackjackGame validPublicKey ent p w2) as [w3 [g|e]] eqn:Hnew
    end; cbn [fst] in *.
    + intros p g' Hlookup. cbn in Hlookup. rewrite Hgames in Hlookup. cbn in Hlookup.
      destruct (decide (String c player = p)) as [<-|Hne].
      * rewrite lookup_insert_eq in Hlookup. injection Hlookup as <-.
        by eapply ev_new.
      * rewrite lookup_insert_ne, lookup_delete_ne in Hlookup by done.
        by eapply Hreg.
    + intros p g' Hlookup. rewrite Hgames in Hlookup. cbn in Hlookup.
      apply lookup_delete_Some in Hlookup as [_ Hlookup]. by eapply Hreg.
  - destruct t as [player game gc stage|player]; cbn [resumeTask];
      [|by eapply registryEvolves_same].
    unfold processReward_resume.
    assert (games (sendCardsReward_finish o player game stage
                     (set_tasks (before ++ after) w)).1 = games w) as Hgames.
    { destruct stage; cbn [sendCardsReward_finish]; try done.
      unfold sendCardsReward_resume. by destruct (rpcResult player o). }
    destruct (sendCardsReward_finish _ _ _ _ _) as [w1 [sig|e]]; cbn [fst] in Hgames.
    + unfold markRewardPaid.
      destruct (games w1 !! player) as [g|] eqn:Hg; [|by eapply registryEvolves_same].
      destruct (String.eqb _ _); [|by eapply registryEvolves_same].
      eapply (registryEvolves_insert player (set_rewardPaid true g) w);
        [done | | cbn; by rewrite Hgames].
      apply ev_rewardPaid. rewrite Hgames in Hg. by eapply Hreg.
    + by eapply registryEvolves_same.
  - by eapply registryEvolves_same.
  - by eapply registryEvolves_same.
  - by eapply registryEvolves_same.
Qed.

(** Whatever the requests of [step], the network and the clock did,
    every session the server holds is one of the game proper. *)
Lemma reachable_registryEvolves (w : World) :
  reachable validPublicKey w -> registryEvolves validPublicKey w.
Proof.
  intros [t Hrtc].
  assert (registryEvolves validPublicKey (emptyWorld t)) as Hinit.
  { intros p g Hlookup. cbn in Hlookup. by rewrite lookup_empty in Hlookup. }
  revert Hinit. induction Hrtc as [w|w1 w2 w3 Hstep _ IH]; [done|].
  intros Hreg. apply IH. by eapply step_registryEvolves.
Qed.

(** A session that waits for the player still has at least 290 cards in
    its deck: the [pop] of [hit] and of the dealer's loop never finds it
    empty. *)
Lemma evolved_deck_large (g : Game) :
  evolves validPublicKey g -> state g = PLAYER_TURN ->
  (290 <= length (deck g))%nat.
Proof.
  intros Hev Hs. destruct (evolves_inv g Hev) as [_ _ Hplayer Hturn].
  destruct (Hturn Hs) as (Hcards & Hscore & _).
  pose proof (hardTotal_visible _ Hplayer).
  pose proof (calculateScore_ge_hard (playerHand g)).
  lia.
Qed.

(** The invariant holds of every session in the registry of a reachable
    state of the stores. *)
Lemma reachable_sessionInv (w : World) (player : string) (g : Game) :
  reachable validPublicKey w -> games w !! player = Some g -> sessionInv g.
Proof.
  intros Hreach Hg. apply evolves_inv.
  by eapply reachable_registryEvolves.
Qed.

(** *** State history, bets and hits *)

(** X4.  [transitionState] follows the table: a listed transition sets
    the state and appends it to the history, and nothing else; any other
    is refused and leaves the session and the stores as they were.  No
    transition leaves [GAME_ENDED], none enters [WAITING_FOR_BET], and
    none keeps the state. *)
Theorem transitionState_table (newState : GameState) (w : World) (g : Game) :
  (isValidStateTransition (state g) newState = true ->
   transitionState newState (w, g)
   = ((w, mkGame (playerId g) (gameId g) (completed g) (deck g) (playerHand g)
                 (dealerHand g) newState (currentBet g) (rewardPaid g)
                 (stateHistory g ++ [newState])), Ok newState)
   /\ state g <> GAME_ENDED
   /\ newState <> WAITING_FOR_BET
   /\ newState <> state g)
  /\ (isValidStateTransition (state g) newState = false ->
      transitionState newState (w, g)
      = ((w, g), Throw (InvalidStateTransition (state g) newState))).
Proof.
  split; intros Hv.
  - split; [by rewrite transitionState_ok|].
    destruct (state g), newState; try discriminate Hv; by split_and!.
  - unfold transitionState. run. by rewrite Hv.
Qed.

Lemma reset_history (ent : Entropy) (w : World) (g : Game) :
  let g' := (reset validPublicKey ent (w, g)).1.2 in
  (state g' = PLAYER_TURN /\ stateHistory g' = [PLAYER_TURN])
  \/ (state g' = GAME_ENDED /\ stateHistory g' = [PLAYER_TURN; GAME_ENDED]).
Proof.
  destruct (reset_spec ent w g) as (p1 & p2 & d1 & d2 & rest & _ & Hreset).
  cbn zeta in Hreset |- *. destruct (calculateScore [p1; p2] =? 21).
  - destruct Hreset as (w' & -> & _). by right.
  - rewrite Hreset. by left.
Qed.

Lemma evolved_history (g : Game) :
  evolves validPublicKey g ->
  (state g = PLAYER_TURN /\ stateHistory g = [PLAYER_TURN])
  \/ (state g = GAME_ENDED /\ stateHistory g = [PLAYER_TURN; GAME_ENDED])
  \/ (state g = DEALER_TURN /\ stateHistory g = [PLAYER_TURN; DEALER_TURN])
  \/ (state g = GAME_ENDED
      /\ stateHistory g = [PLAYER_TURN; DEALER_TURN; GAME_ENDED]).
Proof.
  induction 1 as [ent player w w' g Hnew | ent w g s r _ _ Hreset
                  | w g s r Hev IH Hhit | w g s r Hev IH Hstand | g _ IH].
  - revert Hnew. unfold newBlackjackGame.
    destruct (negb _); [discriminate|]. destruct (bool_decide _); [discriminate|].
    match goal with |- context [reset _ _ (?w1, ?this)] =>
      pose proof (reset_history ent w1 this) as Hh; cbn zeta in Hh;
      destruct (reset validPublicKey ent (w1, this)) as [[w2 g2] [[]|e]]
    end; [|discriminate].
    intros [= _ <-]. cbn [fst snd] in Hh. tauto.
  - pose proof (reset_history ent w g) as Hh. cbn zeta in Hh.
    rewrite Hreset in Hh. tauto.
  - destruct (decide (state g = PLAYER_TURN)) as [Hs|Hs].
    2:{ rewrite hit_not_turn in Hhit by done. by injection Hhit as <- _. }
    assert (stateHistory g = [PLAYER_TURN]) as Hh
      by (destruct IH as [[_ ?]|[[? _]|[[? _]|[? _]]]]; congruence).
    pose proof (sessionInv_not_completed g (evolves_inv g Hev) Hs) as Hc.
    destruct (deck g) as [|card rest] eqn:Hd.
    { rewrite hit_empty in Hhit by done. by injection Hhit as <- _. }
    pose proof (hit_draw w g card rest Hs Hc Hd) as Hdraw. cbn zeta in Hdraw.
    destruct (21 <? _).
    { destruct Hdraw as (w' & Heq & _). rewrite Heq in Hhit.
      injection Hhit as <- _. cbn. rewrite Hh. by right; left. }
    destruct (_ =? 21).
    { destruct Hdraw as (w' & Heq & _). rewrite Heq in Hhit.
      injection Hhit as <- _. cbn. rewrite Hh. by right; left. }
    rewrite Hdraw in Hhit. injection Hhit as <- _. cbn. by left.
  - destruct (decide (state g = PLAYER_TURN)) as [Hs|Hs].
    2:{ rewrite stand_not_turn in Hstand by done. by injection Hstand as <- _. }
    assert (stateHistory g = [PLAYER_TURN]) as Hh
      by (destruct IH as [[_ ?]|[[? _]|[[? _]|[? _]]]]; congruence).
    pose proof (sessionInv_not_completed g (evolves_inv g Hev) Hs) as Hc.
    destruct (stand_spec w g Hs Hc) as (drawn & rest & _ & _ & Hrun).
    cbn zeta in Hrun.
    destruct Hrun as [(_ & w' & Heq & _)|(_ & _ & Heq)];
      rewrite Heq in Hstand; injection Hstand as <- _; cbn; rewrite Hh; tauto.
  - exact IH.
Qed.

(** X5.  The state history of a session built by the constructor and
    acted on by [reset], [hit], [stand] and the reward path is one of
    four: it starts at [PLAYER_TURN], ends at the current state, and
    passes through [DEALER_TURN] at most once and only on the way to
    [GAME_ENDED].  In particular such a session is never in
    [WAITING_FOR_BET]. *)
Theorem session_history_shape (g : Game) :
  evolves validPublicKey g ->
  (state g = PLAYER_TURN /\ stateHistory g = [PLAYER_TURN])
  \/ (state g = GAME_ENDED /\ stateHistory g = [PLAYER_TURN; GAME_ENDED])
  \/ (state g = DEALER_TURN /\ stateHistory g = [PLAYER_TURN; DEALER_TURN])
  \/ (state g = GAME_ENDED
      /\ stateHistory g = [PLAYER_TURN; DEALER_TURN; GAME_ENDED]).
Proof. apply evolved_history. Qed.

Lemma set_games_same (player : string) (game : Game) (w : World) :
  games w !! player = Some game ->
  set_games (<[player := game]> (games w)) w = w.
Proof. intros Hg. destruct w. unfold set_games. cbn in *. by rewrite insert_id. Qed.

Lemma placeBet_not_waiting (amount : Z) (w : World) (g : Game) :
  state g <> WAITING_FOR_BET ->
  placeBet amount (w, g) = ((w, g), BetRefused "Cannot place bet at this time").
Proof.
  intros Hs. unfold placeBet. cbn [snd]. by rewrite bool_decide_eq_false_2.
Qed.

Lemma keepsPlaying_bind {A B} (m : M A) (f : A -> M B) :
  keepsPlaying m -> (forall a, keepsPlaying (f a)) -> keepsPlaying (m ≫= f).
Proof.
  intros Hm Hf w g Hs. unfold mbind, M_bind.
  specialize (Hm w g Hs). destruct (m (w, g)) as [[w1 g1] [a|e]]; cbn [fst snd] in *.
  - by apply Hf.
  - done.
Qed.

Lemma keepsPlaying_ret {A} (a : A) : keepsPlaying (mret a).
Proof. by intros w g. Qed.

Lemma keepsPlaying_throw {A} (e : Error) : keepsPlaying (@throw A e).
Proof. by intros w g. Qed.

Lemma keepsPlaying_getThis : keepsPlaying getThis.
Proof. by intros w g. Qed.

Lemma keepsPlaying_getWorld : keepsPlaying getWorld.
Proof. by intros w g. Qed.

Lemma keepsPlaying_modifyWorld (f : World -> World) : keepsPlaying (modifyWorld f).
Proof. by intros w g. Qed.

Lemma keepsPlaying_modifyThis (f : Game -> Game) :
  (forall g, state g <> WAITING_FOR_BET -> state (f g) <> WAITING_FOR_BET) ->
  keepsPlaying (modifyThis f).
Proof. intros Hf w g. apply Hf. Qed.

Lemma keepsPlaying_detached (m : M unit) : keepsPlaying m -> keepsPlaying (detached m).
Proof. intros Hm w g. apply Hm. Qed.

(** Splits a method into its steps, as [keepsBy] does. *)
Ltac playingBy known :=
  repeat first
    [ known
    | apply keepsPlaying_ret | apply keepsPlaying_throw | apply keepsPlaying_getThis
    | apply keepsPlaying_getWorld | apply keepsPlaying_modifyWorld
    | apply keepsPlaying_modifyThis; by intros []
    | apply keepsPlaying_bind; [|intros ?]
    | match goal with
      | |- keepsPlaying (if ?b then _ else _) => destruct b
      | |- keepsPlaying (match ?l with [] => _ | _ :: _ => _ end) => destruct l
      end ].

Lemma keepsPlaying_pop : keepsPlaying pop.
Proof. unfold pop. playingBy fail. Qed.

Lemma keepsPlaying_transitionState (newState : GameState) :
  keepsPlaying (transitionState newState).
Proof.
  intros w g Hs. unfold transitionState. run.
  destruct (isValidStateTransition (state g) newState) eqn:Hv; [|done].
  cbn. destruct (state g), newState; done.
Qed.

Lemma keepsPlaying_markGameAsCompleted (playerWon : bool) :
  keepsPlaying (markGameAsCompleted validPublicKey playerWon).
Proof. unfold markGameAsCompleted. playingBy fail. Qed.

Lemma keepsPlaying_dealInitialCards : keepsPlaying (dealInitialCards validPublicKey).
Proof.
  unfold dealInitialCards.
  playingBy ltac:(first [apply keepsPlaying_pop | apply keepsPlaying_transitionState
                        | apply keepsPlaying_markGameAsCompleted]).
Qed.

Lemma keepsPlaying_reset (ent : Entropy) : keepsPlaying (reset validPublicKey ent).
Proof.
  unfold reset.
  playingBy ltac:(first [apply keepsPlaying_detached, keepsPlaying_dealInitialCards
                        | apply keepsPlaying_modifyThis; by intros ? ?]).
Qed.

Lemma keepsPlaying_hit : keepsPlaying (hit validPublicKey).
Proof.
  unfold hit.
  playingBy ltac:(first [apply keepsPlaying_pop | apply keepsPlaying_transitionState
                        | apply keepsPlaying_markGameAsCompleted]).
Qed.

Lemma keepsPlaying_dealerDraw (fuel : nat) : keepsPlaying (dealerDraw fuel).
Proof.
  induction fuel as [|fuel IH]; cbn [dealerDraw];
    playingBy ltac:(first [apply keepsPlaying_pop | exact IH]).
Qed.

Lemma keepsPlaying_stand : keepsPlaying (stand validPublicKey).
Proof.
  unfold stand.
  playingBy ltac:(first [apply keepsPlaying_dealerDraw
                        | apply keepsPlaying_transitionState
                        | apply keepsPlaying_markGameAsCompleted]).
Qed.

Lemma newBlackjackGame_playing (ent : Entropy) (player : string) (w w' : World)
      (g : Game) :
  newBlackjackGame validPublicKey ent player w = (w', Ok g) ->
  state g <> WAITING_FOR_BET.
Proof.
  unfold newBlackjackGame.
  destruct (negb _); [discriminate|]. destruct (bool_decide _); [discriminate|].
  match goal with |- context [reset _ _ (?w1, ?this)] =>
    pose proof (keepsPlaying_reset ent w1 this) as Hplay;
    destruct (reset validPublicKey ent (w1, this)) as [[w2 g2] [[]|e]]
  end; [|discriminate].
  intros [= _ <-]. by apply Hplay.
Qed.

Lemma noneWaiting_insert (player : string) (g : Game) (w w' : World) :
  noneWaiting w ->
  state g <> WAITING_FOR_BET ->
  games w' = <[player := g]> (games w) ->
  noneWaiting w'.
Proof.
  intros Hnone Hg Hgames p g' Hlookup. rewrite Hgames in Hlookup.
  destruct (decide (player = p)) as [->|Hne].
  - rewrite lookup_insert_eq in Hlookup. by injection Hlookup as <-.
  - rewrite lookup_insert_ne in Hlookup by done. by eapply Hnone.
Qed.

Lemma noneWaiting_same (w w' : World) :
  noneWaiting w -> games w' = games w -> noneWaiting w'.
Proof. intros Hnone Hgames p g Hlookup. rewrite Hgames in Hlookup. by eapply Hnone. Qed.

Lemma createAndRegister_playing (ent : Entropy) (player : string) (w : World) :
  noneWaiting w -> noneWaiting (createAndRegister validPublicKey ent player w).1.
Proof.
  intros Hnone. unfold createAndRegister.
  pose proof (newBlackjackGame_games ent player w) as Hgames.
  destruct (newBlackjackGame validPublicKey ent player w) as [w' [g|e]] eqn:Hnew;
    cbn [fst] in *.
  - eapply (noneWaiting_insert player g w);
      [done | by eapply newBlackjackGame_playing | cbn; by rewrite Hgames].
  - by eapply noneWaiting_same.
Qed.

Lemma apiGameAction_playing (m : M GameView) (player : string) (w : World) :
  keepsGames m -> keepsPlaying m ->
  noneWaiting w -> noneWaiting (apiGameAction m player w).1.
Proof.
  intros Hkeep Hplay Hnone. unfold apiGameAction.
  destruct (games w !! player) as [g|] eqn:Hg; [|done].
  destruct (completed g); [done|]. unfold onGame.
  specialize (Hkeep w g). specialize (Hplay w g (Hnone _ _ Hg)).
  destruct (m (w, g)) as [[w' g'] r]. cbn [fst snd] in *.
  destruct r; cbn [fst];
    (eapply (noneWaiting_insert player g' w); [done | done |]);
    cbn; by rewrite Hkeep.
Qed.

Lemma step_noneWaiting (w w' : World) :
  step validPublicKey w w' -> noneWaiting w -> noneWaiting w'.
Proof.
  intros Hstep Hnone.
  destruct Hstep as [ent player fee w | player w | player w | ent player w
                    | o t before after w Htasks | w | w | t w Ht].
  - unfold apiGameCreate. destruct player as [[|c player]|]; try done.
    destruct (negb _); [done|]. destruct (negb fee); [done|].
    destruct (bool_decide _); [|by apply createAndRegister_playing].
    destruct (games w !! _); [done|].
    apply createAndRegister_playing. by eapply noneWaiting_same.
  - apply apiGameAction_playing;
      [apply keepsGames_hit | apply keepsPlaying_hit | done].
  - apply apiGameAction_playing;
      [apply keepsGames_stand | apply keepsPlaying_stand | done].
  - unfold apiGameReset. destruct player as [[|c player]|]; try done.
    destruct (negb _); [done|].
    match goal with |- context [newBlackjackGame _ _ ?p ?w2] =>
      pose proof (newBlackjackGame_games ent p w2) as Hgames;
      destruct (newBlackjackGame validPublicKey ent p w2) as [w3 [g|e]] eqn:Hnew
    end; cbn [fst] in *.
    + intros p g' Hlookup. cbn in Hlookup. rewrite Hgames in Hlookup. cbn in Hlookup.
      destruct (decide (String c player = p)) as [<-|Hne].
      * rewrite lookup_insert_eq in Hlookup. injection Hlookup as <-.
        by eapply newBlackjackGame_playing.
      * rewrite lookup_insert_ne, lookup_delete_ne in Hlookup by done.
        by eapply Hnone.
    + intros p g' Hlookup. rewrite Hgames in Hlookup. cbn in Hlookup.
      apply lookup_delete_Some in Hlookup as [_ Hlookup]. by eapply Hnone.
  - destruct t as [player game gc stage|player]; cbn [resumeTask];
      [|by eapply noneWaiting_same].
    unfold processReward_resume.
    assert (games (sendCardsReward_finish o player game stage
                     (set_tasks (before ++ after) w)).1 = games w) as Hgames.
    { destruct stage; cbn [sendCardsReward_finish]; try done.
      unfold sendCardsReward_resume. by destruct (rpcResult player o). }
    destruct (sendCardsReward_finish _ _ _ _ _) as [w1 [sig|e]]; cbn [fst] in Hgames.
    + unfold markRewardPaid.
      destruct (games w1 !! player) as [g|] eqn:Hg; [|by eapply noneWaiting_same].
      destruct (String.eqb _ _); [|by eapply noneWaiting_same].
      eapply (noneWaiting_insert player (set_rewardPaid true g) w);
        [done | | cbn; by rewrite Hgames].
      rewrite Hgames in Hg. by apply (Hnone _ _ Hg).
    + by eapply noneWaiting_same.
  - by eapply noneWaiting_same.
  - by eapply noneWaiting_same.
  - by eapply noneWaiting_same.
Qed.

Lemma apiGameBet_refused (player : string) (amount : option Z) (w : World) :
  noneWaiting w ->
  exists status message details,
    apiGameBet player amount w = (w, Failure status message details).
Proof.
  intros Hnone. unfold apiGameBet.
  destruct (games w !! player) as [game|] eqn:Hgame; [|by eauto].
  destruct amount as [bet|]; [|by eauto].
  destruct (bet <=? 0); [by eauto|].
  rewrite placeBet_not_waiting by (by eapply Hnone).
  rewrite set_games_same by done. by eauto.
Qed.

Lemma apiForceWin_playing (production : bool) (ent : Entropy) (player : option string)
      (playerCards dealerCards : option (list Card)) (w : World) :
  noneWaiting w ->
  noneWaiting
    (apiForceWin validPublicKey production ent player playerCards dealerCards w).1.
Proof.
  intros Hnone. unfold apiForceWin.
  destruct production; [done|].
  destruct player as [[|c player]|]; [done| |done].
  set (p := String c player).
  assert (exists w1 found,
    match games w !! p with
    | Some game => (w, Ok game)
    | None =>
        match newBlackjackGame validPublicKey ent p
                (set_activePlayers (activePlayers w ∖ {[p]}) w) with
        | (w', Ok game) => (set_games (<[p := game]> (games w')) w', Ok game)
        | (w', Throw e) => (w', Throw e)
        end
    end = (w1, found) /\ noneWaiting w1) as (w1 & found & -> & Hw1).
  { destruct (games w !! p) as [game|]; [by eexists _, _|].
    pose proof (newBlackjackGame_games ent p
                  (set_activePlayers (activePlayers w ∖ {[p]}) w)) as Hgames.
    destruct (newBlackjackGame _ _ _ _) as [w' [g|e]] eqn:Hnew; cbn [fst] in Hgames;
      eexists _, _; (split; [reflexivity|]).
    - eapply (noneWaiting_insert p g w);
        [done | by eapply newBlackjackGame_playing | cbn; by rewrite Hgames].
    - by eapply noneWaiting_same. }
  destruct found as [game|e]; [|done].
  match goal with |- context [markGameAsCompleted _ ?b (w1, ?g3)] =>
    pose proof (keepsGames_markGameAsCompleted b w1 g3) as Hkeep;
    pose proof (keepsPlaying_markGameAsCompleted b w1 g3) as Hplay;
    destruct (markGameAsCompleted validPublicKey b (w1, g3)) as [[w2 game4] r]
  end.
  cbn [fst snd] in *.
  eapply (noneWaiting_insert p game4 w1); [done | by apply Hplay | cbn; by rewrite Hkeep].
Qed.

Lemma turn_noneWaiting (w w' : World) :
  turn validPublicKey w w' -> noneWaiting w -> noneWaiting w'.
Proof.
  intros Hturn Hnone. destruct Hturn as [w w' Hstep | player amount w | ? ? ? ? ? w].
  - by eapply step_noneWaiting.
  - destruct (apiGameBet_refused player amount w Hnone) as (? & ? & ? & ->). done.
  - by apply apiForceWin_playing.
Qed.

Lemma served_noneWaiting (t : Z) (w : World) :
  rtc (turn validPublicKey) (emptyWorld t) w -> noneWaiting w.
Proof.
  intros Hrun.
  assert (noneWaiting (emptyWorld t)) as Hinit.
  { intros p g Hlookup. cbn in Hlookup. by rewrite lookup_empty in Hlookup. }
  revert Hinit. induction Hrun as [w|w1 w2 w3 Hturn _ IH]; [done|].
  intros Hnone. apply IH. by eapply turn_noneWaiting.
Qed.

(** X6.  A bet is never accepted.  However create, hit, stand, reset, bet
    and force-win requests, reward tasks, timers, cleanup jobs and the
    clock interleave from empty stores, no session stored in [games] is
    in [WAITING_FOR_BET]; on each of them [placeBet] throws 'Cannot place
    bet at this time' and changes nothing, and the bet handler answers
    every request with an error and leaves the stores as they are. *)
Theorem placeBet_always_refused (t : Z) (w : World) :
  rtc (turn validPublicKey) (emptyWorld t) w ->
  (forall player g amount,
     games w !! player = Some g ->
     state g <> WAITING_FOR_BET
     /\ placeBet amount (w, g)
        = ((w, g), BetRefused "Cannot place bet at this time"))
  /\ (forall player any,
        exists status message details,
          apiGameBet player any w = (w, Failure status message details)).
Proof.
  intros Hrun. pose proof (served_noneWaiting t w Hrun) as Hnone. split.
  - intros player g amount Hg. split; [by eapply Hnone|].
    apply placeBet_not_waiting. by eapply Hnone.
  - intros player any. by apply apiGameBet_refused.
Qed.

(** X7.  On a session the program can hold that waits for the player,
    [hit] succeeds: it moves the top card of the deck to the player's
    hand and leaves the dealer's hand, hole card included, as it is.
    Below 21 the session goes on and the stores are untouched; at 21 it
    ends as a recorded win, above 21 as a recorded loss, and the message
    of the view says so. *)
Theorem hit_draws_and_settles (w : World) (g : Game) :
  evolves validPublicKey g ->
  state g = PLAYER_TURN ->
  exists card w' g',
    hit validPublicKey (w, g) = ((w', g'), Ok (getGameState g'))
    /\ deck g = card :: deck g'
    /\ playerHand g' = playerHand g ++ [card]
    /\ dealerHand g' = dealerHand g
    /\ (calculateScore (playerHand g') < 21 ->
        state g' = PLAYER_TURN /\ completed g' = false /\ w' = w)
    /\ (calculateScore (playerHand g') = 21 ->
        state g' = GAME_ENDED /\ completed g' = true
        /\ result <$> completedGames w' !! gameId g' = Some win
        /\ v_message (getGameState g') = "Perfect 21! You win!")
    /\ (21 < calculateScore (playerHand g') ->
        state g' = GAME_ENDED /\ completed g' = true
        /\ result <$> completedGames w' !! gameId g' = Some loss
        /\ v_message (getGameState g') = "Bust! You lost!").
Proof.
  intros Hev Hs.
  pose proof (sessionInv_not_completed g (evolves_inv g Hev) Hs) as Hc.
  pose proof (evolved_deck_large g Hev Hs) as Hlarge.
  destruct (deck g) as [|card rest] eqn:Hd; [cbn in Hlarge; lia|].
  pose proof (hit_draw w g card rest Hs Hc Hd) as Hdraw. cbn zeta in Hdraw.
  exists card.
  destruct (Z.ltb_spec 21 (calculateScore (playerHand g ++ [card]))) as [Hbust|Hfit].
  { destruct Hdraw as (w' & Heq & Hres). eexists w', _.
    split; [exact Heq|]. cbn [deck playerHand dealerHand state completed gameId].
    split_and!; try done; try (intros; lia).
    intros _. split_and!; try done.
    cbn. unfold getMessage. cbn.
    by destruct (Z.ltb_spec 21 (calculateScore (playerHand g ++ [card]))); [|lia]. }
  destruct (Z.eqb_spec (calculateScore (playerHand g ++ [card])) 21) as [H21|Hless].
  { destruct Hdraw as (w' & Heq & Hres). eexists w', _.
    split; [exact Heq|]. cbn [deck playerHand dealerHand state completed gameId].
    split_and!; try done; try (intros; lia).
    intros _. split_and!; try done.
    cbn. unfold getMessage. cbn. rewrite H21. reflexivity. }
  eexists w, _. split; [exact Hdraw|].
  cbn [deck playerHand dealerHand state completed gameId].
  split_and!; try done; intros; lia.
Qed.

(** X8.  After [stand] on a session the program can hold, the message of
    the view agrees with the entry recorded for the game: a win message
    with a win, 'You lost!' with a loss; and the dealer score of the
    view is the score of the dealer's whole hand, nothing being hidden
    any more. *)
Theorem stand_message_agrees (w : World) (g : Game) :
  evolves validPublicKey g ->
  state g = PLAYER_TURN ->
  exists w' g' view entry,
    stand validPublicKey (w, g) = ((w', g'), Ok view)
    /\ completedGames w' !! gameId g' = Some entry
    /\ v_dealerScore view = calculateScore (dealerHand g')
    /\ v_dealerHand view = Shown <$> dealerHand g'
    /\ ((result entry = win
         /\ (v_message view = "Dealer busts! You win!" \/ v_message view = "You win!"))
        \/ (result entry = loss /\ v_message view = "You lost!")).
Proof.
  intros Hev Hs. pose proof (evolves_inv g Hev) as Hinv.
  pose proof (sessionInv_not_completed g Hinv Hs) as Hc.
  destruct Hinv as [_ Hdeck Hplayer Hturn].
  destruct (Hturn Hs) as (Hcards & Hscore & _).
  destruct (stand_spec w g Hs Hc) as (drawn & rest & Hd & _ & Hrun).
  cbn zeta in Hrun. rewrite Hd in Hdeck.
  apply Forall_app in Hdeck as [Hdrawn _].
  destruct Hrun as [(Hhigh & w' & Heq & Hres)|(Hlow & -> & _)].
  2:{ exfalso. rewrite app_nil_r in Hd. subst drawn.
      pose proof (calculateScore_ge_hard (map reveal (dealerHand g) ++ deck g)) as Hge.
      rewrite hardTotal_app in Hge.
      pose proof (hardTotal_nonneg (map reveal (dealerHand g))).
      pose proof (hardTotal_visible _ Hdrawn).
      pose proof (hardTotal_visible _ Hplayer).
      pose proof (calculateScore_ge_hard (playerHand g)).
      lia. }
  destruct (completedGames w' !! gameId g) as [entry|] eqn:Hentry; [|discriminate].
  injection Hres as Hres.
  assert (Forall visible (map reveal (dealerHand g) ++ drawn)) as Hvis.
  { apply Forall_app. split; [|done].
    apply Forall_forall. intros card Hin. apply list_elem_of_fmap in Hin.
    by destruct Hin as (card' & -> & _). }
  assert (forall hand, Forall visible hand ->
            filter (fun card => hidden card = false) hand = hand
            /\ map filterCard hand = Shown <$> hand) as Hshown.
  { clear. induction 1 as [|c hand Hc _ [IH1 IH2]]; [done|].
    rewrite filter_cons, decide_True by done. cbn [map fmap list_fmap].
    unfold filterCard at 1. rewrite Hc, IH1. split; [done|]. f_equal. exact IH2. }
  destruct (Hshown _ Hvis) as [Hfilter Hmap].
  eexists w', _, _, entry. split; [exact Heq|].
  cbn [gameId getGameState v_dealerScore v_dealerHand v_message dealerHand].
  rewrite Hfilter, Hmap.
  split; [exact Hentry|]. split; [done|]. split; [done|].
  rewrite Hres. unfold getMessage, playerWins.
  cbn [state playerHand dealerHand].
  destruct (Z.ltb_spec 21 (calculateScore (playerHand g))); [lia|].
  destruct (Z.eqb_spec (calculateScore (playerHand g)) 21); [lia|].
  destruct (Z.ltb_spec 21 (calculateScore (map reveal (dealerHand g) ++ drawn)));
    [left; split; [done | by left]|].
  destruct (Z.ltb_spec (calculateScore (map reveal (dealerHand g) ++ drawn))
                       (calculateScore (playerHand g)));
    [left; split; [done | by right] | right; by split].
Qed.

(** *** The cards of a session *)

Lemma reveal_visible (hand : list Card) :
  Forall visible hand -> map reveal hand = hand.
Proof.
  induction 1 as [|c hand Hc _ IH]; [done|]. cbn [map]. rewrite IH. f_equal.
  destruct c as [s r h]. unfold visible in Hc. cbn in Hc. by subst h.
Qed.

Lemma reveal_reveal (hand : list Card) : map reveal (map reveal hand) = map reveal hand.
Proof. induction hand as [|c hand IH]; [done|]. cbn [map]. by rewrite IH. Qed.

(** The cards of a session, faces up. *)
Lemma reset_cards (ent : Entropy) (w : World) (g : Game) :
  let g' := (reset validPublicKey ent (w, g)).1.2 in
  map reveal (playerHand g' ++ dealerHand g' ++ deck g') ≡ₚ orderedDeck.
Proof.
  destruct (reset_spec ent w g) as (p1 & p2 & d1 & d2 & rest & Hdeck & Hreset).
  pose proof (createDeck_visible (shufflePick ent)) as Hvis.
  assert (createDeck (shufflePick ent) ≡ₚ orderedDeck) as Hperm.
  { unfold createDeck. rewrite <- Permutation_rev. apply shuffleFrom_Permutation. }
  rewrite Hdeck in Hvis, Hperm.
  assert (map reveal ([p1; p2] ++ [d1; hide d2] ++ rest) = p1 :: p2 :: d1 :: d2 :: rest)
    as Hcards.
  { rewrite <- (reveal_visible _ Hvis). reflexivity. }
  cbn zeta in Hreset |- *. destruct (calculateScore [p1; p2] =? 21).
  - destruct Hreset as (w' & -> & _). cbn [fst snd playerHand dealerHand deck].
    by rewrite Hcards.
  - rewrite Hreset. cbn [fst snd playerHand dealerHand deck]. by rewrite Hcards.
Qed.

Lemma evolved_cards (g : Game) :
  evolves validPublicKey g ->
  map reveal (playerHand g ++ dealerHand g ++ deck g) ≡ₚ orderedDeck.
Proof.
  induction 1 as [ent player w w' g Hnew | ent w g s r _ _ Hreset
                  | w g s r Hev IH Hhit | w g s r Hev IH Hstand | g _ IH].
  - revert Hnew. unfold newBlackjackGame.
    destruct (negb _); [discriminate|]. destruct (bool_decide _); [discriminate|].
    match goal with |- context [reset _ _ (?w1, ?this)] =>
      pose proof (reset_cards ent w1 this) as Hh; cbn zeta in Hh;
      destruct (reset validPublicKey ent (w1, this)) as [[w2 g2] [[]|e]]
    end; [|discriminate].
    intros [= _ <-]. exact Hh.
  - pose proof (reset_cards ent w g) as Hh. cbn zeta in Hh. by rewrite Hreset in Hh.
  - destruct (decide (state g = PLAYER_TURN)) as [Hs|Hs].
    2:{ rewrite hit_not_turn in Hhit by done. by injection Hhit as <- _. }
    pose proof (sessionInv_not_completed g (evolves_inv g Hev) Hs) as Hc.
    destruct (deck g) as [|card rest] eqn:Hd.
    { rewrite hit_empty in Hhit by done. injection Hhit as <- _. cbn [snd].
      by rewrite Hd. }
    pose proof (hit_draw w g card rest Hs Hc Hd) as Hdraw. cbn zeta in Hdraw.
    assert (map reveal ((playerHand g ++ [card]) ++ dealerHand g ++ rest)
            ≡ₚ orderedDeck) as Hafter.
    { rewrite <- IH. apply fmap_Permutation.
      rewrite <- !app_assoc. f_equiv. cbn [app].
      by rewrite Permutation_middle. }
    destruct (21 <? _).
    { destruct Hdraw as (w' & Heq & _). rewrite Heq in Hhit.
      by injection Hhit as <- _. }
    destruct (_ =? 21).
    { destruct Hdraw as (w' & Heq & _). rewrite Heq in Hhit.
      by injection Hhit as <- _. }
    rewrite Hdraw in Hhit. by injection Hhit as <- _.
  - destruct (decide (state g = PLAYER_TURN)) as [Hs|Hs].
    2:{ rewrite stand_not_turn in Hstand by done. by injection Hstand as <- _. }
    pose proof (sessionInv_not_completed g (evolves_inv g Hev) Hs) as Hc.
    destruct (stand_spec w g Hs Hc) as (drawn & rest & Hd & _ & Hrun).
    cbn zeta in Hrun.
    assert (map reveal (playerHand g ++ (map reveal (dealerHand g) ++ drawn) ++ rest)
            ≡ₚ orderedDeck) as Hafter.
    { rewrite <- IH, Hd. rewrite !map_app, reveal_reveal.
      by rewrite <- !app_assoc. }
    destruct Hrun as [(_ & w' & Heq & _)|(_ & _ & Heq)];
      rewrite Heq in Hstand; by injection Hstand as <- _.
  - exact IH.
Qed.

(** X9.  No card is lost or dealt twice by the game itself: in every
    session built by the constructor and acted on by [reset], [hit],
    [stand] and the reward path, the two hands and the deck together
    are, faces up, the 312 cards of the six packs; so each card is there
    six times.  The force-win route, which writes the hands of the
    request into a session, is not one of these operations. *)
Theorem session_cards_conserved (g : Game) :
  evolves validPublicKey g ->
  map reveal (playerHand g ++ dealerHand g ++ deck g) ≡ₚ orderedDeck
  /\ (length (playerHand g) + length (dealerHand g) + length (deck g) = 312)%nat
  /\ forall s r,
       count_occ Card_eq_dec
                 (map reveal (playerHand g ++ dealerHand g ++ deck g))
                 (mkCard s r false) = 6%nat.
Proof.
  intros Hev. pose proof (evolved_cards g Hev) as Hperm. split; [exact Hperm|].
  split.
  - apply Permutation_length in Hperm.
    rewrite length_map, !length_app in Hperm. rewrite Nat.add_assoc in Hperm.
    exact Hperm.
  - intros s r. rewrite (Permutation_count_occ Card_eq_dec) in Hperm.
    rewrite Hperm. destruct s, r; vm_compute; reflexivity.
Qed.

(** *** The handlers *)

Lemma marker_removed (player : string) (s : gset string) : player ∉ s ∖ {[player]}.
Proof. intros [_ Hnot]%elem_of_difference. apply Hnot. by apply elem_of_singleton. Qed.

Lemma marker_added (player : string) (s : gset string) : player ∈ {[player]} ∪ s.
Proof. apply elem_of_union. left. by apply elem_of_singleton. Qed.

Lemma newBlackjackGame_ok (ent : Entropy) (player : string) (w : World) :
  validPublicKey player = true ->
  player ∉ activePlayers w ->
  exists w1 g,
    newBlackjackGame validPublicKey ent player w = (w1, Ok g)
    /\ games w1 = games w
    /\ activePlayers w1 = {[player]} ∪ activePlayers w
    /\ playerId g = player.
Proof.
  intros Hv Hfree.
  pose proof (newBlackjackGame_games ent player w) as Hgames.
  revert Hgames. unfold newBlackjackGame.
  rewrite Hv, (bool_decide_eq_false_2 _ Hfree). cbn [negb].
  match goal with |- context [reset _ _ (?w1, ?this)] =>
    destruct (reset_spec ent w1 this) as (p1 & p2 & d1 & d2 & rest & _ & Hreset)
  end.
  cbn zeta in Hreset. destruct (calculateScore [p1; p2] =? 21).
  - destruct Hreset as (w' & -> & _ & Hact). cbn [fst]. intros Hgames.
    eexists w', _. split; [reflexivity|]. by split_and!.
  - rewrite Hreset. cbn [fst]. intros Hgames.
    eexists _, _. split; [reflexivity|]. by split_and!.
Qed.

Lemma createAndRegister_ok (ent : Entropy) (player : string) (w : World) :
  validPublicKey player = true ->
  player ∉ activePlayers w ->
  exists w' g,
    createAndRegister validPublicKey ent player w = (w', Json (getGameState g))
    /\ games w' = <[player := g]> (games w)
    /\ activePlayers w' = {[player]} ∪ activePlayers w
    /\ evolves validPublicKey g.
Proof.
  intros Hv Hfree.
  destruct (newBlackjackGame_ok ent player w Hv Hfree) as (w1 & g & Hnew & Hg & Ha & _).
  unfold createAndRegister. rewrite Hnew.
  eexists _, g. split; [reflexivity|]. cbn. rewrite Hg.
  split_and!; [done | done | by eapply ev_new].
Qed.

(** X10.  A create request with the fee paid, for a valid player that is
    not marked active or has no session stored, builds a session and
    stores it in place of whatever [games] held for the player; the
    player is marked active, the other players' sessions are untouched,
    the state endpoint returns the same view, and a second create
    request returns that view again and changes nothing. *)
Theorem create_registers_session (ent ent' : Entropy) (player : string) (w : World) :
  validPublicKey player = true ->
  player <> "" ->
  player ∉ activePlayers w \/ games w !! player = None ->
  exists w' g,
    apiGameCreate validPublicKey ent (Some player) true w
    = (w', Json (getGameState g))
    /\ games w' = <[player := g]> (games w)
    /\ player ∈ activePlayers w'
    /\ evolves validPublicKey g
    /\ apiGameState validPublicKey player w' = Json (getGameState g)
    /\ apiGameCreate validPublicKey ent' (Some player) true w'
       = (w', Json (getGameState g)).
Proof.
  intros Hv Hne Hfree.
  assert (exists w' g,
    apiGameCreate validPublicKey ent (Some player) true w
    = (w', Json (getGameState g))
    /\ games w' = <[player := g]> (games w)
    /\ player ∈ activePlayers w'
    /\ evolves validPublicKey g) as (w' & g & Hcreate & Hgames & Hactive & Hev).
  { unfold apiGameCreate. destruct player as [|c rest]; [done|].
    rewrite Hv. cbn [negb].
    destruct (bool_decide (String c rest ∈ activePlayers w)) eqn:Hb.
    - apply bool_decide_eq_true_1 in Hb. destruct Hfree as [Hfree|Hnone]; [done|].
      rewrite Hnone.
      destruct (createAndRegister_ok ent (String c rest)
                  (set_activePlayers (activePlayers w ∖ {[String c rest]}) w) Hv)
        as (w' & g & Hc & Hg & Ha & Hev); [cbn; apply marker_removed|].
      exists w', g. split_and!; [done | done | rewrite Ha; apply marker_added | done].
    - apply bool_decide_eq_false_1 in Hb.
      destruct (createAndRegister_ok ent (String c rest) w Hv Hb)
        as (w' & g & Hc & Hg & Ha & Hev).
      exists w', g. split_and!; [done | done | rewrite Ha; apply marker_added | done]. }
  assert (games w' !! player = Some g) as Hlookup
    by (rewrite Hgames; apply lookup_insert_eq).
  exists w', g. split_and!; try done.
  - unfold apiGameState. by rewrite Hv, Hlookup.
  - unfold apiGameCreate. destruct player as [|c rest]; [done|].
    by rewrite Hv, (bool_decide_eq_true_2 _ Hactive), Hlookup.
Qed.

(** X11.  A reset request for a valid player always succeeds, whatever
    the stores hold: the player's session, live or not, is replaced by a
    new one that is dealt and either waits for the player or has ended
    on a dealt 21; the player is marked active and the other players'
    sessions are untouched. *)
Theorem reset_always_supersedes (ent : Entropy) (player : string) (w : World) :
  validPublicKey player = true ->
  player <> "" ->
  exists w' g,
    apiGameReset validPublicKey ent (Some player) w = (w', Json (getGameState g))
    /\ games w' = <[player := g]> (games w)
    /\ player ∈ activePlayers w'
    /\ evolves validPublicKey g
    /\ (stateHistory g = [PLAYER_TURN] \/ stateHistory g = [PLAYER_TURN; GAME_ENDED])
    /\ apiGameState validPublicKey player w' = Json (getGameState g).
Proof.
  intros Hv Hne. unfold apiGameReset. destruct player as [|c rest]; [done|].
  rewrite Hv. cbn [negb].
  match goal with |- context [newBlackjackGame _ _ ?p ?w2] =>
    destruct (newBlackjackGame_ok ent p w2 Hv) as (w1 & g & Hnew & Hg & Ha & _);
      [cbn; apply marker_removed|]
  end.
  rewrite Hnew. eexists _, g. split; [reflexivity|].
  assert (evolves validPublicKey g) as Hev by (by eapply ev_new).
  cbn [games set_games]. rewrite Hg. cbn [games set_games set_activePlayers].
  rewrite insert_delete_eq.
  split_and!; try done.
  - cbn. rewrite Ha. apply marker_added.
  - revert Hnew. unfold newBlackjackGame.
    destruct (negb _); [discriminate|]. destruct (bool_decide _); [discriminate|].
    match goal with |- context [reset _ _ (?w1, ?this)] =>
      pose proof (reset_history ent w1 this) as Hh; cbn zeta in Hh;
      destruct (reset validPublicKey ent (w1, this)) as [[w5 g5] [[]|e]]
    end; [|discriminate].
    intros [= _ <-]. cbn [fst snd] in Hh. tauto.
  - unfold apiGameState. rewrite Hv. cbn [negb games set_games].
    by rewrite lookup_insert_eq.
Qed.

Lemma hit_view (w : World) (g : Game) (s : World * Game) (view : GameView) :
  completed g = false ->
  hit validPublicKey (w, g) = (s, Ok view) -> view = getGameState s.2.
Proof.
  intros Hc Hhit.
  destruct (decide (state g = PLAYER_TURN)) as [Hs|Hs];
    [|by rewrite hit_not_turn in Hhit].
  destruct (deck g) as [|card rest] eqn:Hd; [by rewrite hit_empty in Hhit|].
  pose proof (hit_draw w g card rest Hs Hc Hd) as Hdraw. cbn zeta in Hdraw.
  destruct (21 <? _); [|destruct (_ =? 21)];
    try (destruct Hdraw as (w' & Heq & _)); try rename Hdraw into Heq;
    rewrite Heq in Hhit; by injection Hhit as <- <-.
Qed.

Lemma stand_view (w : World) (g : Game) (s : World * Game) (view : GameView) :
  stand validPublicKey (w, g) = (s, Ok view) -> view = getGameState s.2.
Proof.
  intros Hstand.
  destruct (decide (state g = PLAYER_TURN)) as [Hs|Hs];
    [|by rewrite stand_not_turn in Hstand].
  destruct (completed g) eqn:Hc; [by rewrite stand_completed in Hstand|].
  destruct (stand_spec w g Hs Hc) as (drawn & rest & _ & _ & Hrun).
  cbn zeta in Hrun.
  destruct Hrun as [(_ & w' & Heq & _)|(_ & _ & Heq)];
    rewrite Heq in Hstand; [by injection Hstand as <- <- | discriminate].
Qed.

(** X12.  What a hit or stand request answers is what the server keeps:
    when the answer is a view, it is the view of the session now stored
    for the player, and the state endpoint returns it again; the other
    players' sessions are untouched. *)
Theorem action_view_is_stored (player : string) (w w' : World) (view : GameView) :
  validPublicKey player = true ->
  apiGameHit validPublicKey player w = (w', Json view)
  \/ apiGameStand validPublicKey player w = (w', Json view) ->
  exists g g',
    games w !! player = Some g
    /\ games w' = <[player := g']> (games w)
    /\ view = getGameState g'
    /\ apiGameState validPublicKey player w' = Json view.
Proof.
  intros Hv Hact.
  assert (forall m,
    keepsGames m ->
    (forall w g s v, completed g = false -> m (w, g) = (s, Ok v) ->
                     v = getGameState s.2) ->
    apiGameAction m player w = (w', Json view) ->
    exists g g',
      games w !! player = Some g
      /\ games w' = <[player := g']> (games w)
      /\ view = getGameState g'
      /\ apiGameState validPublicKey player w' = Json view) as Hgen.
  { intros m Hkeep Hview. unfold apiGameAction.
    destruct (games w !! player) as [g|] eqn:Hg; [|discriminate].
    destruct (completed g) eqn:Hc; [discriminate|]. unfold onGame.
    specialize (Hkeep w g). specialize (Hview w g).
    destruct (m (w, g)) as [[w1 g1] [v|e]]; [|discriminate].
    intros [= <- <-]. cbn [fst snd] in *.
    exists g, g1. rewrite Hkeep. split_and!; try done.
    - by apply (Hview (w1, g1) v).
    - unfold apiGameState. rewrite Hv. cbn [negb games set_games].
      rewrite lookup_insert_eq. f_equal. symmetry. by apply (Hview (w1, g1) v). }
  destruct Hact as [Hhit|Hstand].
  - apply (Hgen (hit validPublicKey)); [apply keepsGames_hit | | done].
    intros. by eapply hit_view.
  - apply (Hgen (stand validPublicKey)); [apply keepsGames_stand | | done].
    intros. by eapply stand_view.
Qed.

Lemma forcedWin_playerWins (playerScore dealerScore : Z) :
  forcedWin playerScore dealerScore = playerWins playerScore dealerScore
  \/ (21 < playerScore /\ 21 < dealerScore
      /\ forcedWin playerScore dealerScore = true
      /\ playerWins playerScore dealerScore = false).
Proof.
  unfold forcedWin, playerWins.
  destruct (Z.ltb_spec 21 dealerScore), (Z.ltb_spec 21 playerScore),
    (Z.leb_spec playerScore 21), (Z.ltb_spec dealerScore playerScore);
    cbn; try lia; auto.
Qed.

(** X13.  The force-win handler, outside production, on a player with a
    stored session: the session ends in [GAME_ENDED], completed, with
    the hands of the request.  On a session that was completed already
    it writes no ledger and queues nothing, so the recorded result and
    the payout stay as they were.  Otherwise it records a win exactly
    when its own test holds, which agrees with the rule of [stand]
    unless player and dealer are both above 21: then it records a win.
    In production it answers 404 and changes nothing. *)
Theorem forceWin_settles (ent : Entropy) (player : string)
        (playerCards dealerCards : option (list Card)) (g : Game) (w : World) :
  player <> "" ->
  games w !! player = Some g ->
  apiForceWin validPublicKey true ent (Some player) playerCards dealerCards w
  = (w, Failure 404 "Endpoint not found" None)
  /\ exists w' g',
      apiForceWin validPublicKey false ent (Some player) playerCards dealerCards w
      = (w', Json (getGameState g'))
      /\ games w' = <[player := g']> (games w)
      /\ state g' = GAME_ENDED
      /\ completed g' = true
      /\ playerHand g' = default (playerHand g) playerCards
      /\ dealerHand g' = default (dealerHand g) dealerCards
      /\ (completed g = true ->
          completedGames w' = completedGames w
          /\ paidRewards w' = paidRewards w
          /\ tasks w' = tasks w
          /\ trace w' = trace w)
      /\ (completed g = false ->
          result <$> completedGames w' !! gameId g
          = Some (if forcedWin (calculateScore (playerHand g'))
                               (calculateScore (dealerHand g'))
                  then win else loss))
      /\ (forcedWin (calculateScore (playerHand g')) (calculateScore (dealerHand g'))
          = playerWins (calculateScore (playerHand g')) (calculateScore (dealerHand g'))
          \/ (21 < calculateScore (playerHand g')
              /\ 21 < calculateScore (dealerHand g')
              /\ forcedWin (calculateScore (playerHand g'))
                           (calculateScore (dealerHand g')) = true)).
Proof.
  intros Hne Hg. split.
  { unfold apiForceWin. destruct player as [|c rest]; done. }
  unfold apiForceWin. destruct player as [|c rest]; [done|]. rewrite Hg.
  set (g3 := set_state GAME_ENDED _).
  assert (playerHand g3 = default (playerHand g) playerCards
          /\ dealerHand g3 = default (dealerHand g) dealerCards
          /\ completed g3 = completed g /\ gameId g3 = gameId g
          /\ state g3 = GAME_ENDED) as (Hph & Hdh & Hc3 & Hid & Hst).
  { subst g3. by destruct playerCards, dealerCards. }
  pose proof (keepsGames_markGameAsCompleted
                (forcedWin (calculateScore (playerHand g3))
                           (calculateScore (dealerHand g3))) w g3) as Hkeep.
  destruct (completed g) eqn:Hc.
  - rewrite markGameAsCompleted_done in Hkeep |- * by congruence.
    eexists _, g3. split; [reflexivity|].
    split_and!; try done; try congruence.
    destruct (forcedWin_playerWins (calculateScore (playerHand g3))
                (calculateScore (dealerHand g3))) as [?|(? & ? & ? & _)]; auto.
  - destruct (markGameAsCompleted_spec
                (forcedWin (calculateScore (playerHand g3))
                           (calculateScore (dealerHand g3))) w g3)
      as (w2 & Hmark & Hres & _); [congruence|].
    rewrite Hmark in Hkeep |- *. cbn [fst snd] in Hkeep.
    eexists _, (set_completed true g3). split; [reflexivity|].
    cbn [games set_games state completed playerHand dealerHand set_completed].
    rewrite Hkeep.
    split_and!; try done.
    + intros _. cbn. by rewrite <- Hid.
    + destruct (forcedWin_playerWins (calculateScore (playerHand g3))
                  (calculateScore (dealerHand g3))) as [?|(? & ? & ? & _)]; auto.
Qed.

(** *** Completion and the payout it starts *)

(** X14.  Marking a session completed writes its entry, with the time of
    the call, and queues the timer that will release the player, who
    stays marked active for now.  A loss touches nothing else: no record,
    no reward task.  A win of a valid player with no record for the key
    marks the entry processed, writes the ['pending'] record and queues
    one reward task, ahead of the timer. *)
Theorem completion_starts_payout_iff_won (playerWon : bool) (w : World) (g : Game) :
  completed g = false ->
  exists w',
    markGameAsCompleted validPublicKey playerWon (w, g)
    = ((w', set_completed true g), Ok tt)
    /\ activePlayers w' = activePlayers w
    /\ games w' = games w
    /\ (playerWon = false ->
        completedGames w'
        = <[gameId g := mkCompleted (playerId g) loss (now w) false]> (completedGames w)
        /\ paidRewards w' = paidRewards w
        /\ tasks w' = tasks w ++ [ReleasePlayer (playerId g)])
    /\ (playerWon = true ->
        validPublicKey (playerId g) = true ->
        paidRewards w !! transactionKey (playerId g) (gameId g) = None ->
        completedGames w'
        = <[gameId g := mkCompleted (playerId g) win (now w) true]> (completedGames w)
        /\ paidRewards w'
           = <[transactionKey (playerId g) (gameId g) := pending]> (paidRewards w)
        /\ tasks w'
           = tasks w ++ [RewardTask (playerId g) (gameId g)
                           (mkCompleted (playerId g) win (now w) true) SendAwaiting;
                         ReleasePlayer (playerId g)]).
Proof.
  intros Hc. unfold markGameAsCompleted. run. rewrite Hc.
  destruct playerWon.
  - pose proof (processReward_begin_registry (playerId g) (gameId g)
      (completedSet (gameId g) (mkCompleted (playerId g) win (now w) false) w))
      as [Hact Hgames].
    destruct (processReward_begin _ _ _ _) as [w2 t] eqn:Hbegin.
    cbn [fst] in Hact, Hgames.
    eexists. split; [reflexivity|]. cbn [fst snd activePlayers games set_tasks].
    split; [exact Hact|]. split; [exact Hgames|]. split; [discriminate|].
    intros _ Hv Hk. revert Hbegin. unfold processReward_begin, sendCardsReward_begin.
    cbn [completedGames completedSet paidRewards].
    rewrite lookup_insert_eq. cbn [processed negb]. rewrite Hv. cbn [negb].
    rewrite Hk. intros [= <- <-]. cbn.
    rewrite insert_insert_eq, <- app_assoc. by split_and!.
  - eexists. split; [reflexivity|]. cbn.
    split_and!; done.
Qed.

(** *** Transactions never outnumber ['pending'] records *)

Lemma count_app {A} (p : A -> bool) (l1 l2 : list A) :
  count p (l1 ++ l2) = count p l1 + count p l2.
Proof. unfold count. rewrite List.filter_app, length_app. lia. Qed.

Lemma keepsMeasure_bind {A B} (f : World -> Z) (m : M A) (k : A -> M B) :
  keepsMeasure f m -> (forall a, keepsMeasure f (k a)) -> keepsMeasure f (m ≫= k).
Proof.
  intros Hm Hk w g. unfold mbind, M_bind.
  specialize (Hm w g). destruct (m (w, g)) as [[w1 g1] [a|e]]; cbn [fst] in *.
  - by rewrite Hk.
  - done.
Qed.

Lemma keepsMeasure_pure {A} (f : World -> Z) (m : M A) :
  (forall s, (m s).1.1 = s.1) -> keepsMeasure f m.
Proof. intros Hm w g. by rewrite Hm. Qed.

Lemma keepsMeasure_modifyWorld (f : World -> Z) (h : World -> World) :
  (forall w, f (h w) = f w) -> keepsMeasure f (modifyWorld h).
Proof. intros Hh w g. apply Hh. Qed.

Lemma keepsMeasure_detached (f : World -> Z) (m : M unit) :
  keepsMeasure f m -> keepsMeasure f (detached m).
Proof. intros Hm w g. apply Hm. Qed.

(** Splits a method into its steps, as [keepsBy] does. *)
Ltac measureBy known :=
  repeat first
    [ known
    | apply keepsMeasure_pure; by intros [? ?]
    | apply keepsMeasure_bind; [|intros ?]
    | match goal with
      | |- keepsMeasure _ (if ?b then _ else _) => destruct b
      | |- keepsMeasure _ (match ?l with [] => _ | _ :: _ => _ end) => destruct l
      end ].

(** Settles an equation between two values of [slack] when the traces and
    the task lists differ by known events and tasks. *)
Ltac slackBy :=
  unfold slack; cbn; rewrite ?app_nil_r, ?count_app; unfold count; cbn; lia.

Lemma slack_completedSet (game : string) (e : CompletedEntry) (w : World) :
  slack (completedSet game e w) = slack w.
Proof. slackBy. Qed.

Lemma slack_processReward_begin (player game : string) (w : World) :
  let '(w', t) := processReward_begin validPublicKey player game w in
  slack (set_tasks (tasks w' ++ option_list t) w') = slack w.
Proof.
  unfold processReward_begin.
  destruct (completedGames w !! game) as [e|]; [|slackBy].
  destruct (processed e); [slackBy|].
  unfold sendCardsReward_begin. destruct (negb _); [slackBy|].
  destruct (paidRewards _ !! _); slackBy.
Qed.

Lemma keepsMeasure_markGameAsCompleted (playerWon : bool) :
  keepsMeasure slack (markGameAsCompleted validPublicKey playerWon).
Proof.
  unfold markGameAsCompleted.
  measureBy fail; apply keepsMeasure_modifyWorld; intros w.
  - apply slack_completedSet.
  - match goal with |- context [processReward_begin _ ?p ?k w] =>
      pose proof (slack_processReward_begin p k w) as Hs;
      destruct (processReward_begin validPublicKey p k w)
    end. exact Hs.
  - slackBy.
Qed.

Lemma keepsMeasure_ret {A} (f : World -> Z) (a : A) : keepsMeasure f (mret a).
Proof. by intros w g. Qed.

Lemma keepsMeasure_throw {A} (f : World -> Z) (e : Error) : keepsMeasure f (@throw A e).
Proof. by intros w g. Qed.

Lemma keepsMeasure_getThis (f : World -> Z) : keepsMeasure f getThis.
Proof. by intros w g. Qed.

Lemma keepsMeasure_getWorld (f : World -> Z) : keepsMeasure f getWorld.
Proof. by intros w g. Qed.

Lemma keepsMeasure_modifyThis (f : World -> Z) (h : Game -> Game) :
  keepsMeasure f (modifyThis h).
Proof. by intros w g. Qed.

Ltac measure known :=
  measureBy ltac:(first
    [ known
    | apply keepsMeasure_ret | apply keepsMeasure_throw | apply keepsMeasure_getThis
    | apply keepsMeasure_getWorld | apply keepsMeasure_modifyThis ]).

Lemma keepsMeasure_pop (f : World -> Z) : keepsMeasure f pop.
Proof. unfold pop. measure fail. Qed.

Lemma keepsMeasure_transitionState (f : World -> Z) (newState : GameState) :
  keepsMeasure f (transitionState newState).
Proof. unfold transitionState. measure fail. Qed.

Lemma keepsMeasure_dealInitialCards :
  keepsMeasure slack (dealInitialCards validPublicKey).
Proof.
  unfold dealInitialCards.
  measure ltac:(first [apply keepsMeasure_pop | apply keepsMeasure_transitionState
                      | apply keepsMeasure_markGameAsCompleted]).
Qed.

Lemma keepsMeasure_reset (ent : Entropy) : keepsMeasure slack (reset validPublicKey ent).
Proof.
  unfold reset.
  measure ltac:(apply keepsMeasure_detached, keepsMeasure_dealInitialCards).
Qed.

Lemma keepsMeasure_hit : keepsMeasure slack (hit validPublicKey).
Proof.
  unfold hit.
  measure ltac:(first [apply keepsMeasure_pop | apply keepsMeasure_transitionState
                      | apply keepsMeasure_markGameAsCompleted]).
Qed.

Lemma keepsMeasure_dealerDraw (f : World -> Z) (fuel : nat) :
  keepsMeasure f (dealerDraw fuel).
Proof.
  induction fuel as [|fuel IH]; cbn [dealerDraw];
    measure ltac:(first [apply keepsMeasure_pop | exact IH]).
Qed.

Lemma keepsMeasure_stand : keepsMeasure slack (stand validPublicKey).
Proof.
  unfold stand.
  measure ltac:(first [apply keepsMeasure_dealerDraw | apply keepsMeasure_transitionState
                      | apply keepsMeasure_markGameAsCompleted]).
Qed.

Lemma slack_newBlackjackGame (ent : Entropy) (player : string) (w : World) :
  slack (newBlackjackGame validPublicKey ent player w).1 = slack w.
Proof.
  unfold newBlackjackGame.
  destruct (negb _); [done|]. destruct (bool_decide _); [done|].
  match goal with |- context [reset _ _ (?w1, ?this)] =>
    pose proof (keepsMeasure_reset ent w1 this) as Hs;
    destruct (reset validPublicKey ent (w1, this)) as [[w2 g] [[]|e]]
  end; exact Hs.
Qed.

Lemma slack_createAndRegister (ent : Entropy) (player : string) (w : World) :
  slack (createAndRegister validPublicKey ent player w).1 = slack w.
Proof.
  unfold createAndRegister.
  pose proof (slack_newBlackjackGame ent player w) as Hs.
  by destruct (newBlackjackGame _ _ _ _) as [w' [g|e]].
Qed.

Lemma slack_apiGameCreate (ent : Entropy) (player : option string)
      (entryFeePaid : bool) (w : World) :
  slack (apiGameCreate validPublicKey ent player entryFeePaid w).1 = slack w.
Proof.
  unfold apiGameCreate.
  destruct player as [[|c player]|]; [done| |done].
  destruct (negb _); [done|]. destruct (negb _); [done|].
  destruct (bool_decide _); [|apply slack_createAndRegister].
  destruct (games w !! _); [done|].
  by rewrite slack_createAndRegister.
Qed.

Lemma slack_apiGameAction (m : M GameView) (player : string) (w : World) :
  keepsMeasure slack m -> slack (apiGameAction m player w).1 = slack w.
Proof.
  intros Hm. unfold apiGameAction.
  destruct (games w !! player) as [game|]; [|done].
  destruct (completed game); [done|].
  unfold onGame. specialize (Hm w game).
  by destruct (m (w, game)) as [[w' game'] [view|e]].
Qed.

Lemma slack_apiGameReset (ent : Entropy) (player : option string) (w : World) :
  slack (apiGameReset validPublicKey ent player w).1 = slack w.
Proof.
  unfold apiGameReset.
  destruct player as [[|c player]|]; [done| |done].
  destruct (negb _); [done|].
  match goal with |- context [newBlackjackGame _ _ ?p ?w2] =>
    pose proof (slack_newBlackjackGame ent p w2) as Hs;
    destruct (newBlackjackGame validPublicKey ent p w2) as [w' [g|e]]
  end; exact Hs.
Qed.

Lemma slack_apiGameBet (player : string) (amount : option Z) (w : World) :
  slack (apiGameBet player amount w).1 = slack w.
Proof.
  unfold apiGameBet.
  destruct (games w !! player) as [game|]; [|done].
  destruct amount as [amount|]; [|done].
  destruct (amount <=? 0); [done|].
  unfold placeBet. cbn [fst snd].
  destruct (negb _); [done|].
  pose proof (keepsMeasure_transitionState slack PLAYER_TURN w
                (set_currentBet amount game)) as Hs.
  by destruct (transitionState _ _) as [[w' game'] [st|e]].
Qed.

Lemma slack_apiForceWin (production : bool) (ent : Entropy) (player : option string)
      (playerCards dealerCards : option (list Card)) (w : World) :
  slack (apiForceWin validPublicKey production ent player playerCards dealerCards w).1
  = slack w.
Proof.
  unfold apiForceWin.
  destruct production; [done|].
  destruct player as [[|c player]|]; [done| |done].
  set (p := String c player).
  assert (exists w1 found,
    match games w !! p with
    | Some game => (w, Ok game)
    | None =>
        match newBlackjackGame validPublicKey ent p
                (set_activePlayers (activePlayers w ∖ {[p]}) w) with
        | (w', Ok game) => (set_games (<[p := game]> (games w')) w', Ok game)
        | (w', Throw e) => (w', Throw e)
        end
    end = (w1, found) /\ slack w1 = slack w) as (w1 & found & -> & Hw1).
  { destruct (games w !! p) as [game|]; [by eexists _, _|].
    pose proof (slack_newBlackjackGame ent p
                  (set_activePlayers (activePlayers w ∖ {[p]}) w)) as Hs.
    destruct (newBlackjackGame _ _ _ _) as [w' [g|e]]; by eexists _, _. }
  destruct found as [game|e]; [|done].
  match goal with |- context [markGameAsCompleted _ ?b (w1, ?g3)] =>
    pose proof (keepsMeasure_markGameAsCompleted b w1 g3) as Hs;
    destruct (markGameAsCompleted validPublicKey b (w1, g3)) as [[w2 game4] r]
  end.
  cbn [fst] in *. by rewrite <- Hw1, <- Hs.
Qed.

Lemma count_transfers (receiver : string) (o : ExternalOutcome) :
  count isTransfer (EvRpc <$> rpcCalls receiver o) <= 1.
Proof. by destruct o. Qed.

Lemma count_pending_rpc (calls : list RpcCall) :
  count isPending (EvRpc <$> calls) = 0.
Proof. unfold count. by induction calls. Qed.

Lemma slack_markRewardPaid (player game : string) (w : World) :
  slack (markRewardPaid player game w) = slack w.
Proof.
  unfold markRewardPaid. destruct (games w !! player) as [g|]; [|done].
  by destruct (String.eqb _ _).
Qed.

Lemma slack_resumeTask (o : ExternalOutcome) (t : Task) (before after : list Task)
      (w : World) :
  tasks w = before ++ t :: after ->
  slack w <= slack (resumeTask o t (set_tasks (before ++ after) w)).
Proof.
  intros Ht.
  assert (slack (set_tasks (before ++ after) w)
          = slack w + count awaiting [t]) as Hcut.
  { unfold slack. rewrite Ht. cbn [tasks trace set_tasks].
    change (t :: after) with ([t] ++ after). rewrite !count_app. lia. }
  destruct t as [player game gameCompletion [e| |]|player];
    match type of Hcut with context [count awaiting ?l] =>
      let v := eval vm_compute in (count awaiting l) in
      change (count awaiting l) with v in Hcut
    end;
    cbn [resumeTask]; unfold processReward_resume; cbn [sendCardsReward_finish].
  - rewrite slack_completedSet, Hcut. lia.
  - rewrite slack_markRewardPaid, Hcut. lia.
  - unfold sendCardsReward_resume.
    pose proof (count_transfers player o) as Hle.
    pose proof (count_pending_rpc (rpcCalls player o)) as Hp.
    destruct (rpcResult player o) as [signature|e];
      rewrite ?slack_markRewardPaid; unfold slack in *;
      cbn [tasks trace paidSet log completedSet set_tasks] in *;
      rewrite count_app in Hcut; rewrite !count_app, Hp;
      change (count isPending [EvPaidSet _ _]) with 0;
      change (count isTransfer [EvPaidSet _ _]) with 0;
      change (count isPending [EvCompletedSet _ _]) with 0;
      change (count isTransfer [EvCompletedSet _ _]) with 0;
      lia.
  - change (slack w <= slack (set_tasks (before ++ after) w)). rewrite Hcut. lia.
Qed.

Lemma slack_step (w w' : World) : step validPublicKey w w' -> slack w <= slack w'.
Proof.
  destruct 1.
  - by rewrite slack_apiGameCreate.
  - unfold apiGameHit. by rewrite (slack_apiGameAction _ _ _ keepsMeasure_hit).
  - unfold apiGameStand. by rewrite (slack_apiGameAction _ _ _ keepsMeasure_stand).
  - by rewrite slack_apiGameReset.
  - by apply slack_resumeTask.
  - done.
  - done.
  - done.
Qed.

Lemma slack_turn (w w' : World) : turn validPublicKey w w' -> slack w <= slack w'.
Proof.
  destruct 1.
  - by apply slack_step.
  - by rewrite slack_apiGameBet.
  - by rewrite slack_apiForceWin.
Qed.

(** X15.  However requests, timers, cleanup jobs and answers of the
    network interleave, the token transfers the server has sent, together
    with the reward tasks still waiting to send one, never outnumber the
    ['pending'] records it has written: each transfer is backed by a
    ['pending'] write of its own. *)
Theorem transfers_backed_by_pending (t : Z) (w : World) :
  rtc (turn validPublicKey) (emptyWorld t) w ->
  count isTransfer (trace w) + count awaiting (tasks w) <= count isPending (trace w).
Proof.
  intros Hrun.
  assert (0 <= slack w) as Hs; [|unfold slack in Hs; lia].
  change 0 with (slack (emptyWorld t)).
  induction Hrun as [w|w1 w2 w3 Hturn _ IH]; [done|].
  etransitivity; [exact (slack_turn _ _ Hturn)|exact IH].
Qed.

End Session.

Lemma tableA_built :
  newBlackjackGame Sample.base58Address Sample.plainDraws Sample.player
                   (emptyWorld Sample.t0)
  = (set_activePlayers {[Sample.player]} (emptyWorld Sample.t0), Ok Sample.tableA).
Proof. vm_compute. reflexivity. Qed.

Lemma tableA_evolves : evolves Sample.base58Address Sample.tableA.
Proof. exact (ev_new _ _ _ _ _ _ tableA_built). Qed.

Lemma fresh_session_deal_witness :
  exists w' g,
    newBlackjackGame Sample.base58Address Sample.naturalDraws Sample.player
                     (emptyWorld Sample.t0) = (w', Ok g)
    /\ playerHand g = [mkCard hearts RA false; mkCard spades RK false]
    /\ dealerHand g = [mkCard spades RQ false; mkCard spades RJ true]
    /\ state g = GAME_ENDED
    /\ completed g = true
    /\ stateHistory g = [PLAYER_TURN; GAME_ENDED]
    /\ result <$> completedGames w' !! gameId g = Some win.
Proof.
  destruct (fresh_session_deal Sample.base58Address Sample.naturalDraws
              Sample.player (emptyWorld Sample.t0))
    as (w' & g & p1 & p2 & d1 & d2 & Hnew & Hdeck & Hp & Hd & _ & _ & _ & H21 & _).
  - vm_compute. reflexivity.
  - apply not_elem_of_empty.
  - assert (p1 = mkCard hearts RA false /\ p2 = mkCard spades RK false
            /\ d1 = mkCard spades RQ false /\ d2 = mkCard spades RJ false)
      as (-> & -> & -> & ->).
    { apply (f_equal (take 4)) in Hdeck. vm_compute in Hdeck.
      injection Hdeck as <- <- <- <-. by split_and!. }
    exists w', g. split; [exact Hnew|]. split; [exact Hp|]. split; [exact Hd|].
    apply H21. rewrite Hp. reflexivity.
Defined.

Lemma stand_plays_dealer_and_settles_witness :
  (exists w' g' entry,
     stand Sample.base58Address (Sample.liveWorld, Sample.tableA)
     = ((w', g'), Ok (getGameState g'))
     /\ state g' = GAME_ENDED
     /\ dealerHand g' = [mkCard spades RJ false; mkCard spades R10 false]
     /\ completedGames w' !! gameId g' = Some entry
     /\ result entry = loss)
  /\ (exists w' g' entry,
        stand Sample.base58Address (Sample.liveWorld, Sample.bustTable)
        = ((w', g'), Ok (getGameState g'))
        /\ 21 < calculateScore (playerHand g')
        /\ completedGames w' !! gameId g' = Some entry
        /\ result entry = loss)
  /\ (exists w' g' entry,
        stand Sample.base58Address (Sample.liveWorld, Sample.lowTable)
        = ((w', g'), Ok (getGameState g'))
        /\ dealerHand g'
           = [mkCard spades R5 false; mkCard hearts R8 false; mkCard spades R9 false]
        /\ completedGames w' !! gameId g' = Some entry
        /\ result entry = win).
Proof.
  destruct (stand_plays_dealer_and_settles Sample.base58Address Sample.liveWorld
              Sample.tableA eq_refl) as [Hready Hstand].
  destruct (Hready tableA_evolves) as (Hc & Hvis & Hlen).
  split_and!.
  - destruct (Hstand Hc Hvis Hlen)
      as (w' & g' & drawn & entry & Heq & Hstate & _ & _ & Hp & Hdeck & Hd & _
          & Hprefix & _ & Hentry & _ & _ & Htie).
    assert (drawn = []) as ->.
    { destruct drawn as [|card drawn]; [done|].
      specialize (Hprefix [] (card :: drawn) eq_refl ltac:(discriminate)).
      revert Hprefix. vm_compute. congruence. }
    exists w', g', entry. split; [exact Heq|]. split; [exact Hstate|].
    split; [exact Hd|]. split; [exact Hentry|].
    apply Htie; rewrite ?Hp, ?Hd; vm_compute; congruence.
  - destruct (stand_plays_dealer_and_settles Sample.base58Address Sample.liveWorld
                Sample.bustTable eq_refl) as [_ Hbust].
    destruct (Hbust eq_refl Hvis Hlen)
      as (w' & g' & drawn & entry & Heq & _ & _ & _ & Hp & _ & _ & _
          & _ & _ & Hentry & Hloss & _).
    assert (21 < calculateScore (playerHand g')) as Hscore
      by (rewrite Hp; vm_compute; reflexivity).
    exists w', g', entry. split; [exact Heq|]. split; [exact Hscore|].
    split; [exact Hentry|]. exact (Hloss Hscore).
  - destruct (stand_plays_dealer_and_settles Sample.base58Address Sample.liveWorld
                Sample.lowTable eq_refl) as [_ Hlow].
    destruct (Hlow eq_refl Hvis Hlen)
      as (w' & g' & drawn & entry & Heq & _ & _ & _ & Hp & Hdeck & Hd & _
          & Hprefix & Hhigh & Hentry & _ & Hwin & _).
    assert (drawn = [mkCard spades R9 false]) as ->.
    { destruct drawn as [|card drawn].
      { exfalso. rewrite Hd in Hhigh. revert Hhigh. vm_compute. congruence. }
      apply (f_equal (take 1)) in Hdeck. vm_compute in Hdeck.
      injection Hdeck as <-.
      destruct drawn as [|card' drawn]; [done|]. exfalso.
      specialize (Hprefix [mkCard spades R9 false] (card' :: drawn) eq_refl
                          ltac:(discriminate)).
      revert Hprefix. vm_compute. congruence. }
    exists w', g', entry. split; [exact Heq|]. split; [exact Hd|].
    split; [exact Hentry|].
    apply Hwin; [rewrite Hp; vm_compute; congruence|].
    left. rewrite Hd. vm_compute. reflexivity.
Defined.

Lemma snapshot_hides_hole_card_witness :
  getGameState Sample.tableA = getGameState Sample.tableB.
Proof.
  refine (proj1 (snapshot_hides_hole_card Sample.base58Address
                   Sample.tableA Sample.tableB _)).
  split; try reflexivity.
  cbn [dealerHand Sample.tableA Sample.tableB set_dealerHand].
  repeat constructor; cbn; congruence.
Defined.

Lemma completed_iff_game_ended_witness :
  completed Sample.tableA = true <-> state Sample.tableA = GAME_ENDED.
Proof.
  exact (proj1 (completed_iff_game_ended Sample.base58Address Sample.tableA
                  tableA_evolves)).
Defined.

Lemma transitionState_table_witness :
  (transitionState DEALER_TURN (emptyWorld Sample.t0, Sample.tableA)).2 = Ok DEALER_TURN
  /\ (transitionState PLAYER_TURN (emptyWorld Sample.t0, Sample.tableA)).2
     = Throw (InvalidStateTransition PLAYER_TURN PLAYER_TURN).
Proof.
  destruct (transitionState_table DEALER_TURN (emptyWorld Sample.t0) Sample.tableA)
    as [Hok _].
  destruct (transitionState_table PLAYER_TURN (emptyWorld Sample.t0) Sample.tableA)
    as [_ Hno].
  destruct (Hok eq_refl) as [-> _]. rewrite (Hno eq_refl). split; reflexivity.
Defined.

Lemma session_history_shape_witness :
  (state Sample.tableA = PLAYER_TURN /\ stateHistory Sample.tableA = [PLAYER_TURN])
  \/ (state Sample.tableA = GAME_ENDED
      /\ stateHistory Sample.tableA = [PLAYER_TURN; GAME_ENDED])
  \/ (state Sample.tableA = DEALER_TURN
      /\ stateHistory Sample.tableA = [PLAYER_TURN; DEALER_TURN])
  \/ (state Sample.tableA = GAME_ENDED
      /\ stateHistory Sample.tableA = [PLAYER_TURN; DEALER_TURN; GAME_ENDED]).
Proof.
  exact (session_history_shape Sample.base58Address Sample.tableA tableA_evolves).
Defined.

Lemma placeBet_always_refused_witness :
  placeBet 100 (Sample.liveWorld, Sample.tableA)
  = ((Sample.liveWorld, Sample.tableA), BetRefused "Cannot place bet at this time")
  /\ exists status message details,
       apiGameBet Sample.player (Some 100) Sample.liveWorld
       = (Sample.liveWorld, Failure status message details).
Proof.
  destruct (placeBet_always_refused Sample.base58Address Sample.t0 Sample.liveWorld)
    as [Hbet Hhandler].
  - apply rtc_once, turn_step.
    exact (step_create Sample.base58Address Sample.plainDraws (Some Sample.player)
             true (emptyWorld Sample.t0)).
  - split; [|apply Hhandler].
    apply (Hbet Sample.player Sample.tableA 100). vm_compute. reflexivity.
Defined.

Lemma hit_draws_and_settles_witness :
  exists card w' g',
    hit Sample.base58Address (Sample.liveWorld, Sample.tableA)
    = ((w', g'), Ok (getGameState g'))
    /\ deck Sample.tableA = card :: deck g'.
Proof.
  destruct (hit_draws_and_settles Sample.base58Address Sample.liveWorld
              Sample.tableA tableA_evolves eq_refl)
    as (card & w' & g' & Hhit & Hdeck & _).
  exists card, w', g'. split; [exact Hhit | exact Hdeck].
Defined.

Lemma stand_message_agrees_witness :
  exists w' g' view entry,
    stand Sample.base58Address (Sample.liveWorld, Sample.tableA) = ((w', g'), Ok view)
    /\ completedGames w' !! gameId g' = Some entry
    /\ v_dealerScore view = calculateScore (dealerHand g').
Proof.
  destruct (stand_message_agrees Sample.base58Address Sample.liveWorld
              Sample.tableA tableA_evolves eq_refl)
    as (w' & g' & view & entry & Hstand & Hentry & Hscore & _).
  exists w', g', view, entry. split; [exact Hstand|]. split; [exact Hentry | exact Hscore].
Defined.

Lemma session_cards_conserved_witness :
  (length (playerHand Sample.tableA) + length (dealerHand Sample.tableA)
   + length (deck Sample.tableA) = 312)%nat.
Proof.
  exact (proj1 (proj2 (session_cards_conserved Sample.base58Address Sample.tableA
                         tableA_evolves))).
Defined.

Lemma create_registers_session_witness :
  exists w' g,
    apiGameCreate Sample.base58Address Sample.plainDraws (Some Sample.player) true
                  (emptyWorld Sample.t0)
    = (w', Json (getGameState g))
    /\ apiGameCreate Sample.base58Address Sample.naturalDraws (Some Sample.player) true w'
       = (w', Json (getGameState g)).
Proof.
  destruct (create_registers_session Sample.base58Address Sample.plainDraws
              Sample.naturalDraws Sample.player (emptyWorld Sample.t0))
    as (w' & g & Hcreate & _ & _ & _ & _ & Hagain).
  - vm_compute. reflexivity.
  - discriminate.
  - right. reflexivity.
  - exists w', g. split; [exact Hcreate | exact Hagain].
Defined.

Lemma reset_always_supersedes_witness :
  exists w' g,
    apiGameReset Sample.base58Address Sample.naturalDraws (Some Sample.player)
                 Sample.liveWorld
    = (w', Json (getGameState g))
    /\ games w' = <[Sample.player := g]> (games Sample.liveWorld).
Proof.
  destruct (reset_always_supersedes Sample.base58Address Sample.naturalDraws
              Sample.player Sample.liveWorld)
    as (w' & g & Hreset & Hgames & _).
  - vm_compute. reflexivity.
  - discriminate.
  - exists w', g. split; [exact Hreset | exact Hgames].
Defined.

Lemma action_view_is_stored_witness :
  exists w' view,
    apiGameHit Sample.base58Address Sample.player Sample.liveWorld = (w', Json view)
    /\ apiGameState Sample.base58Address Sample.player w' = Json view.
Proof.
  destruct (apiGameHit Sample.base58Address Sample.player Sample.liveWorld)
    as [w' [view|status error details]] eqn:Hhit.
  - exists w', view. split; [reflexivity|].
    destruct (action_view_is_stored Sample.base58Address Sample.player
                Sample.liveWorld w' view)
      as (g & g' & _ & _ & _ & Hstate).
    + vm_compute. reflexivity.
    + left. exact Hhit.
    + exact Hstate.
  - exfalso. revert Hhit. vm_compute. discriminate.
Defined.

Lemma forceWin_settles_witness :
  exists w' g',
    apiForceWin Sample.base58Address false Sample.plainDraws (Some Sample.player)
                None None Sample.liveWorld
    = (w', Json (getGameState g'))
    /\ state g' = GAME_ENDED
    /\ completed g' = true.
Proof.
  destruct (forceWin_settles Sample.base58Address Sample.plainDraws Sample.player
              None None Sample.tableA Sample.liveWorld)
    as (_ & w' & g' & Hforce & _ & Hstate & Hcompleted & _).
  - discriminate.
  - vm_compute. reflexivity.
  - exists w', g'. split; [exact Hforce|]. split; [exact Hstate | exact Hcompleted].
Defined.

Lemma completion_starts_payout_iff_won_witness :
  exists w',
    markGameAsCompleted Sample.base58Address true (Sample.liveWorld, Sample.tableA)
    = ((w', set_completed true Sample.tableA), Ok tt)
    /\ paidRewards w' !! transactionKey Sample.player Sample.game = Some pending.
Proof.
  destruct (completion_starts_payout_iff_won Sample.base58Address true
              Sample.liveWorld Sample.tableA)
    as (w' & Hmark & _ & _ & _ & Hwin).
  - reflexivity.
  - exists w'. split; [exact Hmark|].
    destruct Hwin as (_ & Hpaid & _).
    + reflexivity.
    + vm_compute. reflexivity.
    + vm_compute. reflexivity.
    + rewrite Hpaid. apply lookup_insert_eq.
Defined.

Lemma transfers_backed_by_pending_witness :
  count isTransfer (trace Sample.settledWorld)
  + count awaiting (tasks Sample.settledWorld)
  <= count isPending (trace Sample.settledWorld).
Proof.
  apply (transfers_backed_by_pending Sample.base58Address Sample.t0).
  eapply rtc_l.
  - apply turn_step.
    exact (step_create Sample.base58Address Sample.naturalDraws (Some Sample.player)
             true (emptyWorld Sample.t0)).
  - apply rtc_once, turn_step.
    apply (step_task Sample.base58Address (SendOk "sig")
             (RewardTask Sample.player Sample.naturalGame
                (mkCompleted Sample.player win Sample.t0 true) SendAwaiting)
             [] [ReleasePlayer Sample.player] Sample.naturalWorld).
    vm_compute. reflexivity.
Defined.

(** ** The reward path, further *)
Section Payouts.

Variable validPublicKey : string -> bool.




(** X18.  A payout for a receiver whose address [new PublicKey] refuses:
    [sendCardsReward] throws before it looks at [paidRewards], so no
    record is written for the key, no call goes to the network, the
    entry's [processed] is [false] again and the sessions are
    untouched. *)
Theorem payout_invalid_address
        (player game : string) (e : CompletedEntry) (o : ExternalOutcome) (w : World) :
  completedGames w !! game = Some e ->
  processed e = false ->
  validPublicKey player = false ->
  let w' := processReward validPublicKey o player game w in
  sendCardsReward validPublicKey o player game w = (w, Throw InvalidSolanaAddress)
  /\ paidRewards w' = paidRewards w
  /\ completedGames w' !! game = Some e
  /\ List.filter isRpc (eventsOf w w') = []
  /\ games w' = games w
  /\ tasks w' = tasks w.
Proof.
  intros He Hp Hv w'. subst w'.
  rewrite (processReward_invalid validPublicKey o _ _ _ e) by done.
  split_and!.
  - unfold sendCardsReward, sendCardsReward_begin. by rewrite Hv.
  - reflexivity.
  - cbn. rewrite lookup_insert_eq. f_equal. destruct e. cbn in *. by subst.
  - erewrite eventsOf_app; [|cbn; rewrite <- !app_assoc; reflexivity]. reflexivity.
  - reflexivity.
  - reflexivity.
Qed.

End Payouts.



Lemma payout_invalid_address_witness :
  paidRewards (processReward Sample.base58Address (SendOk "sig") "nobody" Sample.game
                 Sample.strangerWorld)
  = paidRewards Sample.strangerWorld.
Proof.
  refine (proj1 (proj2 (payout_invalid_address Sample.base58Address "nobody"
                          Sample.game
                          (mkCompleted "nobody" win Sample.t0 false) (SendOk "sig")
                          Sample.strangerWorld _ _ _))); vm_compute; reflexivity.
Defined.

(** ** Session identifiers and the keys of [paidRewards] *)
Section Identifiers.

Lemma append_cons (x : ascii) (a b : string) : String x a +:+ b = String x (a +:+ b).
Proof. reflexivity. Qed.

Lemma append_String_assoc (a : string) (c : ascii) (b : string) :
  (a +:+ String c "") +:+ b = a +:+ String c b.
Proof. induction a as [|x a IH]; [done|]. by rewrite !append_cons, IH. Qed.

Lemma append_empty_r (a : string) : a +:+ "" = a.
Proof. induction a as [|x a IH]; [done|]. by rewrite append_cons, IH. Qed.

Lemma splitDashFrom_whole (cur s : string) :
  noDash s = true -> splitDashFrom cur s = [cur +:+ s].
Proof.
  revert cur. induction s as [|c s IH]; intros cur Hs;
    cbn [splitDashFrom noDash] in *.
  - by rewrite append_empty_r.
  - apply andb_prop in Hs as [Hc Hs]. destruct (Ascii.eqb c "-"); [done|].
    by rewrite IH, append_String_assoc.
Qed.

Lemma splitDashFrom_piece (cur s rest : string) :
  noDash s = true ->
  splitDashFrom cur (s +:+ String "-" rest) = (cur +:+ s) :: splitDashFrom "" rest.
Proof.
  revert cur. induction s as [|c s IH]; intros cur Hs.
  - change ("" +:+ String "-" rest) with (String "-" rest).
    cbn [splitDashFrom]. by rewrite append_empty_r.
  - rewrite append_cons. cbn [splitDashFrom noDash] in *.
    apply andb_prop in Hs as [Hc Hs]. destruct (Ascii.eqb c "-"); [done|].
    by rewrite IH, append_String_assoc.
Qed.

Lemma below_36 (d : Z) : 0 <= d < 36 -> exists n : nat, d = Z.of_nat n /\ (n < 36)%nat.
Proof. intros Hd. exists (Z.to_nat d). lia. Qed.

Lemma digitChar_noDash (d : Z) : 0 <= d < 36 -> Ascii.eqb (digitChar d) "-" = false.
Proof.
  intros (n & -> & Hn)%below_36.
  do 36 (destruct n as [|n]; [reflexivity|]). lia.
Qed.

(** A numeral that begins with one of the digits [a] to [z] is no
    decimal numeral at all. *)
Lemma parseInt10_letter (d : Z) (rest : string) :
  10 <= d < 36 -> parseInt10 (String (digitChar d) rest) = None.
Proof.
  intros Hd. destruct (below_36 d) as (n & -> & Hn); [lia|].
  do 10 (destruct n as [|n]; [lia|]).
  do 26 (destruct n as [|n]; [reflexivity|]). lia.
Qed.

Lemma toBase36_noDash (fuel : nat) (n : Z) (acc : string) :
  noDash acc = true -> noDash (toBase36 fuel n acc) = true.
Proof.
  revert n acc. induction fuel as [|fuel IH]; intros n acc Hacc; cbn [toBase36]; [done|].
  assert (noDash (String (digitChar (n mod 36)) acc) = true) as Hacc'.
  { cbn [noDash]. rewrite digitChar_noDash by (apply Z.mod_pos_bound; lia). done. }
  destruct (n / 36 =? 0); [done|by apply IH].
Qed.

Lemma toString36_noDash (t : Z) : 0 <= t -> noDash (toString36 t) = true.
Proof.
  intros Ht. unfold toString36.
  destruct (t <? 0) eqn:Hneg; [lia|]. by apply toBase36_noDash.
Qed.

(** The first digit [toBase36] writes is the leading base-36 digit. *)
Lemma toBase36_head (fuel k : nat) (n : Z) (acc : string) :
  (k < fuel)%nat -> 36 ^ Z.of_nat k <= n < 36 ^ Z.of_nat (S k) ->
  exists rest, toBase36 fuel n acc = String (digitChar (n / 36 ^ Z.of_nat k)) rest.
Proof.
  revert k n acc. induction fuel as [|fuel IH]; intros k n acc Hk Hn; [lia|].
  cbn [toBase36]. destruct k as [|k].
  - change (36 ^ Z.of_nat 0) with 1 in *. change (36 ^ Z.of_nat 1) with 36 in Hn.
    rewrite Z.div_1_r, (Z.div_small n 36), (Z.mod_small n 36) by lia.
    by eexists.
  - rewrite !Nat2Z.inj_succ, !Z.pow_succ_r in Hn by lia.
    rewrite Nat2Z.inj_succ, Z.pow_succ_r by lia.
    assert (0 < 36 ^ Z.of_nat k) as Hpos by (apply Z.pow_pos_nonneg; lia).
    assert (36 ^ Z.of_nat k <= n / 36) as Hlo by (apply Z.div_le_lower_bound; lia).
    assert (n / 36 < 36 * 36 ^ Z.of_nat k) as Hhi by (apply Z.div_lt_upper_bound; lia).
    destruct (n / 36 =? 0) eqn:Hz; [lia|].
    destruct (IH k (n / 36) (String (digitChar (n mod 36)) acc)) as [rest Hrest];
      [lia|by rewrite Nat2Z.inj_succ, Z.pow_succ_r by lia|].
    exists rest. rewrite Hrest. by rewrite Z.div_div by lia.
Qed.

Lemma toString36_head (k : nat) (t : Z) :
  36 ^ Z.of_nat k <= t < 36 ^ Z.of_nat (S k) ->
  exists rest, toString36 t = String (digitChar (t / 36 ^ Z.of_nat k)) rest.
Proof.
  intros Ht.
  assert (0 < 36 ^ Z.of_nat k) as Hpos by (apply Z.pow_pos_nonneg; lia).
  unfold toString36. destruct (t <? 0) eqn:Hneg; [lia|].
  apply toBase36_head; [|done].
  assert (Z.of_nat k <= Z.log2 t); [|lia].
  apply Z.log2_le_pow2; [lia|].
  etransitivity; [|exact (proj1 Ht)].
  apply Z.pow_le_mono_l. lia.
Qed.

Lemma charAt_chars (i : nat) :
  (i < 62)%nat -> exists c, charAt chars i = String c "" /\ Ascii.eqb c "-" = false.
Proof.
  intros Hi. do 62 (destruct i as [|i]; [by eexists|]). lia.
Qed.

Lemma idSuffix_shape (draw : nat -> nat * nat) (i count : nat) :
  String.length (idSuffix draw i count) = count
  /\ noDash (idSuffix draw i count) = true.
Proof.
  revert i. induction count as [|count IH]; intros i; cbn [idSuffix]; [done|].
  destruct (charAt_chars
    (Nat.lxor ((draw i).1 mod 62) (Nat.shiftl ((draw i).2 mod 16) (i mod 4)) mod 62))
    as (c & -> & Hc); [by apply Nat.mod_upper_bound|].
  destruct (IH (S i)) as [Hlen Hnd]. rewrite append_cons.
  change ("" +:+ ?s) with s. cbn [String.length noDash]. by rewrite Hlen, Hc, Hnd.
Qed.

Lemma transactionKey_split (player : string) (t : Z) (draw : nat -> nat * nat) :
  0 <= t -> noDash player = true ->
  splitDash (transactionKey player (generateSecureId t draw))
  = [player; toString36 t; idSuffix draw 0 16].
Proof.
  intros Ht Hp. unfold splitDash, transactionKey, generateSecureId.
  change ("-" +:+ ?s) with (String "-" s).
  rewrite splitDashFrom_piece by done.
  change ("-" +:+ ?s) with (String "-" s).
  rewrite splitDashFrom_piece by by apply toString36_noDash.
  rewrite splitDashFrom_whole by apply idSuffix_shape.
  done.
Qed.

(** X19.  A session identifier is the creation time in base 36, one
    dash, and 16 characters without a dash; with a player address that
    holds no dash, the key of [paidRewards] splits at its dashes into
    exactly the address, the time and those 16 characters. *)
Theorem generateSecureId_format (player : string) (t : Z) (draw : nat -> nat * nat) :
  0 <= t -> noDash player = true ->
  splitDash (generateSecureId t draw) = [toString36 t; idSuffix draw 0 16]
  /\ String.length (idSuffix draw 0 16) = 16%nat
  /\ splitDash (transactionKey player (generateSecureId t draw))
     = [player; toString36 t; idSuffix draw 0 16].
Proof.
  intros Ht Hp. split_and!.
  - unfold splitDash, generateSecureId.
    change ("-" +:+ ?s) with (String "-" s).
    rewrite splitDashFrom_piece by by apply toString36_noDash.
    by rewrite splitDashFrom_whole by apply idSuffix_shape.
  - apply idSuffix_shape.
  - by apply transactionKey_split.
Qed.

Lemma paidKeyExpired_letter (player : string) (k : nat) (t : Z)
      (draw : nat -> nat * nat) (cutoff : Z) :
  noDash player = true ->
  10 * 36 ^ Z.of_nat k <= t < 36 ^ Z.of_nat (S k) ->
  paidKeyExpired cutoff (transactionKey player (generateSecureId t draw)) = false.
Proof.
  intros Hp Ht.
  assert (0 < 36 ^ Z.of_nat k) as Hpos by (apply Z.pow_pos_nonneg; lia).
  unfold paidKeyExpired. rewrite transactionKey_split by (done || lia).
  cbn [length Nat.leb lookup list_lookup].
  destruct (toString36_head k t) as [rest ->]; [lia|].
  rewrite parseInt10_letter; [done|].
  split; [apply Z.div_le_lower_bound; lia|].
  apply Z.div_lt_upper_bound; [lia|].
  rewrite Nat2Z.inj_succ, Z.pow_succ_r in Ht by lia. lia.
Qed.

(** X20.  The paid-rewards job never removes the record of a session
    whose creation time, written in base 36, begins with a letter, at
    whatever time the job runs: read as a decimal numeral that time is
    [NaN].  With [k = 7] these are the sessions created between 1994 and
    2059. *)
Theorem paid_record_outlives_cleanup (player : string) (k : nat) (t : Z)
        (draw : nat -> nat * nat) (w : World) :
  noDash player = true ->
  10 * 36 ^ Z.of_nat k <= t < 36 ^ Z.of_nat (S k) ->
  paidRewards (cleanupOldPaidRewards w)
    !! transactionKey player (generateSecureId t draw)
  = paidRewards w !! transactionKey player (generateSecureId t draw).
Proof.
  intros Hp Ht. rewrite cleanupOldPaidRewards_lookup.
  rewrite (paidKeyExpired_letter _ k) by done.
  by destruct (paidRewards w !! _).
Qed.

(** X21.  The completed-games job removes exactly the entries finished
    more than 24 hours before it runs and touches nothing else; run
    again at the same time it changes nothing. *)
Theorem cleanupOldCompletedGames_exact (w : World) :
  (forall game e,
     completedGames (cleanupOldCompletedGames w) !! game = Some e
     <-> completedGames w !! game = Some e
         /\ now w - 24 * 60 * 60 * 1000 <= timestamp e)
  /\ games (cleanupOldCompletedGames w) = games w
  /\ activePlayers (cleanupOldCompletedGames w) = activePlayers w
  /\ paidRewards (cleanupOldCompletedGames w) = paidRewards w
  /\ tasks (cleanupOldCompletedGames w) = tasks w
  /\ trace (cleanupOldCompletedGames w) = trace w
  /\ cleanupOldCompletedGames (cleanupOldCompletedGames w) = cleanupOldCompletedGames w.
Proof.
  assert (forall game e,
     completedGames (cleanupOldCompletedGames w) !! game = Some e
     <-> completedGames w !! game = Some e
         /\ now w - 24 * 60 * 60 * 1000 <= timestamp e) as Hexact.
  { intros game e. rewrite cleanupOldCompletedGames_lookup.
    destruct (completedGames w !! game) as [e'|]; [|split; [done|by intros [? _]]].
    destruct (timestamp e' <? _) eqn:Hold.
    - split; [done|]. intros [[= ->] Hle]. lia.
    - split; [intros [= ->]; split; [done|lia]|by intros [? _]]. }
  split_and!; try done.
  set (w1 := cleanupOldCompletedGames w).
  assert (completedGames (cleanupOldCompletedGames w1) = completedGames w1) as Hsame.
  { apply map_eq. intros game. rewrite cleanupOldCompletedGames_lookup.
    destruct (completedGames w1 !! game) as [e|] eqn:He; [|done].
    apply Hexact in He as [_ Hle].
    change (now w1) with (now w).
    destruct (timestamp e <? _) eqn:Hold; [lia|done]. }
  unfold cleanupOldCompletedGames at 1. fold w1.
  unfold cleanupOldCompletedGames in Hsame at 1.
  cbn [completedGames set_completedGames] in Hsame. rewrite Hsame.
  by destruct w1.
Qed.

End Identifiers.

Lemma generateSecureId_format_witness :
  splitDash (generateSecureId Sample.t0 (resetIdDraw Sample.plainDraws))
  = ["loyw3v28"; "FJShJFG9dRKJhtAF"]
  /\ splitDash (transactionKey Sample.player Sample.game)
     = [Sample.player; "loyw3v28"; "FJShJFG9dRKJhtAF"].
Proof.
  destruct (generateSecureId_format Sample.player Sample.t0
              (resetIdDraw Sample.plainDraws)) as (H1 & _ & H3);
    [unfold Sample.t0; lia|reflexivity|].
  split; [exact H1|exact H3].
Defined.

Lemma paid_record_outlives_cleanup_witness :
  paidRewards (cleanupOldPaidRewards Sample.weekLaterWorld)
    !! transactionKey Sample.player Sample.game
  = Some RewardStatus.completed.
Proof.
  unfold Sample.game.
  rewrite (paid_record_outlives_cleanup Sample.player 7 Sample.t0
             (resetIdDraw Sample.plainDraws) Sample.weekLaterWorld);
    [reflexivity|reflexivity|].
  unfold Sample.t0. vm_compute. split; congruence.
Defined.
